(** * FileGuard: job pipeline, storage paths and dispatch queue

    A shallow embedding of the TypeScript sources of the file-scanning
    service (job.service.ts, queue.service.ts, storage.service.ts,
    db/client.ts, workers/scan.worker.ts, api/routes/scan.ts and the SQL
    schema) together with the properties of the job life cycle that were
    checked against it. *)

From Stdlib Require Import ZArith Lia Bool List.
From Stdlib Require Import Strings.String Strings.Ascii.
From stdpp Require Import base option list gmap strings.

Local Open Scope Z_scope.

(* ===================================================================== *)
(** * 1. Strings and POSIX paths                                         *)
(* ===================================================================== *)

(** JavaScript strings are modelled by [string]; [s1 +:+ s2] is
    concatenation.  The path functions below follow the POSIX flavour of
    Node's [path] module ([path.sep] is a forward slash). *)

Definition CHAR_FORWARD_SLASH : ascii := "/"%char.

Definition isPosixPathSeparator (c : ascii) : bool :=
  Ascii.eqb c CHAR_FORWARD_SLASH.

(** [s.split('/')]: the segments between separators; never empty. *)
Fixpoint split_sep (s : string) : list string :=
  match s with
  | EmptyString => [EmptyString]
  | String c t =>
      if isPosixPathSeparator c then EmptyString :: split_sep t
      else match split_sep t with
           | h :: r => String c h :: r
           | [] => [String c EmptyString]
           end
  end.

(** [segs.join('/')]. *)
Fixpoint join_sep (segs : list string) : string :=
  match segs with
  | [] => EmptyString
  | [x] => x
  | x :: rest => x +:+ "/" +:+ join_sep rest
  end.

(** [s.startsWith(p)]. *)
Fixpoint startsWith (s p : string) {struct p} : bool :=
  match p, s with
  | EmptyString, _ => true
  | String a p', String b s' => Ascii.eqb a b && startsWith s' p'
  | String _ _, EmptyString => false
  end.

Definition str_nonempty (s : string) : bool :=
  match s with EmptyString => false | String _ _ => true end.

(** [path.charCodeAt(0) === CHAR_FORWARD_SLASH]. *)
Definition isAbsolute (p : string) : bool :=
  match p with
  | String c _ => isPosixPathSeparator c
  | EmptyString => false
  end.

Fixpoint endsWithSep (p : string) : bool :=
  match p with
  | EmptyString => false
  | String c EmptyString => isPosixPathSeparator c
  | String _ t => endsWithSep t
  end.

(** [path.basename(p)] without suffix: trailing separators are dropped and
    the text after the last remaining separator is returned, that is the
    last non-empty segment (the empty string when there is none). *)
Definition basename (p : string) : string :=
  List.last (List.filter str_nonempty (split_sep p)) EmptyString.

(** One step of Node's [normalizeString], on whole segments.  [stack] holds
    the segments kept so far, the most recent first.  Empty segments and
    "." are dropped; ".." removes the previous segment unless there is none
    or it is ".." itself, in which case ".." is kept only when
    [allowAboveRoot]. *)
Definition normalize_step (allowAboveRoot : bool)
    (stack : list string) (seg : string) : list string :=
  if String.eqb seg "" || String.eqb seg "." then stack
  else if String.eqb seg ".." then
    match stack with
    | top :: rest =>
        if String.eqb top ".."
        then (if allowAboveRoot then ".." :: stack else stack)
        else rest
    | [] => if allowAboveRoot then [".."] else []
    end
  else seg :: stack.

Definition normalizeString (p : string) (allowAboveRoot : bool) : string :=
  join_sep (List.rev (List.fold_left (normalize_step allowAboveRoot)
                                     (split_sep p) [])).

(** [path.normalize]. *)
Definition path_normalize (p : string) : string :=
  if negb (str_nonempty p) then "."
  else
    let isAbs := isAbsolute p in
    let trailingSeparator := endsWithSep p in
    let q := normalizeString p (negb isAbs) in
    if negb (str_nonempty q) then
      (if isAbs then "/" else if trailingSeparator then "./" else ".")
    else
      let q := if trailingSeparator then q +:+ "/" else q in
      if isAbs then "/" +:+ q else q.

(** [path.join(...args)]: the non-empty arguments joined by "/" and
    normalized; "." when nothing is left. *)
Definition path_join (args : list string) : string :=
  match List.filter str_nonempty args with
  | [] => "."
  | joined => path_normalize (join_sep joined)
  end.

(** The loop of [path.resolve]: arguments are taken from the right until an
    absolute one is met; the working directory comes last. *)
Fixpoint resolve_loop (rev_args : list string) (cwd : string)
    (resolvedPath : string) : string * bool :=
  match rev_args with
  | [] =>
      if str_nonempty cwd
      then (cwd +:+ "/" +:+ resolvedPath, isAbsolute cwd)
      else (resolvedPath, false)
  | p :: more =>
      if str_nonempty p then
        if isAbsolute p then (p +:+ "/" +:+ resolvedPath, true)
        else resolve_loop more cwd (p +:+ "/" +:+ resolvedPath)
      else resolve_loop more cwd resolvedPath
  end.

(** [path.resolve(...args)] in a process whose working directory is
    [cwd]. *)
Definition path_resolve (cwd : string) (args : list string) : string :=
  let '(resolvedPath, resolvedAbsolute) :=
    resolve_loop (List.rev args) cwd "" in
  let q := normalizeString resolvedPath (negb resolvedAbsolute) in
  if resolvedAbsolute then "/" +:+ q
  else if str_nonempty q then q else ".".

(** A string without a separator. *)
Fixpoint no_sep (s : string) : bool :=
  match s with
  | EmptyString => true
  | String c t => negb (isPosixPathSeparator c) && no_sep t
  end.

(** An ordinary path segment: non-empty, separator-free, neither "." nor
    "..". *)
Definition normal_segment (s : string) : bool :=
  no_sep s && negb (String.eqb s "") && negb (String.eqb s ".")
  && negb (String.eqb s "..").

(** The absolute path made of the given segments. *)
Definition abs_path (segs : list string) : string :=
  String CHAR_FORWARD_SLASH (join_sep segs).

(* ===================================================================== *)
(** * 2. Errors (utils/errors.ts)                                        *)
(* ===================================================================== *)

Inductive ErrorCode :=
  | VALIDATION_ERROR | FILE_TOO_LARGE | UNSUPPORTED_FILE_TYPE
  | JOB_NOT_FOUND | ROUTE_NOT_FOUND
  | INTERNAL_ERROR | DATABASE_ERROR | STORAGE_ERROR | QUEUE_ERROR
  | SCANNER_ERROR | SCANNER_UNAVAILABLE.

(** A thrown value: a plain [Error] (also what the database driver, the
    queue client and the file system raise) or an [AppError] with its
    message, status code and error code.  The optional [details] record,
    which nothing modelled here reads, is left out. *)
Inductive Exn :=
  | JsError (message : string)
  | AppError (message : string) (statusCode : Z) (code : ErrorCode).

Definition ValidationError (message : string) : Exn :=
  AppError message 400 VALIDATION_ERROR.
Definition NotFoundError (resource identifier : string) : Exn :=
  AppError (resource +:+ " not found: " +:+ identifier) 404 JOB_NOT_FOUND.
Definition DatabaseError (message : string) : Exn :=
  AppError message 500 DATABASE_ERROR.
Definition StorageError (message : string) : Exn :=
  AppError message 500 STORAGE_ERROR.
Definition QueueError (message : string) : Exn :=
  AppError message 500 QUEUE_ERROR.
Definition ScannerError (message : string) : Exn :=
  AppError message 500 SCANNER_ERROR.
Definition ScannerUnavailableError : Exn :=
  AppError "Virus scanner is temporarily unavailable. Please try again later."
           503 SCANNER_UNAVAILABLE.

(** [error.message]. *)
Definition message_of (e : Exn) : string :=
  match e with
  | JsError m => m
  | AppError m _ _ => m
  end.

Definition code_of (e : Exn) : option ErrorCode :=
  match e with
  | JsError _ => None
  | AppError _ _ c => Some c
  end.

(** The outcome of a call: a value, or a thrown exception. *)
Inductive Result (A : Type) :=
  | Ok (a : A)
  | Throw (e : Exn).
Arguments Ok {A} a.
Arguments Throw {A} e.

(* ===================================================================== *)
(** * 3. storage.service.ts: getFilePath                                 *)
(* ===================================================================== *)

(** [UPLOAD_DIR = path.resolve(config.storage.uploadDir)]. *)
Definition UPLOAD_DIR (cwd uploadDir : string) : string :=
  path_resolve cwd [uploadDir].

Definition getFilePath (cwd uploadDir : string) (storedFilename : string)
  : Result string :=
  let safeName := basename storedFilename in
  let filePath := path_join [UPLOAD_DIR cwd uploadDir; safeName] in
  let resolvedPath := path_resolve cwd [filePath] in
  let resolvedUploadDir := path_resolve cwd [UPLOAD_DIR cwd uploadDir] in
  if negb (startsWith resolvedPath (resolvedUploadDir +:+ "/")) then
    Throw (StorageError ("Invalid file path detected: " +:+ storedFilename))
  else Ok resolvedPath.

(* ===================================================================== *)
(** * 4. Data model (types/index.ts, schema.sql)                         *)
(* ===================================================================== *)

Inductive JobStatus := PENDING | PROCESSING | COMPLETED | FAILED | CANCELLED.

Inductive ScanResultType := CLEAN | INFECTED | ERROR.

Global Instance JobStatus_eq_dec : EqDecision JobStatus.
Proof. solve_decision. Defined.

Global Instance ScanResultType_eq_dec : EqDecision ScanResultType.
Proof. solve_decision. Defined.

(** Timestamps are milliseconds since the epoch. *)
Definition Timestamp := Z.

(** A row of table [jobs]. *)
Module JobRow.
Record t := mk {
  id : string;
  original_filename : string;
  stored_filename : string;
  file_path : string;
  file_size : Z;
  mime_type : option string;
  checksum : option string;
  status : JobStatus;
  priority : Z;
  attempts : Z;
  max_attempts : Z;
  error_message : option string;
  created_at : Timestamp;
  updated_at : Timestamp;
  started_at : option Timestamp;
  completed_at : option Timestamp;
}.
End JobRow.

(** The [Job] object handed to callers. *)
Module Job.
Record t := mk {
  id : string;
  originalFilename : string;
  storedFilename : string;
  filePath : string;
  fileSize : Z;
  mimeType : option string;
  checksum : option string;
  status : JobStatus;
  priority : Z;
  attempts : Z;
  maxAttempts : Z;
  errorMessage : option string;
  createdAt : Timestamp;
  updatedAt : Timestamp;
  startedAt : option Timestamp;
  completedAt : option Timestamp;
}.
End Job.

(** A row of table [scan_results]. *)
Module ScanResultRow.
Record t := mk {
  id : string;
  job_id : string;
  result : ScanResultType;
  is_infected : bool;
  threat_name : option string;
  threat_category : option string;
  threat_description : option string;
  scanner_version : option string;
  definition_version : option string;
  scan_duration_ms : Z;
  scanned_at : Timestamp;
}.
End ScanResultRow.

Module ScanResult.
Record t := mk {
  id : string;
  jobId : string;
  result : ScanResultType;
  isInfected : bool;
  threatName : option string;
  threatCategory : option string;
  threatDescription : option string;
  scannerVersion : option string;
  definitionVersion : option string;
  scanDurationMs : Z;
  scannedAt : Timestamp;
}.
End ScanResult.

(** [CreateJobInput] as a JavaScript value: every property may be
    [undefined] at run time, whatever the declared type says. *)
Module CreateJobInput.
Record t := mk {
  originalFilename : option string;
  storedFilename : option string;
  filePath : option string;
  fileSize : option Z;
  mimeType : option string;
  checksum : option string;
  priority : option Z;
}.
End CreateJobInput.

(** The result data passed to [completeJobWithResult]. *)
Module ResultData.
Record t := mk {
  result : ScanResultType;
  isInfected : bool;
  threatName : option string;
  threatCategory : option string;
  threatDescription : option string;
  scannerVersion : option string;
  definitionVersion : option string;
  scanDurationMs : Z;
}.
End ResultData.

Module ClamScanResult.
Record t := mk {
  isInfected : bool;
  viruses : list string;
  scannedFiles : Z;
  scanDurationMs : Z;
  error : option string;
}.
End ClamScanResult.

Module ScanJobPayload.
Record t := mk {
  jobId : string;
  filePath : string;
  attempt : Z;
}.
End ScanJobPayload.

Definition mapRowToJob (row : JobRow.t) : Job.t :=
  {| Job.id := JobRow.id row;
     Job.originalFilename := JobRow.original_filename row;
     Job.storedFilename := JobRow.stored_filename row;
     Job.filePath := JobRow.file_path row;
     Job.fileSize := JobRow.file_size row;
     Job.mimeType := JobRow.mime_type row;
     Job.checksum := JobRow.checksum row;
     Job.status := JobRow.status row;
     Job.priority := JobRow.priority row;
     Job.attempts := JobRow.attempts row;
     Job.maxAttempts := JobRow.max_attempts row;
     Job.errorMessage := JobRow.error_message row;
     Job.createdAt := JobRow.created_at row;
     Job.updatedAt := JobRow.updated_at row;
     Job.startedAt := JobRow.started_at row;
     Job.completedAt := JobRow.completed_at row |}.

Definition mapRowToScanResult (row : ScanResultRow.t) : ScanResult.t :=
  {| ScanResult.id := ScanResultRow.id row;
     ScanResult.jobId := ScanResultRow.job_id row;
     ScanResult.result := ScanResultRow.result row;
     ScanResult.isInfected := ScanResultRow.is_infected row;
     ScanResult.threatName := ScanResultRow.threat_name row;
     ScanResult.threatCategory := ScanResultRow.threat_category row;
     ScanResult.threatDescription := ScanResultRow.threat_description row;
     ScanResult.scannerVersion := ScanResultRow.scanner_version row;
     ScanResult.definitionVersion := ScanResultRow.definition_version row;
     ScanResult.scanDurationMs := ScanResultRow.scan_duration_ms row;
     ScanResult.scannedAt := ScanResultRow.scanned_at row |}.

(* ===================================================================== *)
(** * 5. The world: database, file system, queue, scanner, environment   *)
(* ===================================================================== *)

(** The relational store.  [jobs] is keyed by its primary key;
    [scan_results] is kept as the list of its rows, because nothing but the
    primary key [id] is unique in that table. *)
Record Db := mkDb {
  jobs : gmap string JobRow.t;
  scan_results : list ScanResultRow.t;
}.

(** A stored file, abstracted to its size and SHA-256 digest. *)
Record File := mkFile {
  f_size : Z;
  f_sha256 : string;
}.

(** What the ClamAV client answers to one [scanFile] call. *)
Inductive ClamReply :=
  | ClamVerdict (isInfected : bool) (viruses : list string) (elapsedMs : Z)
  | ClamThrows (message : string).

(** An entry of the BullMQ queue [file-scan]. *)
Record BullJob := mkBullJob {
  bj_id : string;
  bj_name : string;
  bj_data : ScanJobPayload.t;
  bj_priority : Z;
  bj_delay : Z;
  bj_timestamp : Timestamp;
  bj_attemptsMade : Z;
  bj_attempts : Z;
}.

(** The state every operation runs against.
    - [db] is the committed database, [txn] the working copy of the
      transaction open on the checked-out client, if any;
    - [now] is the wall clock ([NOW()], [Date.now()]);
    - [faults] scripts the infrastructure: each call to the database, the
      queue, the file system or the scanner daemon set-up takes the next
      flag, and fails when it is [true] (an exhausted script means no
      failure);
    - [entropy] and [drawn] are the sequence of identifiers [uuidv4()]
      produces and how many were taken;
    - [fs] maps absolute paths to files; [queue] is the BullMQ queue;
    - [clamScanner] tells whether the cached scanner client is set,
      [clamd] scripts the daemon's answers and [scans] logs the paths handed
      to it;
    - [cwd] is [process.cwd()] and [uploadDir] is
      [config.storage.uploadDir]. *)
Record World := mkWorld {
  db : Db;
  txn : option Db;
  now : Timestamp;
  faults : list bool;
  entropy : nat -> string;
  drawn : nat;
  fs : gmap string File;
  queue : list BullJob;
  clamScanner : bool;
  clamd : list ClamReply;
  scans : list string;
  cwd : string;
  uploadDir : string;
}.

Definition set_db (v : Db) (r : World) : World :=
  mkWorld v (txn r) (now r) (faults r) (entropy r) (drawn r) (fs r) (queue r)
    (clamScanner r) (clamd r) (scans r) (cwd r) (uploadDir r) .
Definition set_txn (v : option Db) (r : World) : World :=
  mkWorld (db r) v (now r) (faults r) (entropy r) (drawn r) (fs r) (queue r)
    (clamScanner r) (clamd r) (scans r) (cwd r) (uploadDir r) .
Definition set_now (v : Timestamp) (r : World) : World :=
  mkWorld (db r) (txn r) v (faults r) (entropy r) (drawn r) (fs r) (queue r)
    (clamScanner r) (clamd r) (scans r) (cwd r) (uploadDir r) .
Definition set_faults (v : list bool) (r : World) : World :=
  mkWorld (db r) (txn r) (now r) v (entropy r) (drawn r) (fs r) (queue r)
    (clamScanner r) (clamd r) (scans r) (cwd r) (uploadDir r) .
Definition set_entropy (v : nat -> string) (r : World) : World :=
  mkWorld (db r) (txn r) (now r) (faults r) v (drawn r) (fs r) (queue r)
    (clamScanner r) (clamd r) (scans r) (cwd r) (uploadDir r) .
Definition set_drawn (v : nat) (r : World) : World :=
  mkWorld (db r) (txn r) (now r) (faults r) (entropy r) v (fs r) (queue r)
    (clamScanner r) (clamd r) (scans r) (cwd r) (uploadDir r) .
Definition set_fs (v : gmap string File) (r : World) : World :=
  mkWorld (db r) (txn r) (now r) (faults r) (entropy r) (drawn r) v (queue r)
    (clamScanner r) (clamd r) (scans r) (cwd r) (uploadDir r) .
Definition set_queue (v : list BullJob) (r : World) : World :=
  mkWorld (db r) (txn r) (now r) (faults r) (entropy r) (drawn r) (fs r) v
    (clamScanner r) (clamd r) (scans r) (cwd r) (uploadDir r) .
Definition set_clamScanner (v : bool) (r : World) : World :=
  mkWorld (db r) (txn r) (now r) (faults r) (entropy r) (drawn r) (fs r)
    (queue r) v (clamd r) (scans r) (cwd r) (uploadDir r) .
Definition set_clamd (v : list ClamReply) (r : World) : World :=
  mkWorld (db r) (txn r) (now r) (faults r) (entropy r) (drawn r) (fs r)
    (queue r) (clamScanner r) v (scans r) (cwd r) (uploadDir r) .
Definition set_scans (v : list string) (r : World) : World :=
  mkWorld (db r) (txn r) (now r) (faults r) (entropy r) (drawn r) (fs r)
    (queue r) (clamScanner r) (clamd r) v (cwd r) (uploadDir r) .
Definition set_cwd (v : string) (r : World) : World :=
  mkWorld (db r) (txn r) (now r) (faults r) (entropy r) (drawn r) (fs r)
    (queue r) (clamScanner r) (clamd r) (scans r) v (uploadDir r) .
Definition set_uploadDir (v : string) (r : World) : World :=
  mkWorld (db r) (txn r) (now r) (faults r) (entropy r) (drawn r) (fs r)
    (queue r) (clamScanner r) (clamd r) (scans r) (cwd r) v.

Definition set_jobs (v : gmap string JobRow.t) (d : Db) : Db :=
  mkDb v (scan_results d).
Definition set_scan_results (v : list ScanResultRow.t) (d : Db) : Db :=
  mkDb (jobs d) v.

Definition set_status (v : JobStatus) (r : JobRow.t) : JobRow.t :=
  JobRow.mk (JobRow.id r) (JobRow.original_filename r)
    (JobRow.stored_filename r) (JobRow.file_path r) (JobRow.file_size r)
    (JobRow.mime_type r) (JobRow.checksum r) v (JobRow.priority r)
    (JobRow.attempts r) (JobRow.max_attempts r) (JobRow.error_message r)
    (JobRow.created_at r) (JobRow.updated_at r) (JobRow.started_at r)
    (JobRow.completed_at r) .
Definition set_attempts (v : Z) (r : JobRow.t) : JobRow.t :=
  JobRow.mk (JobRow.id r) (JobRow.original_filename r)
    (JobRow.stored_filename r) (JobRow.file_path r) (JobRow.file_size r)
    (JobRow.mime_type r) (JobRow.checksum r) (JobRow.status r)
    (JobRow.priority r) v (JobRow.max_attempts r) (JobRow.error_message r)
    (JobRow.created_at r) (JobRow.updated_at r) (JobRow.started_at r)
    (JobRow.completed_at r) .
Definition set_error_message (v : option string) (r : JobRow.t) : JobRow.t :=
  JobRow.mk (JobRow.id r) (JobRow.original_filename r)
    (JobRow.stored_filename r) (JobRow.file_path r) (JobRow.file_size r)
    (JobRow.mime_type r) (JobRow.checksum r) (JobRow.status r)
    (JobRow.priority r) (JobRow.attempts r) (JobRow.max_attempts r) v
    (JobRow.created_at r) (JobRow.updated_at r) (JobRow.started_at r)
    (JobRow.completed_at r) .
Definition set_updated_at (v : Timestamp) (r : JobRow.t) : JobRow.t :=
  JobRow.mk (JobRow.id r) (JobRow.original_filename r)
    (JobRow.stored_filename r) (JobRow.file_path r) (JobRow.file_size r)
    (JobRow.mime_type r) (JobRow.checksum r) (JobRow.status r)
    (JobRow.priority r) (JobRow.attempts r) (JobRow.max_attempts r)
    (JobRow.error_message r) (JobRow.created_at r) v (JobRow.started_at r)
    (JobRow.completed_at r) .
Definition set_started_at (v : option Timestamp) (r : JobRow.t) : JobRow.t :=
  JobRow.mk (JobRow.id r) (JobRow.original_filename r)
    (JobRow.stored_filename r) (JobRow.file_path r) (JobRow.file_size r)
    (JobRow.mime_type r) (JobRow.checksum r) (JobRow.status r)
    (JobRow.priority r) (JobRow.attempts r) (JobRow.max_attempts r)
    (JobRow.error_message r) (JobRow.created_at r) (JobRow.updated_at r) v
    (JobRow.completed_at r) .
Definition set_completed_at (v : option Timestamp) (r : JobRow.t) : JobRow.t :=
  JobRow.mk (JobRow.id r) (JobRow.original_filename r)
    (JobRow.stored_filename r) (JobRow.file_path r) (JobRow.file_size r)
    (JobRow.mime_type r) (JobRow.checksum r) (JobRow.status r)
    (JobRow.priority r) (JobRow.attempts r) (JobRow.max_attempts r)
    (JobRow.error_message r) (JobRow.created_at r) (JobRow.updated_at r)
    (JobRow.started_at r) v.

(* ===================================================================== *)
(** * 6. Computations with state and exceptions                          *)
(* ===================================================================== *)

(** An [async] function: it transforms the world and returns a value or
    throws. *)
Definition M (A : Type) : Type := World -> Result A * World.

Definition ret {A} (a : A) : M A := fun w => (Ok a, w).

Definition throw {A} (e : Exn) : M A := fun w => (Throw e, w).

Definition bind {A B} (m : M A) (k : A -> M B) : M B :=
  fun w =>
    match m w with
    | (Ok a, w') => k a w'
    | (Throw e, w') => (Throw e, w')
    end.

Declare Scope m_scope.
Delimit Scope m_scope with M.
Notation "x <- c1 ;; c2" := (bind c1 (fun x => c2))
  (at level 100, c1 at next level, right associativity) : m_scope.
Notation "c1 ;;; c2" := (bind c1 (fun _ => c2))
  (at level 100, right associativity) : m_scope.
Local Open Scope m_scope.

(** [try { body } catch (error) { handler }]. *)
Definition try_catch {A} (body : M A) (handler : Exn -> M A) : M A :=
  fun w =>
    match body w with
    | (Ok a, w') => (Ok a, w')
    | (Throw e, w') => handler e w'
    end.

(** [try { body } finally { fin }], for a [fin] that does not throw. *)
Definition try_finally {A} (body : M A) (fin : World -> World) : M A :=
  fun w => let '(r, w') := body w in (r, fin w').

Definition get_world : M World := fun w => (Ok w, w).

Definition modify (f : World -> World) : M unit := fun w => (Ok tt, f w).

(** The world once the next fault flag has been taken. *)
Definition pop_fault (w : World) : World :=
  set_faults (List.tl (faults w)) w.

(** The next infrastructure fault flag. *)
Definition io_fault : M bool :=
  fun w => (Ok (List.hd false (faults w)), pop_fault w).

(** An external call that may fail at the infrastructure level. *)
Definition io (failure : string) : M unit :=
  b <- io_fault ;;
  if b : bool then throw (JsError failure) else ret tt.

(** [uuidv4()]. *)
Definition uuidv4 : M string :=
  fun w => (Ok (entropy w (drawn w)), set_drawn (S (drawn w)) w).

(** [value ?? fallback]. *)
Definition nullish {A} (value : option A) (fallback : A) : A :=
  match value with
  | Some v => v
  | None => fallback
  end.

(* ===================================================================== *)
(** * 7. SQL statements over the schema                                  *)
(* ===================================================================== *)

(** A statement maps the clock and the database to its rows and the new
    database, or raises the driver's error. *)
Definition Stmt (R : Type) : Type := Timestamp -> Db -> Result (list R * Db).

Definition pg_error {A} (m : string) : Result A := Throw (JsError m).

Definition varchar_ok (n : nat) (s : string) : bool :=
  Nat.leb (String.length s) n.

Definition opt_varchar_ok (n : nat) (o : option string) : bool :=
  match o with
  | Some s => varchar_ok n s
  | None => true
  end.

Definition int4_ok (z : Z) : bool :=
  (-2147483648 <=? z) && (z <=? 2147483647).

Definition int8_ok (z : Z) : bool :=
  (-9223372036854775808 <=? z) && (z <=? 9223372036854775807).

(** [INSERT INTO jobs (id, original_filename, stored_filename, file_path,
    file_size, mime_type, checksum, priority) VALUES (...) RETURNING *].
    The remaining columns take their defaults: status 'pending', attempts 0,
    max_attempts 3, created_at and updated_at NOW(). *)
Definition sql_insert_job (id : string)
    (original_filename stored_filename file_path : option string)
    (file_size : option Z) (mime_type checksum : option string)
    (priority : Z) : Stmt JobRow.t :=
  fun now d =>
    match original_filename, stored_filename, file_path, file_size with
    | Some ofn, Some sfn, Some fp, Some fsz =>
        if negb (varchar_ok 255 ofn && varchar_ok 255 sfn && varchar_ok 500 fp
                 && opt_varchar_ok 100 mime_type && opt_varchar_ok 64 checksum)
        then pg_error "value too long for type character varying"
        else if negb (int8_ok fsz && int4_ok priority)
        then pg_error "value out of range"
        else
          match jobs d !! id with
          | Some _ =>
              pg_error "duplicate key value violates unique constraint"
          | None =>
              let row :=
                {| JobRow.id := id;
                   JobRow.original_filename := ofn;
                   JobRow.stored_filename := sfn;
                   JobRow.file_path := fp;
                   JobRow.file_size := fsz;
                   JobRow.mime_type := mime_type;
                   JobRow.checksum := checksum;
                   JobRow.status := PENDING;
                   JobRow.priority := priority;
                   JobRow.attempts := 0;
                   JobRow.max_attempts := 3;
                   JobRow.error_message := None;
                   JobRow.created_at := now;
                   JobRow.updated_at := now;
                   JobRow.started_at := None;
                   JobRow.completed_at := None |} in
              Ok ([row], set_jobs (<[id := row]> (jobs d)) d)
          end
    | _, _, _, _ =>
        pg_error "null value in column violates not-null constraint"
    end.

(** [SELECT * FROM jobs WHERE id = $1]. *)
Definition sql_select_job (id : string) : Stmt JobRow.t :=
  fun _ d =>
    Ok (match jobs d !! id with Some r => [r] | None => [] end, d).

(** The assignments of an [UPDATE jobs SET ...]. *)
Inductive SetClause :=
  | SetStatus (s : JobStatus)        (* status = $2 *)
  | SetStartedAtNow                  (* started_at = NOW() *)
  | IncAttempts                      (* attempts = attempts + 1 *)
  | SetCompletedAtNow                (* completed_at = NOW() *)
  | SetErrorMessage (m : string).    (* error_message = $3 *)

(** One assignment; right-hand sides read the row as it was ([old]). *)
Definition apply_set (now : Timestamp) (old : JobRow.t)
    (r : JobRow.t) (c : SetClause) : JobRow.t :=
  match c with
  | SetStatus s => set_status s r
  | SetStartedAtNow => set_started_at (Some now) r
  | IncAttempts => set_attempts (JobRow.attempts old + 1) r
  | SetCompletedAtNow => set_completed_at (Some now) r
  | SetErrorMessage m => set_error_message (Some m) r
  end.

(** [UPDATE jobs SET <updates> WHERE id = $1 RETURNING *], followed by the
    trigger [trigger_jobs_updated_at], which stamps [updated_at]. *)
Definition sql_update_job (updates : list SetClause) (id : string)
  : Stmt JobRow.t :=
  fun now d =>
    match jobs d !! id with
    | None => Ok ([], d)
    | Some old =>
        let new := List.fold_left (apply_set now old) updates old in
        if int4_ok (JobRow.attempts new) then
          let new := set_updated_at now new in
          Ok ([new], set_jobs (<[id := new]> (jobs d)) d)
        else pg_error "integer out of range"
    end.

(** [INSERT INTO scan_results (id, job_id, result, is_infected, threat_name,
    threat_category, threat_description, scanner_version,
    definition_version, scan_duration_ms) VALUES (...) RETURNING *]; columns
    left out by a shorter column list are NULL.  [id] is the primary key and
    [job_id] references [jobs(id)]. *)
Definition sql_insert_scan_result (id job_id : string)
    (result : ScanResultType) (is_infected : bool)
    (threat_name threat_category threat_description
     scanner_version definition_version : option string)
    (scan_duration_ms : Z) : Stmt ScanResultRow.t :=
  fun now d =>
    if negb (opt_varchar_ok 255 threat_name
             && opt_varchar_ok 100 threat_category
             && opt_varchar_ok 50 scanner_version
             && opt_varchar_ok 50 definition_version)
    then pg_error "value too long for type character varying"
    else if negb (int4_ok scan_duration_ms)
    then pg_error "integer out of range"
    else if bool_decide (id ∈ List.map ScanResultRow.id (scan_results d))
    then pg_error "duplicate key value violates unique constraint"
    else
      match jobs d !! job_id with
      | None => pg_error "insert violates foreign key constraint"
      | Some _ =>
          let row :=
            {| ScanResultRow.id := id;
               ScanResultRow.job_id := job_id;
               ScanResultRow.result := result;
               ScanResultRow.is_infected := is_infected;
               ScanResultRow.threat_name := threat_name;
               ScanResultRow.threat_category := threat_category;
               ScanResultRow.threat_description := threat_description;
               ScanResultRow.scanner_version := scanner_version;
               ScanResultRow.definition_version := definition_version;
               ScanResultRow.scan_duration_ms := scan_duration_ms;
               ScanResultRow.scanned_at := now |} in
          Ok ([row], set_scan_results (scan_results d ++ [row]) d)
      end.

(** [SELECT * FROM scan_results WHERE job_id = $1]. *)
Definition sql_select_scan_results (job_id : string) : Stmt ScanResultRow.t :=
  fun _ d =>
    Ok (List.filter (fun r => String.eqb (ScanResultRow.job_id r) job_id)
                    (scan_results d), d).

(** Insertion sort, used for [ORDER BY]; stable. *)
Fixpoint insert_by {A} (before : A -> A -> bool) (x : A) (l : list A)
  : list A :=
  match l with
  | [] => [x]
  | y :: rest =>
      if before y x then y :: insert_by before x rest else x :: y :: rest
  end.

Definition order_by {A} (before : A -> A -> bool) (l : list A) : list A :=
  List.fold_right (insert_by before) [] l.

(** [LIMIT $1]. *)
Definition sql_limit {A} (limit : Z) (rows : list A) : Result (list A) :=
  if limit <? 0 then pg_error "LIMIT must not be negative"
  else Ok (List.firstn (Z.to_nat limit) rows).

Definition table_rows (d : Db) : list JobRow.t :=
  List.map snd (map_to_list (jobs d)).

(** [ORDER BY priority DESC, created_at ASC]: [a] may precede [b]. *)
Definition pending_before (a b : JobRow.t) : bool :=
  (JobRow.priority b <? JobRow.priority a)
  || ((JobRow.priority a =? JobRow.priority b)
      && (JobRow.created_at a <=? JobRow.created_at b)).

(** [SELECT * FROM jobs WHERE status = 'pending'
     ORDER BY priority DESC, created_at ASC LIMIT $1]. *)
Definition sql_select_pending (limit : Z) : Stmt JobRow.t :=
  fun _ d =>
    match sql_limit limit
            (order_by pending_before
               (List.filter (fun r => bool_decide (JobRow.status r = PENDING))
                            (table_rows d))) with
    | Ok rows => Ok (rows, d)
    | Throw e => Throw e
    end.

(** [WHERE status = 'failed' AND attempts < max_attempts]. *)
Definition retryable (r : JobRow.t) : bool :=
  bool_decide (JobRow.status r = FAILED)
  && (JobRow.attempts r <? JobRow.max_attempts r).

(** [SELECT * FROM jobs WHERE status = 'failed' AND attempts < max_attempts
     ORDER BY updated_at ASC LIMIT $1]. *)
Definition sql_select_retryable (limit : Z) : Stmt JobRow.t :=
  fun _ d =>
    match sql_limit limit
            (order_by (fun a b => JobRow.updated_at a <=? JobRow.updated_at b)
               (List.filter retryable (table_rows d))) with
    | Ok rows => Ok (rows, d)
    | Throw e => Throw e
    end.

(* ===================================================================== *)
(** * 8. db/client.ts                                                    *)
(* ===================================================================== *)

(** [pool.query(text, params)]: one statement in its own transaction. *)
Definition pool_query {R} (stmt : Stmt R) : M (list R) :=
  io "Connection terminated unexpectedly" ;;;
  fun w =>
    match stmt (now w) (db w) with
    | Ok (rows, d) => (Ok rows, set_db d w)
    | Throw e => (Throw e, w)
    end.

(** [query]: any driver error is replaced by a [DatabaseError]. *)
Definition query {R} (stmt : Stmt R) : M (list R) :=
  try_catch (pool_query stmt)
            (fun _ => throw (DatabaseError "Database query failed")).

(** [queryOne]: [result.rows[0] ?? null]. *)
Definition queryOne {R} (stmt : Stmt R) : M (option R) :=
  rows <- query stmt ;;
  ret (List.head rows).

(** [getClient]: [pool.connect()]. *)
Definition getClient : M unit :=
  io "Connection terminated unexpectedly".

(** [client.query(text, params)] on the checked-out client: inside an open
    transaction the statement works on the transaction's copy, which no
    other connection sees. *)
Definition client_query {R} (stmt : Stmt R) : M (list R) :=
  io "Connection terminated unexpectedly" ;;;
  fun w =>
    match txn w with
    | Some t =>
        match stmt (now w) t with
        | Ok (rows, t') => (Ok rows, set_txn (Some t') w)
        | Throw e => (Throw e, w)
        end
    | None =>
        match stmt (now w) (db w) with
        | Ok (rows, d) => (Ok rows, set_db d w)
        | Throw e => (Throw e, w)
        end
    end.

(** [client.query('BEGIN')]. *)
Definition client_BEGIN : M unit :=
  io "Connection terminated unexpectedly" ;;;
  modify (fun w => set_txn (Some (db w)) w).

(** [client.query('COMMIT')]. *)
Definition client_COMMIT : M unit :=
  io "Connection terminated unexpectedly" ;;;
  modify (fun w =>
            match txn w with
            | Some t => set_txn None (set_db t w)
            | None => w
            end).

(** [client.query('ROLLBACK')]. *)
Definition client_ROLLBACK : M unit :=
  io "Connection terminated unexpectedly" ;;;
  modify (set_txn None).

(** [client.release()]; a transaction left open on the client is never
    committed. *)
Definition client_release (w : World) : World := set_txn None w.

Definition withTransaction {T} (fn : M T) : M T :=
  getClient ;;;
  try_finally
    (try_catch
       (client_BEGIN ;;;
        result <- fn ;;
        client_COMMIT ;;;
        ret result)
       (fun error =>
          client_ROLLBACK ;;;
          throw error))
    client_release.

(* ===================================================================== *)
(** * 9. services/job.service.ts                                         *)
(* ===================================================================== *)

(** [mapRowToJob(result.rows[0]!)]: reading a property of [undefined]
    throws a [TypeError]. *)
Definition first_row {R} (rows : list R) : M R :=
  match rows with
  | r :: _ => ret r
  | [] => throw (JsError "Cannot read properties of undefined")
  end.

Definition createJob (input : CreateJobInput.t) : M Job.t :=
  id <- uuidv4 ;;
  result <- query (sql_insert_job id
                     (CreateJobInput.originalFilename input)
                     (CreateJobInput.storedFilename input)
                     (CreateJobInput.filePath input)
                     (CreateJobInput.fileSize input)
                     (CreateJobInput.mimeType input)
                     (CreateJobInput.checksum input)
                     (nullish (CreateJobInput.priority input) 0)) ;;
  row <- first_row result ;;
  ret (mapRowToJob row).

Definition getJobById (jobId : string) : M (option Job.t) :=
  row <- queryOne (sql_select_job jobId) ;;
  ret (option_map mapRowToJob row).

Definition getJobByIdOrThrow (jobId : string) : M Job.t :=
  job <- getJobById jobId ;;
  match job with
  | None => throw (NotFoundError "Job" jobId)
  | Some job => ret job
  end.

(** The [updates] array assembled by [updateJobStatus]. *)
Definition status_updates (status : JobStatus) (errorMessage : option string)
  : list SetClause :=
  [SetStatus status]
  ++ (if bool_decide (status = PROCESSING)
      then [SetStartedAtNow; IncAttempts] else [])
  ++ (if bool_decide (status = COMPLETED) || bool_decide (status = FAILED)
      then [SetCompletedAtNow] else [])
  ++ (match errorMessage with
      | Some m => [SetErrorMessage m]
      | None => []
      end).

Definition updateJobStatus (jobId : string) (status : JobStatus)
    (errorMessage : option string) : M Job.t :=
  result <- query (sql_update_job (status_updates status errorMessage) jobId) ;;
  if (Z.of_nat (List.length result) =? 0)
  then throw (NotFoundError "Job" jobId)
  else
    row <- first_row result ;;
    ret (mapRowToJob row).

Definition getPendingJobs (limit : Z) : M (list Job.t) :=
  result <- query (sql_select_pending limit) ;;
  ret (List.map mapRowToJob result).

Definition getRetryableJobs (limit : Z) : M (list Job.t) :=
  result <- query (sql_select_retryable limit) ;;
  ret (List.map mapRowToJob result).

Definition saveScanResult (jobId : string) (resultData : ResultData.t)
  : M ScanResult.t :=
  id <- uuidv4 ;;
  result <- query (sql_insert_scan_result id jobId
                     (ResultData.result resultData)
                     (ResultData.isInfected resultData)
                     (ResultData.threatName resultData)
                     (ResultData.threatCategory resultData)
                     (ResultData.threatDescription resultData)
                     (ResultData.scannerVersion resultData)
                     (ResultData.definitionVersion resultData)
                     (ResultData.scanDurationMs resultData)) ;;
  row <- first_row result ;;
  ret (mapRowToScanResult row).

Definition getScanResultByJobId (jobId : string) : M (option ScanResult.t) :=
  row <- queryOne (sql_select_scan_results jobId) ;;
  ret (option_map mapRowToScanResult row).

(** The argument of [completeJobWithResult]. *)
Module Completion.
Record t := mk {
  result : ScanResultType;
  isInfected : bool;
  threatName : option string;
  scanDurationMs : Z;
}.
End Completion.

(** The callback [completeJobWithResult] passes to [withTransaction]. *)
Definition completion_txn (jobId : string) (scanResult : Completion.t)
  : M unit :=
  id <- uuidv4 ;;
  client_query (sql_insert_scan_result id jobId
                  (Completion.result scanResult)
                  (Completion.isInfected scanResult)
                  (Completion.threatName scanResult)
                  None None None None
                  (Completion.scanDurationMs scanResult)) ;;;
  client_query (sql_update_job [SetStatus COMPLETED; SetCompletedAtNow]
                               jobId) ;;;
  ret tt.

Definition completeJobWithResult (jobId : string) (scanResult : Completion.t)
  : M unit :=
  withTransaction (completion_txn jobId scanResult).

(* ===================================================================== *)
(** * 10. services/storage.service.ts                                    *)
(* ===================================================================== *)

(** A synchronous call that may throw, run inside an [async] function. *)
Definition lift {A} (r : Result A) : M A := fun w => (r, w).

(** [fs.access(path)]. *)
Definition fs_access (p : string) : M unit :=
  io "EIO: i/o error" ;;;
  w <- get_world ;;
  match fs w !! p with
  | Some _ => ret tt
  | None => throw (JsError "ENOENT: no such file or directory")
  end.

(** [fs.unlink(path)]. *)
Definition fs_unlink (p : string) : M unit :=
  io "EIO: i/o error" ;;;
  w <- get_world ;;
  match fs w !! p with
  | Some _ => modify (fun w => set_fs (delete p (fs w)) w)
  | None => throw (JsError "ENOENT: no such file or directory")
  end.

Definition fileExists (storedFilename : string) : M bool :=
  try_catch
    (w <- get_world ;;
     p <- lift (getFilePath (cwd w) (uploadDir w) storedFilename) ;;
     fs_access p ;;;
     ret true)
    (fun _ => ret false).

Definition deleteFile (storedFilename : string) : M unit :=
  try_catch
    (w <- get_world ;;
     filePath <- lift (getFilePath (cwd w) (uploadDir w) storedFilename) ;;
     fs_unlink filePath)
    (fun _ => throw (StorageError "Failed to delete file")).

Module StoredFile.
Record t := mk {
  storedFilename : string;
  filePath : string;
  fileSize : Z;
  checksum : string;
}.
End StoredFile.

(* ===================================================================== *)
(** * 11. services/scanner.service.ts                                    *)
(* ===================================================================== *)

(** [s.includes(sub)]. *)
Fixpoint includes (s sub : string) : bool :=
  startsWith s sub ||
  match s with
  | EmptyString => false
  | String _ t => includes t sub
  end.

(** [doInitScanner]: connect to the daemon and cache the client; any failure
    surfaces as [ScannerUnavailableError]. *)
Definition doInitScanner : M unit :=
  try_catch
    (io "connect ECONNREFUSED" ;;;
     modify (set_clamScanner true))
    (fun _ => throw ScannerUnavailableError).

(** [initScanner]; [initPromise] is only observable while an initialisation
    is in flight, which a sequential caller never sees. *)
Definition initScanner : M unit :=
  w <- get_world ;;
  if clamScanner w then ret tt else doInitScanner.

(** [clamScanner.scanFile(filePath)]: the daemon's next scripted answer; an
    exhausted script refuses the connection. *)
Definition clam_scanFile (filePath : string) : M (bool * list string * Z) :=
  fun w =>
    let w := set_scans (scans w ++ [filePath]) w in
    match clamd w with
    | ClamVerdict isInfected viruses elapsedMs :: rest =>
        (Ok (isInfected, viruses, elapsedMs), set_clamd rest w)
    | ClamThrows m :: rest => (Throw (JsError m), set_clamd rest w)
    | [] => (Throw (JsError "connect ECONNREFUSED"), w)
    end.

Definition scanFile (filePath : string) : M ClamScanResult.t :=
  w <- get_world ;;
  (if clamScanner w then ret tt else initScanner) ;;;
  try_catch
    (result <- clam_scanFile filePath ;;
     let '(isInfected, viruses, scanDurationMs) := result in
     ret {| ClamScanResult.isInfected := isInfected;
            ClamScanResult.viruses := viruses;
            ClamScanResult.scannedFiles := 1;
            ClamScanResult.scanDurationMs := scanDurationMs;
            ClamScanResult.error := None |})
    (fun error =>
       if includes (message_of error) "ECONNREFUSED" then
         modify (set_clamScanner false) ;;;
         throw ScannerUnavailableError
       else throw (ScannerError "Failed to scan file")).

(* ===================================================================== *)
(** * 12. services/queue.service.ts and the queue's delivery order       *)
(* ===================================================================== *)

(** [scanQueue.add(name, data, { priority, delay, jobId })] with the queue's
    [defaultJobOptions] ([attempts: 3]).  An entry whose id is already in
    the queue is returned as it is. *)
Definition scanQueue_add (name : string) (data : ScanJobPayload.t)
    (priority delay : Z) (jobId : string) : M BullJob :=
  io "Connection is closed." ;;;
  fun w =>
    match List.find (fun j => String.eqb (bj_id j) jobId) (queue w) with
    | Some j => (Ok j, w)
    | None =>
        let j := mkBullJob jobId name data priority delay (now w) 0 3 in
        (Ok j, set_queue (queue w ++ [j]) w)
    end.

Definition enqueueScanJob (jobId filePath : string)
    (priority delay : option Z) : M string :=
  try_catch
    (let payload :=
       {| ScanJobPayload.jobId := jobId;
          ScanJobPayload.filePath := filePath;
          ScanJobPayload.attempt := 1 |} in
     job <- scanQueue_add "scan-file" payload
              (nullish priority 0) (nullish delay 0) jobId ;;
     ret (bj_id job))
    (fun _ => throw (QueueError "Failed to add job to queue")).

(** An entry may be delivered once its delay has elapsed. *)
Definition bull_eligible (t : Timestamp) (j : BullJob) : bool :=
  bj_timestamp j + bj_delay j <=? t.

(** The delivery order of the queue library, as its documentation states
    it: priorities range from 1 to 2 097 152 and a lower number is a higher
    priority; entries added without a priority (0) are served before any
    prioritized entry; within one priority the order is first in, first
    out.  [bull_overtakes a b] tells whether [a], inserted after [b], is
    nevertheless served before it. *)
Definition bull_overtakes (a b : BullJob) : bool :=
  if bj_priority a =? 0 then negb (bj_priority b =? 0)
  else if bj_priority b =? 0 then false
  else bj_priority a <? bj_priority b.

(** The entry the next free worker receives. *)
Definition bull_next (t : Timestamp) (q : list BullJob) : option BullJob :=
  List.fold_left
    (fun best j =>
       if bull_eligible t j then
         match best with
         | None => Some j
         | Some b => if bull_overtakes j b then Some j else Some b
         end
       else best)
    q None.

(* ===================================================================== *)
(** * 13. workers/scan.worker.ts                                         *)
(* ===================================================================== *)

Definition processScanJob (job : BullJob) : M unit :=
  let jobId := ScanJobPayload.jobId (bj_data job) in
  let filePath := ScanJobPayload.filePath (bj_data job) in
  try_catch
    (updateJobStatus jobId PROCESSING None ;;;
     let filename := basename filePath in
     fileExists <- fileExists filename ;;
     if negb fileExists then
       throw (JsError ("File not found: " +:+ filePath))
     else
       initScanner ;;;
       scanResult <- scanFile filePath ;;
       let resultType :=
         match ClamScanResult.error scanResult with
         | Some _ => ERROR
         | None =>
             if ClamScanResult.isInfected scanResult then INFECTED else CLEAN
         end in
       completeJobWithResult jobId
         {| Completion.result := resultType;
            Completion.isInfected := ClamScanResult.isInfected scanResult;
            Completion.threatName :=
              List.head (ClamScanResult.viruses scanResult);
            Completion.scanDurationMs :=
              ClamScanResult.scanDurationMs scanResult |})
    (fun error =>
       let errorMessage := message_of error in
       updateJobStatus jobId FAILED (Some errorMessage) ;;;
       throw error).

(* ===================================================================== *)
(** * 14. api/routes/scan.ts: POST /scan after the upload is stored      *)
(* ===================================================================== *)

(** The fields of multer's file object the handler reads. *)
Module UploadedFile.
Record t := mk {
  originalname : string;
  mimetype : string;
  size : Z;
  path : string;
}.
End UploadedFile.

(** The body of the 202 response. *)
Module ScanUploadResponse.
Record t := mk {
  jobId : string;
  filename : string;
  fileSize : Z;
  status : JobStatus;
}.
End ScanUploadResponse.

(** The handler from the point where [saveFile] has returned [storedFile]
    and [priority] has been parsed: job creation and enqueueing inside the
    [try], the file clean-up in the [catch], then the response. *)
Definition postScan (file : UploadedFile.t) (storedFile : StoredFile.t)
    (priority : Z) : M ScanUploadResponse.t :=
  job <- try_catch
           (job <- createJob
                     {| CreateJobInput.originalFilename :=
                          Some (UploadedFile.originalname file);
                        CreateJobInput.storedFilename :=
                          Some (StoredFile.storedFilename storedFile);
                        CreateJobInput.filePath :=
                          Some (StoredFile.filePath storedFile);
                        CreateJobInput.fileSize :=
                          Some (StoredFile.fileSize storedFile);
                        CreateJobInput.mimeType :=
                          Some (UploadedFile.mimetype file);
                        CreateJobInput.checksum :=
                          Some (StoredFile.checksum storedFile);
                        CreateJobInput.priority :=
                          Some (Z.min (Z.max priority 0) 10) |} ;;
            enqueueScanJob (Job.id job) (StoredFile.filePath storedFile)
                           (Some (Job.priority job)) None ;;;
            ret job)
           (fun error =>
              try_catch
                (deleteFile (StoredFile.storedFilename storedFile))
                (fun cleanupError => ret tt) ;;;
              throw error) ;;
  ret {| ScanUploadResponse.jobId := Job.id job;
         ScanUploadResponse.filename := Job.originalFilename job;
         ScanUploadResponse.fileSize := Job.fileSize job;
         ScanUploadResponse.status := Job.status job |}.

(* ===================================================================== *)
(** * 15. Runs of the system                                             *)
(* ===================================================================== *)

(** The operations that change the store, and a move of the environment
    (the clock, the fault script, the files on disk and the daemon's
    script change; the database does not). *)
Inductive Op :=
  | OpCreateJob (input : CreateJobInput.t)
  | OpUpdateJobStatus (jobId : string) (status : JobStatus)
                      (errorMessage : option string)
  | OpCompleteJobWithResult (jobId : string) (scanResult : Completion.t)
  | OpSaveScanResult (jobId : string) (resultData : ResultData.t)
  | OpProcessScanJob (job : BullJob)
  | OpEnv (t : Timestamp) (script : list bool) (files : gmap string File)
          (daemon : list ClamReply).

Definition run_op (op : Op) (w : World) : World :=
  match op with
  | OpCreateJob input => snd (createJob input w)
  | OpUpdateJobStatus jobId status errorMessage =>
      snd (updateJobStatus jobId status errorMessage w)
  | OpCompleteJobWithResult jobId scanResult =>
      snd (completeJobWithResult jobId scanResult w)
  | OpSaveScanResult jobId resultData =>
      snd (saveScanResult jobId resultData w)
  | OpProcessScanJob job => snd (processScanJob job w)
  | OpEnv t script files daemon =>
      set_now t (set_faults script (set_fs files (set_clamd daemon w)))
  end.

Definition run_ops (ops : list Op) (w : World) : World :=
  List.fold_left (fun w op => run_op op w) ops w.

(** A world before anything happened: empty tables, empty queue, no open
    transaction, no scanner client. *)
Definition initial_world (t : Timestamp) (ids : nat -> string)
    (dir upload : string) : World :=
  {| db := mkDb ∅ [];
     txn := None;
     now := t;
     faults := [];
     entropy := ids;
     drawn := 0%nat;
     fs := ∅;
     queue := [];
     clamScanner := false;
     clamd := [];
     scans := [];
     cwd := dir;
     uploadDir := upload |}.

(** The number of [scan_results] rows of a job. *)
Definition result_count (jobId : string) (d : Db) : nat :=
  List.length (List.filter
                 (fun r => String.eqb (ScanResultRow.job_id r) jobId)
                 (scan_results d)).

(** What committed statements did to the store, as events. *)
Inductive DbEvent :=
  | EvInsertJob (id : string)
  | EvUpdate (id : string) (status : JobStatus) (errorMessage : option string)
  | EvInsertResult (jobId : string)
  | EvComplete (jobId : string).

Inductive db_step : DbEvent -> Db -> Db -> Prop :=
  | step_insert_job id ofn sfn fp fsz mt cs pr t d row d' :
      sql_insert_job id ofn sfn fp fsz mt cs pr t d = Ok ([row], d') ->
      db_step (EvInsertJob id) d d'
  | step_update id status errorMessage t d row d' :
      sql_update_job (status_updates status errorMessage) id t d
        = Ok ([row], d') ->
      db_step (EvUpdate id status errorMessage) d d'
  | step_insert_result id jobId res inf tn tc td sv dv ms t d row d' :
      sql_insert_scan_result id jobId res inf tn tc td sv dv ms t d
        = Ok ([row], d') ->
      db_step (EvInsertResult jobId) d d'
  | step_complete id jobId res inf tn ms t d row1 d1 row2 d' :
      sql_insert_scan_result id jobId res inf tn None None None None ms t d
        = Ok ([row1], d1) ->
      sql_update_job [SetStatus COMPLETED; SetCompletedAtNow] jobId t d1
        = Ok ([row2], d') ->
      db_step (EvComplete jobId) d d'.

Inductive db_steps : list DbEvent -> Db -> Db -> Prop :=
  | steps_nil d : db_steps [] d d
  | steps_cons ev tr d1 d2 d3 :
      db_step ev d1 d2 -> db_steps tr d2 d3 -> db_steps (ev :: tr) d1 d3.

(** A computation started outside a transaction ends outside one, and its
    committed effect is a sequence of events accepted by [L]. *)
Definition evolves {A} (L : list DbEvent -> Prop) (m : M A) : Prop :=
  forall w, txn w = None ->
    txn (snd (m w)) = None /\
    exists tr, L tr /\ db_steps tr (db w) (db (snd (m w))).

(** Transitions of job [jid] into [processing] in a trace. *)
Definition is_processing_of (jid : string) (ev : DbEvent) : bool :=
  match ev with
  | EvUpdate id PROCESSING _ => String.eqb id jid
  | _ => false
  end.

Definition processing_count (jid : string) (tr : list DbEvent) : nat :=
  List.length (List.filter (is_processing_of jid) tr).

(** Requests to move job [jid] into [processing] among operations. *)
Definition requests_processing (jid : string) (op : Op) : nat :=
  match op with
  | OpUpdateJobStatus id PROCESSING _ => if String.eqb id jid then 1 else 0
  | OpProcessScanJob job =>
      if String.eqb (ScanJobPayload.jobId (bj_data job)) jid then 1 else 0
  | _ => 0
  end.

Definition processing_requests (jid : string) (ops : list Op) : nat :=
  List.fold_right (fun op n => (requests_processing jid op + n)%nat) 0%nat ops.

(** Events that set a job to [completed] without storing a result. *)
Definition bare_completion (ev : DbEvent) : bool :=
  match ev with
  | EvUpdate _ COMPLETED _ => true
  | _ => false
  end.

Definition op_bare_completion (op : Op) : bool :=
  match op with
  | OpUpdateJobStatus _ COMPLETED _ => true
  | _ => false
  end.

(** Traces with events accepted by [P] and at most [n] transitions of job
    [jid] into [processing]. *)
Definition Lang (P : DbEvent -> Prop) (jid : string) (n : nat)
    (tr : list DbEvent) : Prop :=
  Forall P tr /\ (processing_count jid tr <= n)%nat.

(** [m] relates every world to the world it leaves behind by [R]. *)
Definition preserves {A} (R : World -> World -> Prop) (m : M A) : Prop :=
  forall w, R w (snd (m w)).

(** The committed store and the transaction state are the same. *)
Definition same_store (w w' : World) : Prop :=
  db w' = db w /\ txn w' = txn w.

(** Everything but the store, the fault script and the identifier supply is
    the same. *)
Definition same_env (w w' : World) : Prop :=
  now w' = now w /\ fs w' = fs w /\ queue w' = queue w /\
  clamScanner w' = clamScanner w /\ clamd w' = clamd w /\
  scans w' = scans w /\ cwd w' = cwd w /\ uploadDir w' = uploadDir w.

(** A callback that works inside the transaction it is given: it leaves the
    committed store and the environment alone and, when it returns, the
    transaction is still open. *)
Definition txn_local {T} (fn : M T) : Prop :=
  forall w t, txn w = Some t ->
    db (snd (fn w)) = db w /\ same_env w (snd (fn w)) /\
    (forall a, fst (fn w) = Ok a -> is_Some (txn (snd (fn w)))).

(** The events an operation may commit are all accepted by [P]. *)
Definition op_events_ok (P : DbEvent -> Prop) (op : Op) : Prop :=
  match op with
  | OpCreateJob _ => forall id, P (EvInsertJob id)
  | OpUpdateJobStatus id status errorMessage =>
      P (EvUpdate id status errorMessage)
  | OpCompleteJobWithResult id _ => P (EvComplete id)
  | OpSaveScanResult id _ => P (EvInsertResult id)
  | OpProcessScanJob job =>
      let id := ScanJobPayload.jobId (bj_data job) in
      P (EvUpdate id PROCESSING None) /\
      (forall m, P (EvUpdate id FAILED (Some m))) /\
      P (EvComplete id)
  | OpEnv _ _ _ _ => True
  end.

(** Every completed job has a result row, and every result row belongs to
    a job. *)
Definition store_ok (d : Db) : Prop :=
  (forall id r, jobs d !! id = Some r -> JobRow.status r = COMPLETED ->
                (0 < result_count id d)%nat) /\
  (forall row, In row (scan_results d) ->
               is_Some (jobs d !! ScanResultRow.job_id row)).

(** The scan results are the same. *)
Definition same_results (w w' : World) : Prop :=
  scan_results (db w') = scan_results (db w).

(* ===================================================================== *)
(** * 16. Properties under test and a concrete deployment                *)
(* ===================================================================== *)

(** [attempts <= maxAttempts] for every job. *)
Definition attempts_invariant (d : Db) : Prop :=
  forall id r, jobs d !! id = Some r ->
               JobRow.attempts r <= JobRow.max_attempts r.

(** A job is completed exactly when it has one result row. *)
Definition completed_iff_one_result (d : Db) : Prop :=
  forall id r, jobs d !! id = Some r ->
               (JobRow.status r = COMPLETED <-> result_count id d = 1%nat).

(** [completedAt] is set on a failed job only when its attempts are
    exhausted. *)
Definition completedAt_only_when_exhausted (r : JobRow.t) : Prop :=
  JobRow.status r = FAILED -> JobRow.completed_at r <> None ->
  JobRow.max_attempts r <= JobRow.attempts r.

(** A required property of the input is [undefined]. *)
Definition required_missing (input : CreateJobInput.t) : bool :=
  match CreateJobInput.originalFilename input,
        CreateJobInput.storedFilename input,
        CreateJobInput.filePath input,
        CreateJobInput.fileSize input with
  | Some _, Some _, Some _, Some _ => false
  | _, _, _, _ => true
  end.

(** The input satisfies the column types of table [jobs]. *)
Definition insert_acceptable (input : CreateJobInput.t) : bool :=
  match CreateJobInput.originalFilename input,
        CreateJobInput.storedFilename input,
        CreateJobInput.filePath input,
        CreateJobInput.fileSize input with
  | Some ofn, Some sfn, Some fp, Some fsz =>
      varchar_ok 255 ofn && varchar_ok 255 sfn && varchar_ok 500 fp
      && opt_varchar_ok 100 (CreateJobInput.mimeType input)
      && opt_varchar_ok 64 (CreateJobInput.checksum input)
      && int8_ok fsz
      && int4_ok (nullish (CreateJobInput.priority input) 0)
  | _, _, _, _ => false
  end.

(** The referenced file is not in storage: whatever path [getFilePath]
    gives for its base name, no file is there. *)
Definition file_missing (filePath : string) (w : World) : Prop :=
  forall p, getFilePath (cwd w) (uploadDir w) (basename filePath) = Ok p ->
            fs w !! p = None.

(** Identifiers handed out by the generator in the examples. *)
Definition sample_ids (n : nat) : string :=
  match n with
  | 0%nat => "job-1"
  | 1%nat => "result-1"
  | 2%nat => "result-2"
  | 3%nat => "job-2"
  | _ => "spare"
  end.

(** A service started in [/app] with [UPLOAD_DIR=./uploads] at time 1000. *)
Definition sample_world : World :=
  initial_world 1000 sample_ids "/app" "./uploads".

Definition sample_input : CreateJobInput.t :=
  {| CreateJobInput.originalFilename := Some "report.pdf";
     CreateJobInput.storedFilename := Some "1000-ab12-report.pdf";
     CreateJobInput.filePath := Some "/app/uploads/1000-ab12-report.pdf";
     CreateJobInput.fileSize := Some 10;
     CreateJobInput.mimeType := Some "application/pdf";
     CreateJobInput.checksum := Some "abc123";
     CreateJobInput.priority := Some 5 |}.

(** The same input without its required [originalFilename]. *)
Definition sample_input_missing : CreateJobInput.t :=
  {| CreateJobInput.originalFilename := None;
     CreateJobInput.storedFilename := Some "1000-ab12-report.pdf";
     CreateJobInput.filePath := Some "/app/uploads/1000-ab12-report.pdf";
     CreateJobInput.fileSize := Some 10;
     CreateJobInput.mimeType := Some "application/pdf";
     CreateJobInput.checksum := Some "abc123";
     CreateJobInput.priority := Some 5 |}.

Definition sample_file : File := mkFile 10 "abc123".

(** The store after [createJob sample_input]: job "job-1" is pending. *)
Definition sample_job_world : World :=
  snd (createJob sample_input sample_world).

(** The row of "job-1" in that store. *)
Definition sample_job_row : JobRow.t :=
  JobRow.mk "job-1" "report.pdf" "1000-ab12-report.pdf"
    "/app/uploads/1000-ab12-report.pdf" 10
    (Some "application/pdf") (Some "abc123") PENDING 5 0 3
    None 1000 1000 None None.

(** The queue entry of "job-1". *)
Definition sample_entry : BullJob :=
  mkBullJob "job-1" "scan-file"
    {| ScanJobPayload.jobId := "job-1";
       ScanJobPayload.filePath := "/app/uploads/1000-ab12-report.pdf";
       ScanJobPayload.attempt := 1 |}
    5 0 1000 0 3.

(** "job-1" is pending, its file is on disk and the daemon will answer
    "clean" twice. *)
Definition sample_scan_world : World :=
  set_clamd [ClamVerdict false [] 12; ClamVerdict false [] 12]
    (set_fs {[ "/app/uploads/1000-ab12-report.pdf" := sample_file ]}
            sample_job_world).

(** "job-1" is pending and its file is on disk; the database answers, the
    file system answers, and the scanner daemon cannot be reached. *)
Definition sample_unavailable_world : World :=
  set_faults [false; false; true]
    (set_fs {[ "/app/uploads/1000-ab12-report.pdf" := sample_file ]}
            sample_job_world).

Definition sample_completion : Completion.t :=
  {| Completion.result := CLEAN;
     Completion.isInfected := false;
     Completion.threatName := None;
     Completion.scanDurationMs := 12 |}.

(** An upload whose file was stored, in a world where the database answers
    and the queue is unreachable. *)
Definition sample_upload : UploadedFile.t :=
  {| UploadedFile.originalname := "report.pdf";
     UploadedFile.mimetype := "application/pdf";
     UploadedFile.size := 10;
     UploadedFile.path := "/tmp/upload_1" |}.

Definition sample_stored : StoredFile.t :=
  {| StoredFile.storedFilename := "1000-ab12-report.pdf";
     StoredFile.filePath := "/app/uploads/1000-ab12-report.pdf";
     StoredFile.fileSize := 10;
     StoredFile.checksum := "abc123" |}.

Definition sample_upload_world : World :=
  set_faults [false; true]
    (set_fs {[ "/app/uploads/1000-ab12-report.pdf" := sample_file ]}
            sample_world).

(** Two uploads submitted at the same time: A with priority 5, then B with
    priority 1. *)
Definition priority_ids (n : nat) : string :=
  match n with
  | 0%nat => "job-A"
  | 1%nat => "job-B"
  | _ => "spare"
  end.

Definition upload_A : UploadedFile.t :=
  {| UploadedFile.originalname := "a.bin";
     UploadedFile.mimetype := "application/octet-stream";
     UploadedFile.size := 10;
     UploadedFile.path := "/tmp/upload_a" |}.

Definition stored_A : StoredFile.t :=
  {| StoredFile.storedFilename := "1000-aa-a.bin";
     StoredFile.filePath := "/app/uploads/1000-aa-a.bin";
     StoredFile.fileSize := 10;
     StoredFile.checksum := "aaa" |}.

Definition upload_B : UploadedFile.t :=
  {| UploadedFile.originalname := "b.bin";
     UploadedFile.mimetype := "application/octet-stream";
     UploadedFile.size := 10;
     UploadedFile.path := "/tmp/upload_b" |}.

Definition stored_B : StoredFile.t :=
  {| StoredFile.storedFilename := "1000-bb-b.bin";
     StoredFile.filePath := "/app/uploads/1000-bb-b.bin";
     StoredFile.fileSize := 10;
     StoredFile.checksum := "bbb" |}.

Definition priority_world : World :=
  snd (postScan upload_B stored_B 1
         (snd (postScan upload_A stored_A 5
                 (initial_world 1000 priority_ids "/app" "./uploads")))).

From Stdlib Require Import Sorting.Sorted DecimalString.

(* ===================================================================== *)
(** ** Further properties of the store *)
(* ===================================================================== *)

(** The columns of a job that describe the upload, together with
    [max_attempts] and [created_at]. *)
Definition identity_of (r : JobRow.t) :=
  (JobRow.id r, JobRow.original_filename r, JobRow.stored_filename r,
   JobRow.file_path r, JobRow.file_size r, JobRow.mime_type r,
   JobRow.checksum r, JobRow.priority r, JobRow.max_attempts r,
   JobRow.created_at r).

(** The primary keys: a job is filed under its own [id], and no two result
    rows share an [id]. *)
Definition primary_keys_ok (d : Db) : Prop :=
  (forall id r, jobs d !! id = Some r -> JobRow.id r = id) /\
  NoDup (List.map ScanResultRow.id (scan_results d)).

(** The operations the service itself performs on the store: the upload
    route creates jobs and the worker processes queue entries. *)
Definition pipeline_op (op : Op) : bool :=
  match op with
  | OpCreateJob _ | OpProcessScanJob _ | OpEnv _ _ _ _ => true
  | _ => false
  end.

(** The events those operations commit. *)
Definition pipeline_event (ev : DbEvent) : Prop :=
  match ev with
  | EvInsertJob _ | EvComplete _ => True
  | EvUpdate _ PROCESSING None => True
  | EvUpdate _ FAILED (Some _) => True
  | _ => False
  end.

(** What holds of every job row the pipeline produces. *)
Definition lifecycle_ok (r : JobRow.t) : Prop :=
  0 <= JobRow.attempts r /\
  JobRow.max_attempts r = 3 /\
  JobRow.status r <> CANCELLED /\
  (JobRow.attempts r = 0 <-> JobRow.started_at r = None) /\
  (JobRow.status r = PENDING ->
   JobRow.attempts r = 0 /\ JobRow.completed_at r = None /\
   JobRow.error_message r = None) /\
  (JobRow.status r = PROCESSING -> 1 <= JobRow.attempts r) /\
  (JobRow.status r = COMPLETED \/ JobRow.status r = FAILED ->
   JobRow.completed_at r <> None) /\
  (JobRow.status r = FAILED -> JobRow.error_message r <> None).

(** The row [UPDATE jobs SET ...] of [updateJobStatus] leaves in place of
    [old] at time [t]. *)
Definition updated_row (t : Timestamp) (old : JobRow.t) (status : JobStatus)
    (errorMessage : option string) : JobRow.t :=
  set_updated_at t
    (List.fold_left (apply_set t old) (status_updates status errorMessage) old).

(** A row as [INSERT INTO jobs] creates it. *)
Definition fresh_row (id : string) (t : Timestamp) (row : JobRow.t) : Prop :=
  JobRow.id row = id /\ JobRow.status row = PENDING /\
  JobRow.attempts row = 0 /\ JobRow.max_attempts row = 3 /\
  JobRow.error_message row = None /\ JobRow.started_at row = None /\
  JobRow.completed_at row = None /\
  JobRow.created_at row = t /\ JobRow.updated_at row = t.

(** Every job of [d] is still in [d'], with the same identity. *)
Definition keeps_jobs (d d' : Db) : Prop :=
  forall jid r, jobs d !! jid = Some r ->
    exists r', jobs d' !! jid = Some r' /\ identity_of r' = identity_of r.

(** The result rows of [d] are the first rows of [d'], unchanged. *)
Definition results_extended (d d' : Db) : Prop :=
  exists more, scan_results d' = scan_results d ++ more.

(** "job-1" after a failed first attempt. *)
Definition sample_failed_world : World :=
  run_ops [OpUpdateJobStatus "job-1" PROCESSING None;
           OpUpdateJobStatus "job-1" FAILED (Some "scanner down")]
          sample_job_world.

Definition sample_result_data : ResultData.t :=
  {| ResultData.result := INFECTED;
     ResultData.isInfected := true;
     ResultData.threatName := Some "Eicar-Test-Signature";
     ResultData.threatCategory := None;
     ResultData.threatDescription := None;
     ResultData.scannerVersion := None;
     ResultData.definitionVersion := None;
     ResultData.scanDurationMs := 12 |}.

(* ===================================================================== *)
(** ** storage.service.ts: storing an upload *)
(* ===================================================================== *)

(** The text before and after the last "." of [s], if it has one. *)
Fixpoint split_last_dot (s : string) : option (string * string) :=
  match s with
  | EmptyString => None
  | String c t =>
      match split_last_dot t with
      | Some (pre, suf) => Some (String c pre, suf)
      | None => if Ascii.eqb c "." then Some (EmptyString, t) else None
      end
  end.

(** [path.extname(p)].  Node scans the last component of the path (the
    one [basename] returns) from its end: the extension runs from the last
    "." of the component to its end, and is empty when the component has
    no ".", when its only "." is its first character, or when the
    component is "..". *)
Definition extname (p : string) : string :=
  match split_last_dot (basename p) with
  | None => ""
  | Some (pre, suf) =>
      if String.eqb pre "" then ""
      else if String.eqb pre "." && String.eqb suf "" then ""
      else "." +:+ suf
  end.

(** [s.endsWith(suffix)]. *)
Definition endsWith (s suffix : string) : bool :=
  startsWith (String.rev s) (String.rev suffix).

(** The separators at the end of [p]. *)
Fixpoint trailing_seps (p : string) : string :=
  match p with
  | EmptyString => EmptyString
  | String c t =>
      if isPosixPathSeparator c && String.eqb (trailing_seps t) t
      then String c t
      else trailing_seps t
  end.

(** [path.basename(p, suffix)].  Without a usable suffix it is
    [basename p].  Otherwise Node compares the last component with the
    suffix from the right while it looks for the start of the component:
    a component that ends with the suffix loses it, unless it is the
    suffix; a component that does not match is returned whole; and a
    component shorter than the suffix that matches the end of it is
    returned with the separators that follow it. *)
Definition basename_ext (p suffix : string) : string :=
  if str_nonempty suffix
     && Nat.leb (String.length suffix) (String.length p)
  then
    if String.eqb suffix p then ""
    else
      let b := basename p in
      if endsWith b suffix then
        (if String.eqb b suffix then b
         else String.substring 0 (String.length b - String.length suffix) b)
      else if endsWith suffix b then b +:+ trailing_seps p
      else b
  else basename p.

(** The characters [/[^a-zA-Z0-9_-]/] does not match. *)
Definition is_word_char (c : ascii) : bool :=
  let n := nat_of_ascii c in
  (Nat.leb 97 n && Nat.leb n 122) || (Nat.leb 65 n && Nat.leb n 90)
  || (Nat.leb 48 n && Nat.leb n 57)
  || Ascii.eqb c "_" || Ascii.eqb c "-".

(** [s.replace(/[^a-zA-Z0-9_-]/g, '_')]. *)
Fixpoint replace_unsafe (s : string) : string :=
  match s with
  | EmptyString => EmptyString
  | String c t =>
      String (if is_word_char c then c else "_"%char) (replace_unsafe t)
  end.

(** A number in a template literal: its decimal digits. *)
Definition Z_to_string (z : Z) : string :=
  NilZero.string_of_int (Z.to_int z).

Definition hex_digit (n : nat) : ascii :=
  match String.get n "0123456789abcdef" with
  | Some c => c
  | None => "0"%char
  end.

(** [buffer.toString('hex')]: two lower-case digits for each byte. *)
Fixpoint hex_of_bytes (bytes : list ascii) : string :=
  match bytes with
  | [] => EmptyString
  | b :: rest =>
      String (hex_digit (nat_of_ascii b / 16))
        (String (hex_digit (nat_of_ascii b mod 16)) (hex_of_bytes rest))
  end.

(** [generateStorageFilename]; [timestamp] is what [Date.now()] returned
    and [randomBytes] what [crypto.randomBytes(8)] returned. *)
Definition generateStorageFilename (timestamp : Z) (randomBytes : list ascii)
    (originalFilename : string) : string :=
  let randomHex := hex_of_bytes randomBytes in
  let ext := extname originalFilename in
  let baseName := basename_ext originalFilename ext in
  let sanitized := String.substring 0 50 (replace_unsafe baseName) in
  Z_to_string timestamp +:+ "-" +:+ randomHex +:+ "-" +:+ sanitized +:+ ext.

(** [fs.mkdir(path, { recursive: true })]; directories are not part of
    [fs]. *)
Definition fs_mkdir (p : string) : M unit :=
  io "EACCES: permission denied".

(** [fs.stat(path)] and [fs.readFile(path)]. *)
Definition fs_stat (p : string) : M File :=
  io "EIO: i/o error" ;;;
  w <- get_world ;;
  match fs w !! p with
  | Some f => ret f
  | None => throw (JsError "ENOENT: no such file or directory")
  end.

Definition fs_readFile (p : string) : M File :=
  io "EIO: i/o error" ;;;
  w <- get_world ;;
  match fs w !! p with
  | Some f => ret f
  | None => throw (JsError "ENOENT: no such file or directory")
  end.

(** [fs.rename(oldPath, newPath)]: the file moves, replacing what was at
    [newPath]. *)
Definition fs_rename (oldPath newPath : string) : M unit :=
  io "EXDEV: cross-device link not permitted" ;;;
  w <- get_world ;;
  match fs w !! oldPath with
  | Some f => modify (fun w => set_fs (<[newPath := f]> (delete oldPath (fs w))) w)
  | None => throw (JsError "ENOENT: no such file or directory")
  end.

Definition initStorage : M unit :=
  try_catch
    (w <- get_world ;;
     fs_mkdir (UPLOAD_DIR (cwd w) (uploadDir w)))
    (fun _ => throw (StorageError "Failed to initialize storage directory")).

Definition calculateChecksum (filePath : string) : M string :=
  fileBuffer <- fs_readFile filePath ;;
  ret (f_sha256 fileBuffer).

Definition saveFile (randomBytes : list ascii)
    (tempPath originalFilename : string) : M StoredFile.t :=
  try_catch
    (initStorage ;;;
     w <- get_world ;;
     let storedFilename :=
       generateStorageFilename (now w) randomBytes originalFilename in
     let filePath :=
       path_join [UPLOAD_DIR (cwd w) (uploadDir w); storedFilename] in
     stats <- fs_stat tempPath ;;
     checksum <- calculateChecksum tempPath ;;
     fs_rename tempPath filePath ;;;
     ret {| StoredFile.storedFilename := storedFilename;
            StoredFile.filePath := filePath;
            StoredFile.fileSize := f_size stats;
            StoredFile.checksum := checksum |})
    (fun _ =>
       try_catch (fs_unlink tempPath) (fun _ => ret tt) ;;;
       throw (StorageError "Failed to save uploaded file")).

(** The eight bytes drawn in the examples. *)
Definition sample_bytes : list ascii :=
  List.map ascii_of_nat [171; 18; 0; 255; 16; 32; 48; 64]%nat.

(** The service of the examples with an upload waiting in multer's
    temporary directory. *)
Definition sample_temp_world : World :=
  set_now 1700000000123
    (set_fs {[ "/tmp/upload_1" := sample_file ]} sample_world).

(* ===================================================================== *)
(** ** The request handlers around the services *)
(* ===================================================================== *)

(** White space and line terminators of JavaScript among the code units
    below 256: TAB, LF, VT, FF, CR, space and the no-break space. *)
Definition is_js_space (c : ascii) : bool :=
  let n := nat_of_ascii c in
  (Nat.leb 9 n && Nat.leb n 13) || Nat.eqb n 32 || Nat.eqb n 160.

Fixpoint trimStart (s : string) : string :=
  match s with
  | EmptyString => EmptyString
  | String c t => if is_js_space c then trimStart t else s
  end.

(** [s.trim()]. *)
Definition trim (s : string) : string :=
  String.rev (trimStart (String.rev (trimStart s))).

Definition digit_of (c : ascii) : option Z :=
  let n := nat_of_ascii c in
  if Nat.leb 48 n && Nat.leb n 57 then Some (Z.of_nat (n - 48)) else None.

(** The number written by the leading decimal digits of [s]; [acc] is the
    number read so far, [None] before the first digit. *)
Fixpoint parse_digits (s : string) (acc : option Z) : option Z :=
  match s with
  | EmptyString => acc
  | String c t =>
      match digit_of c with
      | Some d => parse_digits t (Some (10 * nullish acc 0 + d))
      | None => acc
      end
  end.

(** [parseInt(s, 10)]: leading white space is skipped, a sign is read,
    then as many digits as there are; [None] stands for NaN.  The number is
    kept exact; the handlers compare it with small bounds only, for which
    the rounding of large integers does not matter. *)
Definition parseInt (s : string) : option Z :=
  match trimStart s with
  | String "-" t => option_map Z.opp (parse_digits t None)
  | String "+" t => parse_digits t None
  | t => parse_digits t None
  end.

(** [x || fallback] for a number: NaN and 0 are falsy. *)
Definition js_or (x : option Z) (fallback : Z) : Z :=
  match x with
  | Some v => if v =? 0 then fallback else v
  | None => fallback
  end.

Definition QUOTE : string := String (ascii_of_nat 34) EmptyString.

(** POST /scan, whole: [file] is [req.file] as multer left it (absent when
    no file was sent), [priorityField] is [req.body.priority], and
    [randomBytes] is what [crypto.randomBytes(8)] returns inside
    [saveFile]. *)
Definition postScanHandler (randomBytes : list ascii)
    (file : option UploadedFile.t) (priorityField : option string)
  : M ScanUploadResponse.t :=
  match file with
  | None =>
      throw (ValidationError
               ("No file provided. Use " +:+ QUOTE +:+ "file" +:+ QUOTE
                +:+ " as the field name."))
  | Some file =>
      let trimmedFilename := trim (UploadedFile.originalname file) in
      if negb (str_nonempty trimmedFilename)
         || String.eqb trimmedFilename "."
         || String.eqb trimmedFilename ".."
      then throw (ValidationError "Invalid filename provided.")
      else
        let priority := js_or (parseInt (nullish priorityField "0")) 0 in
        storedFile <- saveFile randomBytes (UploadedFile.path file)
                               (UploadedFile.originalname file) ;;
        postScan file storedFile priority
  end.

(** The body of an error response, with its status code. *)
Module ApiError.
Record t := mk {
  statusCode : Z;
  code : ErrorCode;
  message : string;
}.
End ApiError.

(** [errorHandler]; [nodeEnv] is [process.env.NODE_ENV]. *)
Definition errorHandler (nodeEnv : string) (err : Exn) : ApiError.t :=
  match err with
  | AppError message statusCode code =>
      {| ApiError.statusCode := statusCode;
         ApiError.code := code;
         ApiError.message := message |}
  | JsError m =>
      {| ApiError.statusCode := 500;
         ApiError.code := INTERNAL_ERROR;
         ApiError.message :=
           if String.eqb nodeEnv "development" then m
           else "An unexpected error occurred" |}
  end.

(** GET /status/:jobId. *)
Module JobProgress.
Record t := mk {
  stage : string;
  percentage : Z;
  message : string;
}.
End JobProgress.

Module ScanResultSummary.
Record t := mk {
  isInfected : bool;
  threatName : option string;
  scanDurationMs : Z;
}.
End ScanResultSummary.

Module JobStatusResponse.
Record t := mk {
  jobId : string;
  filename : string;
  status : JobStatus;
  progress : JobProgress.t;
  result : option ScanResultSummary.t;
  createdAt : Timestamp;
  startedAt : option Timestamp;
  completedAt : option Timestamp;
}.
End JobStatusResponse.


Definition is_hex (c : ascii) : bool :=
  let n := nat_of_ascii c in
  (Nat.leb 48 n && Nat.leb n 57) || (Nat.leb 97 n && Nat.leb n 102)
  || (Nat.leb 65 n && Nat.leb n 70).

(** [c] is one of the characters of [cs]. *)
Fixpoint one_of (cs : string) (c : ascii) : bool :=
  match cs with
  | EmptyString => false
  | String x t => Ascii.eqb x c || one_of t c
  end.

(** A string matches a sequence of character classes when it has one
    character of each class, in order, and nothing else. *)
Fixpoint matches (classes : list (ascii -> bool)) (s : string) : bool :=
  match classes, s with
  | [], EmptyString => true
  | p :: classes, String c t => p c && matches classes t
  | _, _ => false
  end.

(** [/^[0-9a-f]{8}-[0-9a-f]{4}-[1-5][0-9a-f]{3}-[89ab][0-9a-f]{3}-[0-9a-f]{12}$/i]. *)
Definition isValidUUID (str : string) : bool :=
  matches (List.repeat is_hex 8 ++ [one_of "-"]
           ++ List.repeat is_hex 4 ++ [one_of "-"]
           ++ [one_of "12345"] ++ List.repeat is_hex 3 ++ [one_of "-"]
           ++ [one_of "89abAB"] ++ List.repeat is_hex 3 ++ [one_of "-"]
           ++ List.repeat is_hex 12)
          str.


(** GET /results. *)
Module InfectedFile.
Record t := mk {
  jobId : string;
  filename : string;
  fileSize : Z;
  threatName : option string;
  threatCategory : option string;
  scannedAt : Timestamp;
}.
End InfectedFile.

Definition infected_rows (d : Db) : list ScanResultRow.t :=
  List.filter ScanResultRow.is_infected (scan_results d).

(** [SELECT COUNT( * ) as count FROM scan_results WHERE is_infected = true]. *)
Definition sql_count_infected : Stmt Z :=
  fun _ d => Ok ([Z.of_nat (List.length (infected_rows d))], d).

(** [scan_results sr JOIN jobs j ON sr.job_id = j.id WHERE sr.is_infected];
    table [jobs] is keyed by [id]. *)
Definition infected_joined (d : Db) : list (ScanResultRow.t * JobRow.t) :=
  List.flat_map
    (fun sr =>
       match jobs d !! ScanResultRow.job_id sr with
       | Some j => [(sr, j)]
       | None => []
       end)
    (infected_rows d).

(** [SELECT sr.job_id, j.original_filename, j.file_size, sr.threat_name,
     sr.threat_category, sr.scanned_at FROM ... ORDER BY sr.scanned_at DESC
     LIMIT $1 OFFSET $2]. *)
Definition sql_select_infected (limit offset : Z) : Stmt InfectedFile.t :=
  fun _ d =>
    if negb (int8_ok limit && int8_ok offset)
    then pg_error "value out of range for type bigint"
    else if offset <? 0 then pg_error "OFFSET must not be negative"
    else
      match sql_limit limit
              (List.skipn (Z.to_nat offset)
                 (order_by
                    (fun a b => ScanResultRow.scanned_at (fst b)
                                <=? ScanResultRow.scanned_at (fst a))
                    (infected_joined d))) with
      | Ok rows =>
          Ok (List.map
                (fun '(sr, j) =>
                   {| InfectedFile.jobId := ScanResultRow.job_id sr;
                      InfectedFile.filename := JobRow.original_filename j;
                      InfectedFile.fileSize := JobRow.file_size j;
                      InfectedFile.threatName := ScanResultRow.threat_name sr;
                      InfectedFile.threatCategory :=
                        ScanResultRow.threat_category sr;
                      InfectedFile.scannedAt := ScanResultRow.scanned_at sr |})
                rows, d)
      | Throw e => Throw e
      end.

(** [getInfectedFiles(page, limit)], for whole numbers. *)
Definition getInfectedFiles (page limit : Z)
  : M (list InfectedFile.t * Z) :=
  let offset := (page - 1) * limit in
  countResult <- query sql_count_infected ;;
  let total := nullish (List.head countResult) 0 in
  result <- query (sql_select_infected limit offset) ;;
  ret (result, total).

Module InfectedFilesResponse.
Record t := mk {
  totalInfected : Z;
  files : list InfectedFile.t;
  page : Z;
  limit : Z;
  total : Z;
  totalPages : Z;
}.
End InfectedFilesResponse.

(** [Math.ceil(a / b)] for whole [a] and positive [b]. *)
Definition ceil_div (a b : Z) : Z := (a + b - 1) / b.

(** GET /results; the arguments are [req.query.page] and
    [req.query.limit]. *)
Definition getResults (pageField limitField : option string)
  : M InfectedFilesResponse.t :=
  let page := Z.max (js_or (parseInt (nullish pageField "1")) 1) 1 in
  let limit :=
    Z.min (Z.max (js_or (parseInt (nullish limitField "20")) 20) 1) 100 in
  r <- getInfectedFiles page limit ;;
  let '(files, total) := r in
  let totalPages := ceil_div total limit in
  ret {| InfectedFilesResponse.totalInfected := total;
         InfectedFilesResponse.files := files;
         InfectedFilesResponse.page := page;
         InfectedFilesResponse.limit := limit;
         InfectedFilesResponse.total := total;
         InfectedFilesResponse.totalPages := totalPages |}.

(** An upload of the examples and a well-formed job identifier. *)
Definition sample_uuid : string := "3f2c1a9e-7b4d-4c8a-9e1f-0a1b2c3d4e5f".

Definition sample_uuid_ids (n : nat) : string :=
  match n with
  | 0%nat => sample_uuid
  | _ => "result-id"
  end.

(** The service of the examples handing out [sample_uuid] first, with an
    upload waiting in the temporary directory. *)
Definition sample_request_world : World :=
  set_entropy sample_uuid_ids sample_temp_world.

(* ===================================================================== *)
(** ** api/middleware/upload.ts and the health probes *)
(* ===================================================================== *)

(** [c.toLowerCase()] for a code unit below 256: the letters A to Z and
    the capital letters of Latin-1 (all of 192..222 but the multiplication
    sign) move up by 32. *)
Definition toLowerCase_char (c : ascii) : ascii :=
  let n := nat_of_ascii c in
  if (Nat.leb 65 n && Nat.leb n 90)
     || (Nat.leb 192 n && Nat.leb n 222 && negb (Nat.eqb n 215))
  then ascii_of_nat (n + 32)
  else c.

Fixpoint toLowerCase (s : string) : string :=
  match s with
  | EmptyString => EmptyString
  | String c t => String (toLowerCase_char c) (toLowerCase t)
  end.

Definition ALLOWED_MIME_TYPES : list string :=
  [ "application/pdf";
    "application/msword";
    "application/vnd.openxmlformats-officedocument.wordprocessingml.document";
    "application/vnd.ms-excel";
    "application/vnd.openxmlformats-officedocument.spreadsheetml.sheet";
    "application/vnd.ms-powerpoint";
    "application/vnd.openxmlformats-officedocument.presentationml.presentation";
    "text/plain";
    "text/csv";
    "application/zip";
    "application/x-rar-compressed";
    "application/x-7z-compressed";
    "application/x-tar";
    "application/gzip";
    "image/jpeg";
    "image/png";
    "image/gif";
    "image/webp";
    "image/svg+xml";
    "application/x-msdownload";
    "application/x-executable";
    "application/x-msdos-program";
    "application/javascript";
    "text/javascript";
    "application/x-python";
    "application/octet-stream" ].

Definition BLOCKED_EXTENSIONS : list string := [".lnk"; ".url"].

(** [set.has(s)]. *)
Definition has (set : list string) (s : string) : bool :=
  List.existsb (String.eqb s) set.

(** [fileFilter]: the error passed to the callback, or acceptance. *)
Definition fileFilter (file : UploadedFile.t) : Result bool :=
  let ext := toLowerCase (extname (UploadedFile.originalname file)) in
  if has BLOCKED_EXTENSIONS ext
  then Throw (ValidationError ("File type not allowed: " +:+ ext))
  else if negb (has ALLOWED_MIME_TYPES (UploadedFile.mimetype file))
  then Throw (ValidationError
                ("MIME type not allowed " +:+ UploadedFile.mimetype file))
  else Ok true.





(** "job-1" with one infected result. *)
Definition sample_infected_world : World :=
  snd (saveScanResult "job-1" sample_result_data sample_job_world).

(* ===================================================================== *)
(** * 17. Facts about strings and paths                                  *)
(* ===================================================================== *)

Lemma append_nil_l (s : string) : "" +:+ s = s.
Proof. reflexivity. Qed.

Lemma append_cons (c : ascii) (s t : string) :
  String c s +:+ t = String c (s +:+ t).
Proof. reflexivity. Qed.

Lemma app_empty_r (s : string) : s +:+ "" = s.
Proof.
  induction s as [|c s IH]; [reflexivity | now rewrite append_cons, IH].
Qed.

Lemma app_assoc_str (a b c : string) : (a +:+ b) +:+ c = a +:+ (b +:+ c).
Proof.
  induction a as [|x a IH]; [reflexivity | now rewrite !append_cons, IH].
Qed.

Lemma length_app_str (a b : string) :
  String.length (a +:+ b) = (String.length a + String.length b)%nat.
Proof.
  induction a as [|x a IH]; [reflexivity|].
  rewrite append_cons. simpl. now rewrite IH.
Qed.

Lemma split_sep_cons (s : string) : exists h r, split_sep s = h :: r.
Proof.
  induction s as [|c s [h [r IH]]]; simpl.
  - eauto.
  - destruct (isPosixPathSeparator c); [eauto | rewrite IH; eauto].
Qed.

Lemma split_sep_app (a b : string) :
  split_sep (a +:+ String CHAR_FORWARD_SLASH b) = split_sep a ++ split_sep b.
Proof.
  induction a as [|c a IH]; [reflexivity|].
  rewrite append_cons. simpl.
  destruct (isPosixPathSeparator c).
  - now rewrite IH.
  - rewrite IH. destruct (split_sep_cons a) as [h [r ->]]. reflexivity.
Qed.

Lemma split_sep_no_sep (s : string) : Forall (fun x => no_sep x = true) (split_sep s).
Proof.
  induction s as [|c s IH]; simpl.
  - repeat constructor.
  - destruct (isPosixPathSeparator c) eqn:Hc.
    + constructor; [reflexivity | exact IH].
    + destruct (split_sep s) as [|h r]; simpl.
      * repeat constructor. simpl. now rewrite Hc.
      * inversion IH; subst. constructor; [|assumption].
        simpl. rewrite Hc. assumption.
Qed.

Lemma split_sep_single (s : string) : no_sep s = true -> split_sep s = [s].
Proof.
  induction s as [|c s IH]; simpl; [reflexivity|].
  intros H. apply andb_true_iff in H as [Hc Hs].
  apply negb_true_iff in Hc. rewrite Hc, (IH Hs). reflexivity.
Qed.

Lemma join_sep_cons2 (x y : string) (rest : list string) :
  join_sep (x :: y :: rest) = x +:+ String CHAR_FORWARD_SLASH (join_sep (y :: rest)).
Proof. reflexivity. Qed.

Lemma split_join (segs : list string) :
  Forall (fun x => no_sep x = true) segs -> segs <> [] ->
  split_sep (join_sep segs) = segs.
Proof.
  induction segs as [|x [|y rest] IH]; intros HF Hne.
  - congruence.
  - inversion HF; subst. now apply split_sep_single.
  - rewrite join_sep_cons2, split_sep_app.
    inversion HF; subst.
    rewrite IH by (assumption || discriminate).
    now rewrite split_sep_single.
Qed.

Lemma join_sep_snoc (segs : list string) (x : string) :
  segs <> [] ->
  join_sep (segs ++ [x]) = join_sep segs +:+ String CHAR_FORWARD_SLASH x.
Proof.
  induction segs as [|a [|b rest] IH]; intros Hne.
  - congruence.
  - reflexivity.
  - change ((a :: b :: rest) ++ [x]) with (a :: (b :: rest) ++ [x]).
    change ((b :: rest) ++ [x]) with (b :: rest ++ [x]) at 1.
    rewrite join_sep_cons2.
    change (b :: rest ++ [x]) with ((b :: rest) ++ [x]).
    rewrite IH by discriminate.
    rewrite join_sep_cons2, app_assoc_str. reflexivity.
Qed.

Lemma join_sep_prefix_length (a b : list string) :
  (String.length (join_sep a) <= String.length (join_sep (a ++ b)))%nat.
Proof.
  induction a as [|x [|y rest] IH].
  - simpl. lia.
  - destruct b as [|z b']; simpl; [lia|].
    rewrite length_app_str. lia.
  - change ((x :: y :: rest) ++ b) with (x :: y :: (rest ++ b)).
    rewrite !join_sep_cons2, !length_app_str.
    cbn [String.length].
    change (y :: rest ++ b) with ((y :: rest) ++ b). lia.
Qed.

Lemma startsWith_length (s p : string) :
  startsWith s p = true -> (String.length p <= String.length s)%nat.
Proof.
  revert s; induction p as [|a p IH]; intros [|b s]; simpl; try lia; try discriminate.
  intros H. apply andb_true_iff in H as [_ H]. apply IH in H. lia.
Qed.

Lemma startsWith_app (p s : string) : startsWith (p +:+ s) p = true.
Proof.
  induction p as [|a p IH]; [reflexivity|].
  rewrite append_cons. simpl. rewrite IH. now rewrite Ascii.eqb_refl.
Qed.

Lemma normal_segment_spec (s : string) :
  normal_segment s = true <->
  no_sep s = true /\ s <> "" /\ s <> "." /\ s <> "..".
Proof.
  unfold normal_segment. rewrite !andb_true_iff, !negb_true_iff.
  rewrite !String.eqb_neq. tauto.
Qed.

Lemma normalize_step_empty (a : bool) (stack : list string) :
  normalize_step a stack "" = stack.
Proof. reflexivity. Qed.

Lemma normalize_step_normal (a : bool) (stack : list string) (seg : string) :
  normal_segment seg = true -> normalize_step a stack seg = seg :: stack.
Proof.
  intros H. apply normal_segment_spec in H as (_ & H1 & H2 & H3).
  unfold normalize_step.
  apply String.eqb_neq in H1, H2, H3. now rewrite H1, H2, H3.
Qed.

Lemma fold_normalize_normal (a : bool) (segs stack : list string) :
  Forall (fun x => normal_segment x = true) segs ->
  List.fold_left (normalize_step a) segs stack = List.rev segs ++ stack.
Proof.
  revert stack; induction segs as [|x segs IH]; intros stack HF; simpl.
  - reflexivity.
  - inversion HF; subst.
    rewrite normalize_step_normal by assumption.
    rewrite IH by assumption. now rewrite <- List.app_assoc.
Qed.

Lemma normalize_step_keeps_normal (stack : list string) (seg : string) :
  no_sep seg = true ->
  Forall (fun x => normal_segment x = true) stack ->
  Forall (fun x => normal_segment x = true) (normalize_step false stack seg).
Proof.
  intros Hs HF. unfold normalize_step.
  destruct (String.eqb seg "") eqn:E1; simpl; [assumption|].
  destruct (String.eqb seg ".") eqn:E2; simpl; [assumption|].
  destruct (String.eqb seg "..") eqn:E3.
  - destruct stack as [|top rest]; [constructor|].
    destruct (String.eqb top ".."); [assumption|].
    now inversion HF.
  - constructor; [|assumption].
    apply normal_segment_spec. apply String.eqb_neq in E1, E2, E3. tauto.
Qed.

Lemma fold_normalize_keeps_normal (segs stack : list string) :
  Forall (fun x => no_sep x = true) segs ->
  Forall (fun x => normal_segment x = true) stack ->
  Forall (fun x => normal_segment x = true)
         (List.fold_left (normalize_step false) segs stack).
Proof.
  revert stack; induction segs as [|x segs IH]; intros stack HF HS; simpl.
  - assumption.
  - inversion HF; subst. apply IH; [assumption|].
    now apply normalize_step_keeps_normal.
Qed.

(** With [allowAboveRoot = false] the result consists of ordinary segments
    only. *)
Lemma normalizeString_segments (p : string) :
  exists segs, Forall (fun x => normal_segment x = true) segs /\
               normalizeString p false = join_sep segs.
Proof.
  eexists. split; [|reflexivity].
  apply Forall_rev, fold_normalize_keeps_normal;
    [apply split_sep_no_sep | constructor].
Qed.

Lemma str_nonempty_false (s : string) : str_nonempty s = false -> s = "".
Proof. destruct s; [reflexivity | discriminate]. Qed.

Lemma join_sep_nonempty (segs : list string) :
  Forall (fun x => normal_segment x = true) segs -> segs <> [] ->
  str_nonempty (join_sep segs) = true.
Proof.
  destruct segs as [|x rest]; [congruence|]. intros HF _.
  inversion HF as [|? ? Hx _]; subst.
  apply normal_segment_spec in Hx as (_ & Hx & _).
  destruct x as [|c x]; [congruence|].
  destruct rest; reflexivity.
Qed.

Lemma normal_segments_no_sep (segs : list string) :
  Forall (fun x => normal_segment x = true) segs ->
  Forall (fun x => no_sep x = true) segs.
Proof.
  intros HF. eapply Forall_impl; [exact HF|].
  intros x Hx. now apply normal_segment_spec in Hx.
Qed.

Lemma endsWithSep_app (a s : string) :
  str_nonempty s = true -> endsWithSep (a +:+ s) = endsWithSep s.
Proof.
  intros Hs. induction a as [|c a IH]; [reflexivity|].
  rewrite append_cons.
  destruct (a +:+ s) as [|c' r] eqn:E.
  - destruct a; [|discriminate]. rewrite append_nil_l in E. subst s.
    discriminate.
  - exact IH.
Qed.

Lemma endsWithSep_no_sep (s : string) : no_sep s = true -> endsWithSep s = false.
Proof.
  induction s as [|c s IH]; [reflexivity|]. simpl. intros H.
  apply andb_true_iff in H as [Hc Hs]. apply negb_true_iff in Hc.
  destruct s; [assumption | now apply IH].
Qed.

Lemma endsWithSep_abs (segs : list string) :
  Forall (fun x => normal_segment x = true) segs -> segs <> [] ->
  endsWithSep (abs_path segs) = false.
Proof.
  intros HF Hne. unfold abs_path.
  destruct (exists_last Hne) as [init [x ->]].
  apply Forall_app in HF as [_ Hx]. inversion Hx as [|? ? Hn _]; subst.
  apply normal_segment_spec in Hn as (Hns & Hn & _).
  assert (Hx' : str_nonempty x = true) by (destruct x; [congruence|reflexivity]).
  destruct init as [|y init'].
  - change (String CHAR_FORWARD_SLASH (join_sep ([] ++ [x])))
      with ("/" +:+ x).
    rewrite endsWithSep_app by assumption. now apply endsWithSep_no_sep.
  - rewrite join_sep_snoc by discriminate.
    rewrite <- append_cons, endsWithSep_app by reflexivity.
    change (String CHAR_FORWARD_SLASH x) with ("/" +:+ x).
    rewrite endsWithSep_app by assumption. now apply endsWithSep_no_sep.
Qed.

(** Normalizing an absolute path made of ordinary segments gives them
    back. *)
Lemma fold_abs (a : bool) (segs : list string) :
  Forall (fun x => normal_segment x = true) segs ->
  List.fold_left (normalize_step a) (split_sep (abs_path segs)) []
  = List.rev segs.
Proof.
  intros HF. unfold abs_path. cbn [split_sep].
  change (isPosixPathSeparator CHAR_FORWARD_SLASH) with true. cbv iota.
  cbn [List.fold_left]. rewrite normalize_step_empty.
  destruct segs as [|x rest].
  - reflexivity.
  - rewrite split_join by (auto using normal_segments_no_sep || discriminate).
    rewrite fold_normalize_normal by assumption. apply List.app_nil_r.
Qed.

Lemma fold_abs_then (a : bool) (segs : list string) (name : string) :
  Forall (fun x => normal_segment x = true) segs -> no_sep name = true ->
  List.fold_left (normalize_step a)
    (split_sep (abs_path segs +:+ String CHAR_FORWARD_SLASH name)) []
  = normalize_step a (List.rev segs) name.
Proof.
  intros HF Hn.
  rewrite split_sep_app, List.fold_left_app, fold_abs by assumption.
  now rewrite split_sep_single by assumption.
Qed.

Lemma path_normalize_abs (p : string) :
  isAbsolute p = true -> endsWithSep p = false ->
  path_normalize p = "/" +:+ normalizeString p false.
Proof.
  intros Ha He. unfold path_normalize.
  destruct p as [|c p]; [discriminate|].
  cbn [str_nonempty negb]. cbv iota. rewrite Ha, He. cbn [negb].
  destruct (str_nonempty (normalizeString (String c p) false)) eqn:Eq;
    cbn [negb]; cbv iota.
  - reflexivity.
  - now rewrite (str_nonempty_false _ Eq).
Qed.

Lemma path_resolve_abs (cwd : string) (segs : list string) :
  Forall (fun x => normal_segment x = true) segs ->
  path_resolve cwd [abs_path segs] = abs_path segs.
Proof.
  intros HF. unfold path_resolve. cbn [List.rev List.app resolve_loop].
  unfold abs_path at 1 2. cbn [str_nonempty isAbsolute].
  change (isPosixPathSeparator CHAR_FORWARD_SLASH) with true. cbv iota.
  cbn [negb]. unfold normalizeString.
  change ("/" +:+ "") with (String CHAR_FORWARD_SLASH "").
  rewrite fold_abs_then by (assumption || reflexivity).
  rewrite normalize_step_empty, List.rev_involutive. reflexivity.
Qed.

(** In a process with an absolute working directory [path.resolve] of one
    argument is an absolute path of ordinary segments. *)
Lemma path_resolve_shape (cwd p : string) :
  isAbsolute cwd = true ->
  exists segs, Forall (fun x => normal_segment x = true) segs /\
               path_resolve cwd [p] = abs_path segs.
Proof.
  intros Hc. unfold path_resolve. cbn [List.rev List.app resolve_loop].
  assert (Hne : str_nonempty cwd = true) by (destruct cwd; [discriminate|reflexivity]).
  destruct (str_nonempty p); [destruct (isAbsolute p)|];
    cbn [resolve_loop]; rewrite ?Hne, ?Hc; cbn [negb]; cbv iota;
    match goal with
    | |- context [normalizeString ?x false] =>
        destruct (normalizeString_segments x) as [segs [HF ->]]
    end; exists segs; (split; [assumption | reflexivity]).
Qed.

Lemma basename_no_sep (p : string) : no_sep (basename p) = true.
Proof.
  unfold basename.
  assert (H : Forall (fun x => no_sep x = true)
                (List.filter str_nonempty (split_sep p))).
  { apply List.Forall_forall. intros x Hx. apply List.filter_In in Hx as [Hx _].
    revert x Hx. apply List.Forall_forall, split_sep_no_sep. }
  induction (List.filter str_nonempty (split_sep p)) as [|x [|y l] IH].
  - reflexivity.
  - now inversion H.
  - inversion H; subst. now apply IH.
Qed.

Lemma path_join_upload (segs : list string) (name : string) :
  Forall (fun x => normal_segment x = true) segs -> no_sep name = true ->
  path_join [abs_path segs; name]
  = abs_path (List.rev (normalize_step false (List.rev segs) name)).
Proof.
  intros HF Hn. unfold path_join. cbn [List.filter].
  change (str_nonempty (abs_path segs)) with true. cbv iota.
  destruct name as [|c name].
  - cbn [str_nonempty]. cbv iota. rewrite normalize_step_empty, List.rev_involutive.
    destruct segs as [|x rest]; [reflexivity|].
    cbn [join_sep].
    rewrite path_normalize_abs; [|reflexivity|now apply endsWithSep_abs].
    unfold normalizeString. rewrite fold_abs, List.rev_involutive by assumption.
    reflexivity.
  - cbn [str_nonempty]. cbv iota. cbn [join_sep].
    change ("/" +:+ String c name) with (String CHAR_FORWARD_SLASH (String c name)).
    rewrite path_normalize_abs.
    + unfold normalizeString. now rewrite fold_abs_then.
    + reflexivity.
    + rewrite endsWithSep_app by reflexivity.
      change (String CHAR_FORWARD_SLASH (String c name))
        with ("/" +:+ String c name).
      rewrite endsWithSep_app by reflexivity. now apply endsWithSep_no_sep.
Qed.

Lemma normalize_step_special (segs : list string) (name : string) :
  Forall (fun x => normal_segment x = true) segs ->
  normal_segment name = false -> no_sep name = true ->
  exists t, segs = List.rev (normalize_step false (List.rev segs) name) ++ t.
Proof.
  intros HF Hn Hs. unfold normalize_step.
  destruct (String.eqb name "" || String.eqb name ".") eqn:E1.
  - exists []. now rewrite List.rev_involutive, List.app_nil_r.
  - destruct (String.eqb name "..") eqn:E2.
    + destruct (List.rev segs) as [|top rest] eqn:Er.
      * exists segs. reflexivity.
      * destruct (String.eqb top "..").
        -- exists []. now rewrite <- Er, List.rev_involutive, List.app_nil_r.
        -- exists [top]. rewrite <- (List.rev_involutive segs), Er. reflexivity.
    + exfalso. apply orb_false_iff in E1 as [E0 E1].
      unfold normal_segment in Hn. rewrite Hs, E0, E1, E2 in Hn. discriminate.
Qed.

Lemma abs_path_snoc (segs : list string) (name : string) :
  segs <> [] ->
  abs_path (segs ++ [name]) = (abs_path segs +:+ "/") +:+ name.
Proof.
  intros Hne. unfold abs_path. rewrite join_sep_snoc by assumption.
  rewrite !append_cons, app_assoc_str. reflexivity.
Qed.

(** [getFilePath] returns a path only of the form [UPLOAD_DIR/name], where
    [name] is the base name of the argument and an ordinary segment; in
    every other case it throws the [StorageError]. *)
Lemma getFilePath_cases (cwd uploadDir storedFilename : string) :
  isAbsolute cwd = true ->
  getFilePath cwd uploadDir storedFilename
  = (if normal_segment (basename storedFilename)
        && negb (String.eqb (UPLOAD_DIR cwd uploadDir) "/")
     then Ok ((UPLOAD_DIR cwd uploadDir +:+ "/") +:+ basename storedFilename)
     else Throw (StorageError
                   ("Invalid file path detected: " +:+ storedFilename))).
Proof.
  intros Hc. unfold getFilePath, UPLOAD_DIR.
  destruct (path_resolve_shape cwd uploadDir Hc) as [segs [HF ->]].
  pose proof (basename_no_sep storedFilename) as Hns.
  set (name := basename storedFilename) in *.
  rewrite path_join_upload by assumption.
  assert (HF' : Forall (fun x => normal_segment x = true)
                  (List.rev (normalize_step false (List.rev segs) name))).
  { apply Forall_rev, normalize_step_keeps_normal; [assumption|].
    now apply Forall_rev. }
  rewrite !path_resolve_abs by assumption.
  destruct (normal_segment name) eqn:En; cbn [andb].
  - rewrite normalize_step_normal by assumption.
    cbn [List.rev]. rewrite List.rev_involutive.
    destruct segs as [|x rest].
    + cbn [List.app]. unfold abs_path. cbn [join_sep].
      apply normal_segment_spec in En as (Hs & Hne & _).
      destruct name as [|c name']; [congruence|].
      cbn in Hs. apply andb_true_iff in Hs as [Hs _].
      apply negb_true_iff in Hs.
      unfold isPosixPathSeparator in Hs.
      change (String CHAR_FORWARD_SLASH "" +:+ "/")
        with (String CHAR_FORWARD_SLASH (String CHAR_FORWARD_SLASH "")).
      cbn [startsWith].
      rewrite Ascii.eqb_refl, (Ascii.eqb_sym _ c), Hs. reflexivity.
    + rewrite abs_path_snoc by discriminate.
      rewrite startsWith_app. cbn [negb].
      assert (Hnr : String.eqb (abs_path (x :: rest)) "/" = false).
      { inversion HF as [|? ? Hx _]; subst.
        apply normal_segment_spec in Hx as (_ & Hx & _).
        destruct x; [congruence|]. destruct rest; reflexivity. }
      rewrite Hnr. reflexivity.
  - destruct (normalize_step_special segs name HF En Hns) as [t Ht].
    destruct (startsWith _ _) eqn:Es; [|reflexivity].
    exfalso. apply startsWith_length in Es.
    rewrite length_app_str in Es. unfold abs_path in Es.
    cbn [String.length] in Es.
    pose proof (join_sep_prefix_length
                  (List.rev (normalize_step false (List.rev segs) name)) t) as Hl.
    rewrite <- Ht in Hl. lia.
Qed.

(* ===================================================================== *)
(** * 18. Reasoning rules for computations                               *)
(* ===================================================================== *)

Lemma bind_eq {A B} (m : M A) (k : A -> M B) (w : World) :
  bind m k w = match m w with
               | (Ok a, w') => k a w'
               | (Throw e, w') => (Throw e, w')
               end.
Proof. reflexivity. Qed.

Lemma io_eq (msg : string) (w : World) :
  io msg w = (if List.hd false (faults w) then Throw (JsError msg) else Ok tt,
              pop_fault w).
Proof.
  unfold io, bind, io_fault. destruct (List.hd false (faults w)); reflexivity.
Qed.

Lemma pool_query_eq {R} (stmt : Stmt R) (w : World) :
  pool_query stmt w =
  if List.hd false (faults w)
  then (Throw (JsError "Connection terminated unexpectedly"), pop_fault w)
  else match stmt (now w) (db w) with
       | Ok (rows, d) => (Ok rows, set_db d (pop_fault w))
       | Throw e => (Throw e, pop_fault w)
       end.
Proof.
  unfold pool_query. rewrite bind_eq, io_eq.
  destruct (List.hd false (faults w)); reflexivity.
Qed.

Lemma query_eq {R} (stmt : Stmt R) (w : World) :
  query stmt w =
  if List.hd false (faults w)
  then (Throw (DatabaseError "Database query failed"), pop_fault w)
  else match stmt (now w) (db w) with
       | Ok (rows, d) => (Ok rows, set_db d (pop_fault w))
       | Throw e =>
           (Throw (DatabaseError "Database query failed"), pop_fault w)
       end.
Proof.
  unfold query, try_catch. rewrite pool_query_eq.
  destruct (List.hd false (faults w)); [reflexivity|].
  destruct (stmt (now w) (db w)) as [[rows d]|e]; reflexivity.
Qed.

Section Preserves.
Context (R : World -> World -> Prop) `{!PreOrder R}.

Lemma preserves_ret {A} (a : A) : preserves R (ret a).
Proof. intros w. reflexivity. Qed.

Lemma preserves_throw {A} (e : Exn) : preserves R (@throw A e).
Proof. intros w. reflexivity. Qed.

Lemma preserves_lift {A} (r : Result A) : preserves R (lift r).
Proof. intros w. reflexivity. Qed.

Lemma preserves_get_world : preserves R get_world.
Proof. intros w. reflexivity. Qed.

Lemma preserves_bind {A B} (m : M A) (k : A -> M B) :
  preserves R m -> (forall a, preserves R (k a)) -> preserves R (bind m k).
Proof.
  intros Hm Hk w. rewrite bind_eq. specialize (Hm w).
  destruct (m w) as [[a|e] w']; simpl in *; [|assumption].
  etransitivity; [exact Hm | apply Hk].
Qed.

Lemma preserves_try_catch {A} (m : M A) (h : Exn -> M A) :
  preserves R m -> (forall e, preserves R (h e)) ->
  preserves R (try_catch m h).
Proof.
  intros Hm Hh w. unfold try_catch. specialize (Hm w).
  destruct (m w) as [[a|e] w']; simpl in *; [assumption|].
  etransitivity; [exact Hm | apply Hh].
Qed.

End Preserves.

Global Instance same_store_preorder : PreOrder same_store.
Proof.
  split.
  - intros w. split; reflexivity.
  - intros a b c [H1 H2] [H3 H4]. split; congruence.
Qed.

Global Instance same_env_preorder : PreOrder same_env.
Proof.
  split.
  - intros w. repeat split; reflexivity.
  - intros a b c (?&?&?&?&?&?&?&?) (?&?&?&?&?&?&?&?).
    repeat split; congruence.
Qed.

Lemma io_same_store (msg : string) : preserves same_store (io msg).
Proof. intros w. rewrite io_eq. split; reflexivity. Qed.

Lemma uuidv4_same_store : preserves same_store uuidv4.
Proof. intros w. split; reflexivity. Qed.

(* ===================================================================== *)
(** * 19. Statements and their events                                    *)
(* ===================================================================== *)

Lemma sql_insert_job_rows id ofn sfn fp fsz mt cs pr t d rows d' :
  sql_insert_job id ofn sfn fp fsz mt cs pr t d = Ok (rows, d') ->
  exists row, rows = [row] /\ jobs d !! id = None /\
              d' = set_jobs (<[id := row]> (jobs d)) d /\
              JobRow.id row = id /\ JobRow.status row = PENDING /\
              JobRow.attempts row = 0 /\ JobRow.max_attempts row = 3 /\
              JobRow.completed_at row = None /\
              ofn = Some (JobRow.original_filename row) /\
              sfn = Some (JobRow.stored_filename row) /\
              fp = Some (JobRow.file_path row) /\
              fsz = Some (JobRow.file_size row) /\
              JobRow.priority row = pr.
Proof.
  unfold sql_insert_job, pg_error.
  destruct ofn, sfn, fp, fsz; try discriminate.
  destruct (negb _); [discriminate|].
  destruct (negb _); [discriminate|].
  destruct (jobs d !! id) eqn:E; [discriminate|].
  intros H. injection H as <- <-. eexists. repeat split; auto.
Qed.

Lemma sql_update_job_rows updates id t d rows d' :
  sql_update_job updates id t d = Ok (rows, d') ->
  (rows = [] /\ d' = d /\ jobs d !! id = None) \/
  (exists old,
      jobs d !! id = Some old /\
      let new := set_updated_at t
                   (List.fold_left (apply_set t old) updates old) in
      rows = [new] /\ d' = set_jobs (<[id := new]> (jobs d)) d).
Proof.
  unfold sql_update_job, pg_error.
  destruct (jobs d !! id) as [old|] eqn:E.
  - destruct (int4_ok _); [|discriminate].
    intros H. injection H as <- <-. right. exists old. auto.
  - intros H. injection H as <- <-. left. auto.
Qed.

Lemma sql_insert_scan_result_rows id jobId res inf tn tc td sv dv ms t d
      rows d' :
  sql_insert_scan_result id jobId res inf tn tc td sv dv ms t d
    = Ok (rows, d') ->
  exists row, rows = [row] /\ is_Some (jobs d !! jobId) /\
              d' = set_scan_results (scan_results d ++ [row]) d /\
              ScanResultRow.job_id row = jobId /\
              ScanResultRow.id row = id /\
              ScanResultRow.result row = res /\
              ScanResultRow.is_infected row = inf /\
              ScanResultRow.threat_name row = tn /\
              ScanResultRow.scan_duration_ms row = ms.
Proof.
  unfold sql_insert_scan_result, pg_error.
  destruct (negb _); [discriminate|].
  destruct (negb _); [discriminate|].
  destruct (bool_decide _); [discriminate|].
  destruct (jobs d !! jobId) eqn:E; [|discriminate].
  intros H. injection H as <- <-. eexists. repeat split; eauto.
Qed.

(** The row an [UPDATE] of [updateJobStatus] writes. *)
Lemma status_updates_row (t : Timestamp) (old : JobRow.t)
      (status : JobStatus) (errorMessage : option string) :
  let new := List.fold_left (apply_set t old)
                            (status_updates status errorMessage) old in
  JobRow.id new = JobRow.id old /\
  JobRow.status new = status /\
  JobRow.max_attempts new = JobRow.max_attempts old /\
  JobRow.attempts new
    = JobRow.attempts old + (if bool_decide (status = PROCESSING) then 1 else 0) /\
  JobRow.completed_at new
    = (if bool_decide (status = COMPLETED) || bool_decide (status = FAILED)
       then Some t else JobRow.completed_at old) /\
  JobRow.started_at new
    = (if bool_decide (status = PROCESSING) then Some t
       else JobRow.started_at old) /\
  JobRow.error_message new
    = (match errorMessage with
       | Some m => Some m
       | None => JobRow.error_message old
       end).
Proof.
  destruct status, errorMessage; cbv -[Z.add]; repeat split; lia.
Qed.

Lemma db_steps_app (t1 t2 : list DbEvent) (a b c : Db) :
  db_steps t1 a b -> db_steps t2 b c -> db_steps (t1 ++ t2) a c.
Proof.
  induction 1 as [|ev tr d1 d2 d3 Hs _ IH]; intros H2; [assumption|].
  cbn [List.app]. econstructor; [eassumption | now apply IH].
Qed.

Lemma processing_count_app (jid : string) (t1 t2 : list DbEvent) :
  processing_count jid (t1 ++ t2)
  = (processing_count jid t1 + processing_count jid t2)%nat.
Proof.
  unfold processing_count. now rewrite List.filter_app, List.length_app.
Qed.

Lemma Lang_nil (P : DbEvent -> Prop) (jid : string) (n : nat) :
  Lang P jid n [].
Proof. split; [constructor | cbn; lia]. Qed.

Lemma Lang_app (P : DbEvent -> Prop) (jid : string) (n1 n2 : nat)
      (t1 t2 : list DbEvent) :
  Lang P jid n1 t1 -> Lang P jid n2 t2 -> Lang P jid (n1 + n2) (t1 ++ t2).
Proof.
  intros [H1 C1] [H2 C2]. split.
  - apply Forall_app. split; assumption.
  - rewrite processing_count_app. lia.
Qed.

Lemma Lang_mono (P : DbEvent -> Prop) (jid : string) (n n' : nat)
      (tr : list DbEvent) :
  (n <= n')%nat -> Lang P jid n tr -> Lang P jid n' tr.
Proof. intros Hn [H C]. split; [assumption | lia]. Qed.

Lemma Lang_single (P : DbEvent -> Prop) (jid : string) (ev : DbEvent) :
  P ev -> Lang P jid (if is_processing_of jid ev then 1 else 0) [ev].
Proof.
  intros HP. split; [repeat constructor; assumption|].
  unfold processing_count. cbn [List.filter].
  destruct (is_processing_of jid ev); cbn; lia.
Qed.

Section Evolves.
Context (P : DbEvent -> Prop) (jid : string).

Lemma evolves_mono {A} (n n' : nat) (m : M A) :
  (n <= n')%nat -> evolves (Lang P jid n) m -> evolves (Lang P jid n') m.
Proof.
  intros Hn Hm w Hw. destruct (Hm w Hw) as [Ht [tr [HL Hs]]].
  split; [assumption|]. exists tr. split; [|assumption].
  eapply Lang_mono; eassumption.
Qed.

Lemma evolves_pure {A} (m : M A) :
  preserves same_store m -> evolves (Lang P jid 0) m.
Proof.
  intros Hm w Hw. destruct (Hm w) as [Hd Ht].
  split; [congruence|]. exists []. split; [apply Lang_nil|].
  rewrite Hd. constructor.
Qed.

Lemma evolves_bind {A B} (n1 n2 : nat) (m : M A) (k : A -> M B) :
  evolves (Lang P jid n1) m ->
  (forall a, evolves (Lang P jid n2) (k a)) ->
  evolves (Lang P jid (n1 + n2)) (bind m k).
Proof.
  intros Hm Hk w Hw. rewrite bind_eq.
  destruct (Hm w Hw) as [Ht [tr [HL Hs]]].
  destruct (m w) as [[a|e] w']; cbn [snd] in *.
  - destruct (Hk a w' Ht) as [Ht2 [tr2 [HL2 Hs2]]].
    split; [assumption|]. exists (tr ++ tr2).
    split; [now apply Lang_app | eapply db_steps_app; eassumption].
  - split; [assumption|]. exists tr. split; [|assumption].
    eapply Lang_mono; [|eassumption]. lia.
Qed.

Lemma evolves_try_catch {A} (n1 n2 : nat) (m : M A) (h : Exn -> M A) :
  evolves (Lang P jid n1) m ->
  (forall e, evolves (Lang P jid n2) (h e)) ->
  evolves (Lang P jid (n1 + n2)) (try_catch m h).
Proof.
  intros Hm Hh w Hw. unfold try_catch.
  destruct (Hm w Hw) as [Ht [tr [HL Hs]]].
  destruct (m w) as [[a|e] w']; cbn [snd] in *.
  - split; [assumption|]. exists tr. split; [|assumption].
    eapply Lang_mono; [|eassumption]. lia.
  - destruct (Hh e w' Ht) as [Ht2 [tr2 [HL2 Hs2]]].
    split; [assumption|]. exists (tr ++ tr2).
    split; [now apply Lang_app | eapply db_steps_app; eassumption].
Qed.

(** A statement run through [query] commits nothing or one event. *)
Lemma evolves_query {R} (stmt : Stmt R) (ev : DbEvent) :
  P ev ->
  (forall t d rows d', stmt t d = Ok (rows, d') ->
                       d' = d \/ db_step ev d d') ->
  evolves (Lang P jid (if is_processing_of jid ev then 1 else 0))
          (query stmt).
Proof.
  intros HP Hstmt w Hw. rewrite query_eq.
  destruct (List.hd false (faults w)).
  - split; [assumption|]. exists []. split; [apply Lang_nil | constructor].
  - destruct (stmt (now w) (db w)) as [[rows d]|e] eqn:E; cbn [snd].
    + split; [assumption|]. destruct (Hstmt _ _ _ _ E) as [->|Hstep].
      * exists []. split; [apply Lang_nil | constructor].
      * exists [ev]. split; [now apply Lang_single|].
        cbn. econstructor; [eassumption | constructor].
    + split; [assumption|]. exists [].
      split; [apply Lang_nil | constructor].
Qed.
End Evolves.

(* ===================================================================== *)
(** * 20. Transactions and completeJobWithResult                         *)
(* ===================================================================== *)

Lemma client_query_eq {R} (stmt : Stmt R) (w : World) :
  client_query stmt w =
  if List.hd false (faults w)
  then (Throw (JsError "Connection terminated unexpectedly"), pop_fault w)
  else match txn w with
       | Some t =>
           match stmt (now w) t with
           | Ok (rows, t') => (Ok rows, set_txn (Some t') (pop_fault w))
           | Throw e => (Throw e, pop_fault w)
           end
       | None =>
           match stmt (now w) (db w) with
           | Ok (rows, d) => (Ok rows, set_db d (pop_fault w))
           | Throw e => (Throw e, pop_fault w)
           end
       end.
Proof.
  unfold client_query. rewrite bind_eq, io_eq.
  destruct (List.hd false (faults w)); reflexivity.
Qed.


Lemma client_ROLLBACK_eq (w : World) :
  client_ROLLBACK w =
  (if List.hd false (faults w)
   then (Throw (JsError "Connection terminated unexpectedly"), pop_fault w)
   else (Ok tt, set_txn None (pop_fault w))).
Proof.
  unfold client_ROLLBACK. rewrite bind_eq, io_eq.
  destruct (List.hd false (faults w)); reflexivity.
Qed.

Lemma withTransaction_eq {T} (fn : M T) (w : World) :
  withTransaction fn w =
  if List.hd false (faults w)
  then (Throw (JsError "Connection terminated unexpectedly"), pop_fault w)
  else
    if List.hd false (faults (pop_fault w))
    then
      (let '(r, w') :=
         (client_ROLLBACK ;;;
          throw (JsError "Connection terminated unexpectedly"))
           (pop_fault (pop_fault w)) in
       (r, client_release w'))
    else
      match fn (set_txn (Some (db w)) (pop_fault (pop_fault w))) with
      | (Ok a, w2) =>
          if List.hd false (faults w2)
          then
            (let '(r, w') :=
               (client_ROLLBACK ;;;
                throw (JsError "Connection terminated unexpectedly"))
                 (pop_fault w2) in
             (r, client_release w'))
          else
            (Ok a,
             client_release
               match txn w2 with
               | Some t => set_txn None (set_db t (pop_fault w2))
               | None => pop_fault w2
               end)
      | (Throw e, w2) =>
          (let '(r, w') := (client_ROLLBACK ;;; throw e) w2 in
           (r, client_release w'))
      end.
Proof.
  unfold withTransaction, getClient, try_finally, try_catch.
  rewrite bind_eq, io_eq.
  destruct (List.hd false (faults w)); [reflexivity|].
  rewrite bind_eq. unfold client_BEGIN at 1. rewrite bind_eq, io_eq.
  destruct (List.hd false (faults (pop_fault w))); [reflexivity|].
  unfold modify at 1. rewrite bind_eq.
  change (db (pop_fault (pop_fault w))) with (db w).
  destruct (fn _) as [[a|e] w2]; [|reflexivity].
  rewrite bind_eq. unfold client_COMMIT. rewrite bind_eq, io_eq.
  destruct (List.hd false (faults w2)); [reflexivity|].
  unfold modify, ret. change (txn (pop_fault w2)) with (txn w2).
  destruct (txn w2); reflexivity.
Qed.

Lemma same_env_pop (w : World) : same_env w (pop_fault w).
Proof. repeat split. Qed.

Lemma rollback_release {T} (e : Exn) (w0 w : World) :
  same_env w0 w ->
  exists e' w',
    (let '(r, w') := (client_ROLLBACK ;;; @throw T e) w in
     (r, client_release w')) = (Throw e', w') /\
    db w' = db w /\ txn w' = None /\ same_env w0 w'.
Proof.
  intros He. rewrite bind_eq, client_ROLLBACK_eq.
  destruct (List.hd false (faults w)); do 2 eexists;
    (split; [reflexivity|]); (split; [reflexivity|]);
    (split; [reflexivity|]);
    destruct He as (?&?&?&?&?&?&?&?); repeat split; assumption.
Qed.

Lemma withTransaction_spec {T} (fn : M T) (w : World) :
  txn w = None -> txn_local fn ->
  txn (snd (withTransaction fn w)) = None /\
  same_env w (snd (withTransaction fn w)) /\
  ((exists e, fst (withTransaction fn w) = Throw e /\
              db (snd (withTransaction fn w)) = db w) \/
   (exists a w2,
       fst (withTransaction fn w) = Ok a /\
       fn (set_txn (Some (db w)) (pop_fault (pop_fault w))) = (Ok a, w2) /\
       txn w2 = Some (db (snd (withTransaction fn w))))).
Proof.
  intros Hw Hfn. rewrite withTransaction_eq.
  destruct (List.hd false (faults w)).
  { split; [exact Hw|]. split; [repeat split|]. left. eauto. }
  destruct (List.hd false (faults (pop_fault w))).
  { destruct (rollback_release (T:=T)
                (JsError "Connection terminated unexpectedly") w
                (pop_fault (pop_fault w))) as (e' & w' & -> & Hd & Ht & He).
    { repeat split. }
    cbn [fst snd]. split; [assumption|]. split; [assumption|].
    left. exists e'. split; [reflexivity | exact Hd]. }
  set (w1 := set_txn (Some (db w)) (pop_fault (pop_fault w))).
  destruct (Hfn w1 (db w) eq_refl) as (Hd1 & He1 & Ht1).
  assert (He0 : same_env w w1) by (repeat split).
  destruct (fn w1) as [[a|e] w2] eqn:Efn; cbn [fst snd] in *.
  - destruct (Ht1 a eq_refl) as [t2 Ht2].
    destruct (List.hd false (faults w2)).
    + destruct (rollback_release (T:=T)
                  (JsError "Connection terminated unexpectedly") w
                  (pop_fault w2)) as (e' & w' & -> & Hd & Ht & He).
      { etransitivity; [exact He0|]. etransitivity; [exact He1|].
        apply same_env_pop. }
      cbn [fst snd]. split; [assumption|]. split; [assumption|].
      left. exists e'. split; [reflexivity|]. rewrite Hd. exact Hd1.
    + rewrite Ht2. cbn [fst snd].
      split; [reflexivity|]. split.
      { etransitivity; [exact He0|]. etransitivity; [exact He1|].
        repeat split. }
      right. exists a, w2. split; [reflexivity|]. split; [reflexivity|].
      exact Ht2.
  - destruct (rollback_release (T:=T) e w w2) as (e' & w' & -> & Hd & Ht & He).
    { etransitivity; eassumption. }
    cbn [fst snd]. split; [assumption|]. split; [assumption|].
    left. exists e'. split; [reflexivity|]. rewrite Hd. exact Hd1.
Qed.

Lemma completion_txn_eq (jobId : string) (sr : Completion.t) (w : World)
      (t : Db) :
  txn w = Some t ->
  completion_txn jobId sr w =
  let w0 := pop_fault (set_drawn (S (drawn w)) w) in
  if List.hd false (faults w)
  then (Throw (JsError "Connection terminated unexpectedly"), w0)
  else
    match sql_insert_scan_result (entropy w (drawn w)) jobId
            (Completion.result sr) (Completion.isInfected sr)
            (Completion.threatName sr) None None None None
            (Completion.scanDurationMs sr) (now w) t with
    | Ok (_, d1) =>
        let w1 := set_txn (Some d1) w0 in
        if List.hd false (faults w1)
        then (Throw (JsError "Connection terminated unexpectedly"),
              pop_fault w1)
        else
          match sql_update_job [SetStatus COMPLETED; SetCompletedAtNow]
                               jobId (now w) d1 with
          | Ok (_, d2) => (Ok tt, set_txn (Some d2) (pop_fault w1))
          | Throw e => (Throw e, pop_fault w1)
          end
    | Throw e => (Throw e, w0)
    end.
Proof.
  intros Ht. unfold completion_txn. rewrite bind_eq. unfold uuidv4 at 1.
  rewrite bind_eq, client_query_eq.
  change (faults (set_drawn (S (drawn w)) w)) with (faults w).
  change (txn (set_drawn (S (drawn w)) w)) with (txn w).
  change (now (set_drawn (S (drawn w)) w)) with (now w).
  cbv zeta.
  destruct (List.hd false (faults w)); [reflexivity|].
  rewrite Ht.
  destruct (sql_insert_scan_result _ _ _ _ _ _ _ _ _ _ _ t)
    as [[rows1 d1]|e]; [|reflexivity].
  rewrite bind_eq, client_query_eq.
  set (w1 := set_txn (Some d1) (pop_fault (set_drawn (S (drawn w)) w))).
  change (txn w1) with (Some d1). change (now w1) with (now w).
  destruct (List.hd false (faults w1)); [reflexivity|].
  destruct (sql_update_job _ jobId (now w) d1) as [[rows2 d2]|e];
    reflexivity.
Qed.

(** The callback of [completeJobWithResult], run inside a transaction whose
    working copy is [t]. *)
Lemma completion_txn_run (jobId : string) (sr : Completion.t) (w : World)
      (t : Db) :
  txn w = Some t ->
  db (snd (completion_txn jobId sr w)) = db w /\
  same_env w (snd (completion_txn jobId sr w)) /\
  (forall a, fst (completion_txn jobId sr w) = Ok a ->
     exists rows1 d1 rows2 d2,
       sql_insert_scan_result (entropy w (drawn w)) jobId
         (Completion.result sr) (Completion.isInfected sr)
         (Completion.threatName sr) None None None None
         (Completion.scanDurationMs sr) (now w) t = Ok (rows1, d1) /\
       sql_update_job [SetStatus COMPLETED; SetCompletedAtNow] jobId (now w) d1
         = Ok (rows2, d2) /\
       txn (snd (completion_txn jobId sr w)) = Some d2).
Proof.
  intros Ht. rewrite (completion_txn_eq jobId sr w t Ht). cbv zeta.
  destruct (List.hd false (faults w)).
  { split; [reflexivity|]. split; [repeat split|]. intros a Ha. discriminate. }
  destruct (sql_insert_scan_result _ _ _ _ _ _ _ _ _ _ _ t)
    as [[rows1 d1]|e] eqn:E1.
  2:{ split; [reflexivity|]. split; [repeat split|]. intros a Ha. discriminate. }
  destruct (List.hd false (faults _)).
  { split; [reflexivity|]. split; [repeat split|]. intros a Ha. discriminate. }
  destruct (sql_update_job _ jobId (now w) d1) as [[rows2 d2]|e] eqn:E2.
  2:{ split; [reflexivity|]. split; [repeat split|]. intros a Ha. discriminate. }
  split; [reflexivity|]. split; [repeat split|].
  intros a _. exists rows1, d1, rows2, d2.
  repeat split; solve [reflexivity | assumption].
Qed.

Lemma completion_txn_local (jobId : string) (sr : Completion.t) :
  txn_local (completion_txn jobId sr).
Proof.
  intros w t Ht.
  destruct (completion_txn_run jobId sr w t Ht) as (Hd & He & Hok).
  split; [assumption|]. split; [assumption|].
  intros a Ha. destruct (Hok a Ha) as (?&?&?&?&_&_&->). eauto.
Qed.

(** Either nothing is committed and the call throws, or the result row and
    the status change are committed together. *)
Lemma completeJobWithResult_spec (jobId : string) (sr : Completion.t)
      (w : World) :
  txn w = None ->
  txn (snd (completeJobWithResult jobId sr w)) = None /\
  same_env w (snd (completeJobWithResult jobId sr w)) /\
  ((exists e, fst (completeJobWithResult jobId sr w) = Throw e /\
              db (snd (completeJobWithResult jobId sr w)) = db w) \/
   (fst (completeJobWithResult jobId sr w) = Ok tt /\
    exists id row1 d1 row2,
      sql_insert_scan_result id jobId
        (Completion.result sr) (Completion.isInfected sr)
        (Completion.threatName sr) None None None None
        (Completion.scanDurationMs sr) (now w) (db w) = Ok ([row1], d1) /\
      sql_update_job [SetStatus COMPLETED; SetCompletedAtNow] jobId (now w) d1
        = Ok ([row2], db (snd (completeJobWithResult jobId sr w))))).
Proof.
  intros Hw. unfold completeJobWithResult.
  destruct (withTransaction_spec (completion_txn jobId sr) w Hw
              (completion_txn_local jobId sr)) as (Ht & He & Hcases).
  split; [assumption|]. split; [assumption|].
  destruct Hcases as [Hthrow | (a & w2 & Hr & Hrun & Ht2)]; [left; assumption|].
  right. destruct a. split; [assumption|].
  set (w1 := set_txn (Some (db w)) (pop_fault (pop_fault w))) in *.
  destruct (completion_txn_run jobId sr w1 (db w) eq_refl) as (_ & _ & Hok).
  rewrite Hrun in Hok. cbn [fst snd] in Hok.
  destruct (Hok tt eq_refl) as (rows1 & d1 & rows2 & d2 & E1 & E2 & Htx).
  rewrite Ht2 in Htx. injection Htx as <-.
  destruct (sql_insert_scan_result_rows _ _ _ _ _ _ _ _ _ _ _ _ _ _ E1)
    as (row1 & -> & [old Hold] & Hd1 & _).
  destruct (sql_update_job_rows _ _ _ _ _ _ E2)
    as [(_ & _ & Hnone) | (old' & Hold' & Hrows & Hd2)].
  { rewrite Hd1 in Hnone. cbn in Hnone. congruence. }
  cbv zeta in Hrows. rewrite Hrows in E2.
  eexists (entropy w1 (drawn w1)), row1, d1, _.
  split; [exact E1 | exact E2].
Qed.

(* ===================================================================== *)
(** * 21. The job service, step by step                                  *)
(* ===================================================================== *)

Lemma bind_cases {A B} (m : M A) (k : A -> M B) (w w' : World)
      (r : Result B) :
  bind m k w = (r, w') ->
  (exists e, m w = (Throw e, w') /\ r = Throw e) \/
  (exists a w1, m w = (Ok a, w1) /\ k a w1 = (r, w')).
Proof.
  rewrite bind_eq. destruct (m w) as [[a|e] w1]; intros H.
  - right. eauto.
  - left. injection H as <- <-. eauto.
Qed.

Lemma bind_Ok_inv {A B} (m : M A) (k : A -> M B) (w w' : World) (b : B) :
  bind m k w = (Ok b, w') ->
  exists a w1, m w = (Ok a, w1) /\ k a w1 = (Ok b, w').
Proof.
  intros H. apply bind_cases in H as [(e & _ & He) | H]; [discriminate|].
  exact H.
Qed.

Lemma try_catch_cases {A} (m : M A) (h : Exn -> M A) (w w' : World)
      (r : Result A) :
  try_catch m h w = (r, w') ->
  (exists a, m w = (Ok a, w') /\ r = Ok a) \/
  (exists e w1, m w = (Throw e, w1) /\ h e w1 = (r, w')).
Proof.
  unfold try_catch. destruct (m w) as [[a|e] w1]; intros H.
  - left. injection H as <- <-. eauto.
  - right. eauto.
Qed.

Lemma createJob_eq (input : CreateJobInput.t) (w : World) :
  createJob input w =
  let w0 := pop_fault (set_drawn (S (drawn w)) w) in
  if List.hd false (faults w)
  then (Throw (DatabaseError "Database query failed"), w0)
  else
    match sql_insert_job (entropy w (drawn w))
            (CreateJobInput.originalFilename input)
            (CreateJobInput.storedFilename input)
            (CreateJobInput.filePath input)
            (CreateJobInput.fileSize input)
            (CreateJobInput.mimeType input)
            (CreateJobInput.checksum input)
            (nullish (CreateJobInput.priority input) 0) (now w) (db w) with
    | Ok (row :: _, d) => (Ok (mapRowToJob row), set_db d w0)
    | Ok ([], d) =>
        (Throw (JsError "Cannot read properties of undefined"), set_db d w0)
    | Throw _ => (Throw (DatabaseError "Database query failed"), w0)
    end.
Proof.
  unfold createJob. rewrite bind_eq. unfold uuidv4 at 1.
  rewrite bind_eq, query_eq.
  change (faults (set_drawn (S (drawn w)) w)) with (faults w).
  change (now (set_drawn (S (drawn w)) w)) with (now w).
  change (db (set_drawn (S (drawn w)) w)) with (db w).
  cbv zeta. destruct (List.hd false (faults w)); [reflexivity|].
  destruct (sql_insert_job _ _ _ _ _ _ _ _ _ _) as [[[|row rows] d]|e];
    reflexivity.
Qed.

Lemma updateJobStatus_eq (jobId : string) (status : JobStatus)
      (errorMessage : option string) (w : World) :
  updateJobStatus jobId status errorMessage w =
  if List.hd false (faults w)
  then (Throw (DatabaseError "Database query failed"), pop_fault w)
  else
    match sql_update_job (status_updates status errorMessage) jobId
                         (now w) (db w) with
    | Ok (row :: _, d) => (Ok (mapRowToJob row), set_db d (pop_fault w))
    | Ok ([], d) => (Throw (NotFoundError "Job" jobId), set_db d (pop_fault w))
    | Throw _ => (Throw (DatabaseError "Database query failed"), pop_fault w)
    end.
Proof.
  unfold updateJobStatus. rewrite bind_eq, query_eq.
  destruct (List.hd false (faults w)); [reflexivity|].
  destruct (sql_update_job _ _ _ _) as [[[|row rows] d]|e]; reflexivity.
Qed.

(** A successful [updateJobStatus] commits exactly its [UPDATE]. *)
Lemma updateJobStatus_Ok (jobId : string) (status : JobStatus)
      (errorMessage : option string) (w w' : World) (job : Job.t) :
  updateJobStatus jobId status errorMessage w = (Ok job, w') ->
  exists old,
    jobs (db w) !! jobId = Some old /\
    let new := set_updated_at (now w)
                 (List.fold_left (apply_set (now w) old)
                                 (status_updates status errorMessage) old) in
    job = mapRowToJob new /\
    w' = set_db (set_jobs (<[jobId := new]> (jobs (db w))) (db w))
                (pop_fault w) /\
    db_step (EvUpdate jobId status errorMessage) (db w) (db w').
Proof.
  rewrite updateJobStatus_eq.
  destruct (List.hd false (faults w)); [discriminate|].
  destruct (sql_update_job _ _ _ _) as [[[|row rows] d]|e] eqn:E;
    try discriminate.
  intros H. injection H as <- <-.
  destruct (sql_update_job_rows _ _ _ _ _ _ E)
    as [(Hnil & _) | (old & Hold & Hrows & Hd)]; [discriminate|].
  cbv zeta in Hrows. injection Hrows as -> ->.
  exists old. split; [assumption|]. cbv zeta.
  split; [reflexivity|]. split; [now rewrite Hd|].
  cbn [db set_db]. econstructor. exact E.
Qed.

(** When the connection holds, the job exists and the counter stays in
    range, [updateJobStatus] succeeds. *)
Lemma updateJobStatus_runs (jobId : string) (status : JobStatus)
      (errorMessage : option string) (w : World) (old : JobRow.t) :
  List.hd false (faults w) = false ->
  jobs (db w) !! jobId = Some old ->
  int4_ok (JobRow.attempts old
           + (if bool_decide (status = PROCESSING) then 1 else 0)) = true ->
  let new := set_updated_at (now w)
               (List.fold_left (apply_set (now w) old)
                               (status_updates status errorMessage) old) in
  updateJobStatus jobId status errorMessage w
  = (Ok (mapRowToJob new),
     set_db (set_jobs (<[jobId := new]> (jobs (db w))) (db w)) (pop_fault w)).
Proof.
  intros Hf Hold Hrange. rewrite updateJobStatus_eq, Hf.
  unfold sql_update_job. rewrite Hold.
  destruct (status_updates_row (now w) old status errorMessage)
    as (_ & _ & _ & Hatt & _).
  cbv zeta in Hatt. rewrite Hatt, Hrange. reflexivity.
Qed.

(** What a successful [createJob] returns and stores. *)
Lemma createJob_Ok (input : CreateJobInput.t) (w w' : World) (job : Job.t) :
  createJob input w = (Ok job, w') ->
  Job.id job = entropy w (drawn w) /\
  jobs (db w) !! Job.id job = None /\
  Job.status job = PENDING /\
  Job.attempts job = 0 /\ Job.maxAttempts job = 3 /\
  option_map mapRowToJob (jobs (db w') !! Job.id job) = Some job /\
  required_missing input = false.
Proof.
  rewrite createJob_eq. cbv zeta. intros H.
  destruct (List.hd false (faults w)); [discriminate|].
  destruct (sql_insert_job _ _ _ _ _ _ _ _ _ _) as [[[|row rows] d]|e'] eqn:E;
    try discriminate.
  injection H as <- <-.
  destruct (sql_insert_job_rows _ _ _ _ _ _ _ _ _ _ _ _ E)
    as (row' & Hrow & Hfresh & -> & Hid & Hst & Hatt & Hmax & _
        & E1 & E2 & E3 & E4 & _).
  injection Hrow as <- _.
  change (Job.id (mapRowToJob row)) with (JobRow.id row).
  change (Job.status (mapRowToJob row)) with (JobRow.status row).
  change (Job.attempts (mapRowToJob row)) with (JobRow.attempts row).
  change (Job.maxAttempts (mapRowToJob row)) with (JobRow.max_attempts row).
  rewrite Hid. split; [reflexivity|]. split; [exact Hfresh|].
  split; [exact Hst|]. split; [exact Hatt|]. split; [exact Hmax|].
  split.
  - cbn [db set_db jobs set_jobs]. now rewrite lookup_insert_eq.
  - unfold required_missing. now rewrite E1, E2, E3, E4.
Qed.

(* ===================================================================== *)
(** * 22. What an event does to a job and to its results                 *)
(* ===================================================================== *)

Lemma completion_updates :
  [SetStatus COMPLETED; SetCompletedAtNow] = status_updates COMPLETED None.
Proof. reflexivity. Qed.

Lemma update_job_lookup (updates : list SetClause) (id jid : string)
      (t : Timestamp) (d d' : Db) (row : JobRow.t) :
  sql_update_job updates id t d = Ok ([row], d') ->
  scan_results d' = scan_results d /\
  exists old, jobs d !! id = Some old /\
    row = set_updated_at t (List.fold_left (apply_set t old) updates old) /\
    jobs d' !! jid = (if decide (id = jid) then Some row else jobs d !! jid).
Proof.
  intros E. destruct (sql_update_job_rows _ _ _ _ _ _ E)
    as [(Hnil & _) | (old & Hold & Hrows & ->)]; [discriminate|].
  cbv zeta in Hrows. injection Hrows as ->.
  split; [reflexivity|]. exists old. split; [assumption|].
  split; [reflexivity|]. cbn [jobs set_jobs]. apply lookup_insert.
Qed.

Lemma is_processing_of_update (jid id : string) (status : JobStatus)
      (errorMessage : option string) :
  is_processing_of jid (EvUpdate id status errorMessage)
  = bool_decide (id = jid) && bool_decide (status = PROCESSING).
Proof.
  destruct (decide (status = PROCESSING)) as [->|Hs].
  - rewrite (bool_decide_eq_true_2 (PROCESSING = PROCESSING)) by reflexivity.
    rewrite andb_true_r. cbn [is_processing_of].
    destruct (String.eqb_spec id jid) as [->|Hne].
    + now rewrite bool_decide_eq_true_2.
    + now rewrite bool_decide_eq_false_2.
  - rewrite (bool_decide_eq_false_2 _ Hs), andb_false_r.
    destruct status; try reflexivity; congruence.
Qed.

(** The effect of one event on the row of job [jid]: the job stays, its
    [max_attempts] stays, and [attempts] grows by one exactly on a
    transition of this job into [processing]. *)
Lemma db_step_job (ev : DbEvent) (d d' : Db) (jid : string) (r : JobRow.t) :
  db_step ev d d' -> jobs d !! jid = Some r ->
  exists r', jobs d' !! jid = Some r' /\
             JobRow.max_attempts r' = JobRow.max_attempts r /\
             JobRow.attempts r'
             = JobRow.attempts r + (if is_processing_of jid ev then 1 else 0).
Proof.
  intros Hstep Hr. destruct Hstep as
      [id ofn sfn fp fsz mt cs pr t d row d' E
      |id status errorMessage t d row d' E
      |id jobId res inf tn tc td sv dv ms t d row d' E
      |id jobId res inf tn ms t d row1 d1 row2 d' E1 E2].
  - destruct (sql_insert_job_rows _ _ _ _ _ _ _ _ _ _ _ _ E)
      as (row' & _ & Hfresh & -> & _).
    exists r. cbn [jobs set_jobs is_processing_of].
    rewrite lookup_insert_ne by congruence. repeat split; [assumption | lia].
  - destruct (update_job_lookup _ _ jid _ _ _ _ E)
      as (_ & old & Hold & Hrow & Hlook).
    rewrite is_processing_of_update.
    destruct (decide (id = jid)) as [->|Hne].
    + rewrite Hr in Hold. injection Hold as <-.
      exists row. split; [assumption|].
      destruct (status_updates_row t r status errorMessage)
        as (_ & _ & Hmax & Hatt & _). cbv zeta in Hmax, Hatt.
      rewrite bool_decide_eq_true_2 by reflexivity. cbn [andb].
      subst row. split; [exact Hmax | exact Hatt].
    + exists r. rewrite Hlook, bool_decide_eq_false_2 by assumption.
      cbn [andb]. repeat split; [assumption | lia].
  - destruct (sql_insert_scan_result_rows _ _ _ _ _ _ _ _ _ _ _ _ _ _ E)
      as (row' & _ & _ & -> & _).
    exists r. cbn [jobs set_scan_results is_processing_of].
    repeat split; [assumption | lia].
  - destruct (sql_insert_scan_result_rows _ _ _ _ _ _ _ _ _ _ _ _ _ _ E1)
      as (row' & _ & _ & -> & _).
    destruct (update_job_lookup _ _ jid _ _ _ _ E2)
      as (_ & old & Hold & Hrow & Hlook).
    cbn [jobs set_scan_results] in Hold, Hlook. cbn [is_processing_of].
    destruct (decide (jobId = jid)) as [->|Hne].
    + rewrite Hr in Hold. injection Hold as <-.
      exists row2. split; [assumption|].
      rewrite completion_updates in Hrow.
      destruct (status_updates_row t r COMPLETED None)
        as (_ & _ & Hmax & Hatt & _). cbv zeta in Hmax, Hatt.
      subst row2. split; [exact Hmax|].
      etransitivity; [exact Hatt|].
      rewrite bool_decide_eq_false_2 by discriminate. reflexivity.
    + exists r. rewrite Hlook. repeat split; [assumption | lia].
Qed.

Lemma db_steps_job (tr : list DbEvent) (d d' : Db) (jid : string)
      (r : JobRow.t) :
  db_steps tr d d' -> jobs d !! jid = Some r ->
  exists r', jobs d' !! jid = Some r' /\
             JobRow.max_attempts r' = JobRow.max_attempts r /\
             JobRow.attempts r'
             = JobRow.attempts r + Z.of_nat (processing_count jid tr).
Proof.
  intros Hsteps. revert r.
  induction Hsteps as [d|ev tr d1 d2 d3 Hstep _ IH]; intros r Hr.
  - exists r. cbn. repeat split; [assumption | lia].
  - destruct (db_step_job _ _ _ _ _ Hstep Hr) as (r1 & Hr1 & Hm1 & Ha1).
    destruct (IH r1 Hr1) as (r2 & Hr2 & Hm2 & Ha2).
    exists r2. split; [assumption|]. split; [congruence|].
    rewrite Ha2, Ha1. unfold processing_count. cbn [List.filter].
    destruct (is_processing_of jid ev); cbn [List.length]; lia.
Qed.

Lemma result_count_snoc (jid : string) (d : Db) (row : ScanResultRow.t) :
  result_count jid (set_scan_results (scan_results d ++ [row]) d)
  = (result_count jid d
     + (if String.eqb (ScanResultRow.job_id row) jid then 1 else 0))%nat.
Proof.
  unfold result_count. cbn [scan_results set_scan_results].
  rewrite List.filter_app, List.length_app. cbn [List.filter].
  destruct (String.eqb _ jid); reflexivity.
Qed.

Lemma result_count_same (jid : string) (d d' : Db) :
  scan_results d' = scan_results d -> result_count jid d' = result_count jid d.
Proof. unfold result_count. now intros ->. Qed.

(** The effect of one event on the number of result rows of job [jid]. *)
Lemma db_step_results (ev : DbEvent) (d d' : Db) (jid : string) :
  db_step ev d d' ->
  result_count jid d'
  = (result_count jid d
     + match ev with
       | EvInsertResult id | EvComplete id => if String.eqb id jid then 1 else 0
       | _ => 0
       end)%nat.
Proof.
  intros Hstep. destruct Hstep as
      [id ofn sfn fp fsz mt cs pr t d row d' E
      |id status errorMessage t d row d' E
      |id jobId res inf tn tc td sv dv ms t d row d' E
      |id jobId res inf tn ms t d row1 d1 row2 d' E1 E2].
  - destruct (sql_insert_job_rows _ _ _ _ _ _ _ _ _ _ _ _ E)
      as (row' & _ & _ & -> & _).
    rewrite (result_count_same jid (set_jobs (<[id:=row']> (jobs d)) d) d)
      by reflexivity.
    cbv iota. lia.
  - destruct (update_job_lookup _ _ jid _ _ _ _ E) as (Hres & _).
    rewrite (result_count_same jid _ _ Hres). cbv iota. lia.
  - destruct (sql_insert_scan_result_rows _ _ _ _ _ _ _ _ _ _ _ _ _ _ E)
      as (row' & Hrow & _ & -> & Hjob & _).
    injection Hrow as <-. rewrite result_count_snoc, Hjob. reflexivity.
  - destruct (sql_insert_scan_result_rows _ _ _ _ _ _ _ _ _ _ _ _ _ _ E1)
      as (row' & Hrow & _ & -> & Hjob & _).
    injection Hrow as <-.
    destruct (update_job_lookup _ _ jid _ _ _ _ E2) as (Hres & _).
    rewrite (result_count_same jid _ _ Hres), result_count_snoc, Hjob.
    reflexivity.
Qed.

(* ===================================================================== *)
(** * 23. Committed effects of the operations                            *)
(* ===================================================================== *)

Lemma modify_same_store (f : World -> World) :
  (forall w, db (f w) = db w /\ txn (f w) = txn w) ->
  preserves same_store (modify f).
Proof. intros Hf w. exact (Hf w). Qed.

Lemma clam_scanFile_same_store (p : string) :
  preserves same_store (clam_scanFile p).
Proof.
  intros w. unfold clam_scanFile. cbn [clamd set_scans].
  destruct (clamd w) as [|[inf vs ms|m] rest]; split; reflexivity.
Qed.

Ltac preserves_store :=
  repeat first
    [ apply (preserves_ret same_store)
    | apply (preserves_throw same_store)
    | apply (preserves_lift same_store)
    | apply (preserves_get_world same_store)
    | apply io_same_store
    | apply uuidv4_same_store
    | apply clam_scanFile_same_store
    | (apply modify_same_store; intros ?; split; reflexivity)
    | (apply (preserves_bind same_store); [|intros ?])
    | (apply (preserves_try_catch same_store); [|intros ?])
    | match goal with
      | |- preserves _ (if ?b then _ else _) => destruct b
      | |- preserves _ (match ?x with _ => _ end) => destruct x
      | |- preserves _ (let '(_, _) := ?x in _) => destruct x
      end ].

Lemma fileExists_same_store (name : string) :
  preserves same_store (fileExists name).
Proof. unfold fileExists, fs_access. preserves_store. Qed.

Lemma initScanner_same_store : preserves same_store initScanner.
Proof. unfold initScanner, doInitScanner. preserves_store. Qed.

Lemma scanFile_same_store (p : string) : preserves same_store (scanFile p).
Proof.
  unfold scanFile. preserves_store.
Qed.

Lemma first_row_same_store {R} (rows : list R) :
  preserves same_store (first_row rows).
Proof. unfold first_row. preserves_store. Qed.

Section ServiceEvents.
Context (P : DbEvent -> Prop) (jid : string).

Lemma createJob_evolves (input : CreateJobInput.t) :
  (forall id, P (EvInsertJob id)) ->
  evolves (Lang P jid 0) (createJob input).
Proof.
  intros HP. unfold createJob.
  apply (evolves_bind P jid 0 0); [apply evolves_pure, uuidv4_same_store|].
  intros id. apply (evolves_bind P jid 0 0).
  - apply (evolves_query P jid _ (EvInsertJob id)); [apply HP|].
    intros t d rows d' E.
    destruct (sql_insert_job_rows _ _ _ _ _ _ _ _ _ _ _ _ E)
      as (row & -> & _).
    right. econstructor. exact E.
  - intros rows. apply evolves_pure. preserves_store.
    apply first_row_same_store.
Qed.

Lemma updateJobStatus_evolves (id : string) (status : JobStatus)
      (errorMessage : option string) :
  P (EvUpdate id status errorMessage) ->
  evolves (Lang P jid
             (if is_processing_of jid (EvUpdate id status errorMessage)
              then 1 else 0))
          (updateJobStatus id status errorMessage).
Proof.
  intros HP. unfold updateJobStatus.
  eapply evolves_mono;
    [|apply (evolves_bind P jid
               (if is_processing_of jid (EvUpdate id status errorMessage)
                then 1 else 0) 0)].
  - rewrite Nat.add_0_r. reflexivity.
  - apply (evolves_query P jid _ (EvUpdate id status errorMessage));
      [exact HP|].
    intros t d rows d' E.
    destruct (sql_update_job_rows _ _ _ _ _ _ E)
      as [(_ & -> & _) | (old & _ & Hrows & _)]; [left; reflexivity|].
    cbv zeta in Hrows. subst rows. right. econstructor. exact E.
  - intros rows. apply evolves_pure. preserves_store.
    apply first_row_same_store.
Qed.

Lemma saveScanResult_evolves (id : string) (resultData : ResultData.t) :
  P (EvInsertResult id) ->
  evolves (Lang P jid 0) (saveScanResult id resultData).
Proof.
  intros HP. unfold saveScanResult.
  apply (evolves_bind P jid 0 0); [apply evolves_pure, uuidv4_same_store|].
  intros rid. apply (evolves_bind P jid 0 0).
  - apply (evolves_query P jid _ (EvInsertResult id)); [apply HP|].
    intros t d rows d' E.
    destruct (sql_insert_scan_result_rows _ _ _ _ _ _ _ _ _ _ _ _ _ _ E)
      as (row & -> & _).
    right. econstructor. exact E.
  - intros rows. apply evolves_pure. preserves_store.
    apply first_row_same_store.
Qed.

Lemma completeJobWithResult_evolves (id : string) (sr : Completion.t) :
  P (EvComplete id) ->
  evolves (Lang P jid 0) (completeJobWithResult id sr).
Proof.
  intros HP w Hw.
  destruct (completeJobWithResult_spec id sr w Hw) as (Ht & _ & Hcases).
  split; [assumption|].
  destruct Hcases as [(e & _ & Hd) | (_ & rid & row1 & d1 & row2 & E1 & E2)].
  - exists []. split; [apply Lang_nil|]. rewrite Hd. constructor.
  - exists [EvComplete id]. split.
    + apply (Lang_single P jid (EvComplete id) HP).
    + econstructor; [|constructor]. econstructor; eassumption.
Qed.

Lemma processScanJob_evolves (job : BullJob) :
  op_events_ok P (OpProcessScanJob job) ->
  evolves (Lang P jid (requests_processing jid (OpProcessScanJob job)))
          (processScanJob job).
Proof.
  intros (HP1 & HP2 & HP3). unfold processScanJob.
  cbn [requests_processing].
  set (id := ScanJobPayload.jobId (bj_data job)) in *.
  set (n := if String.eqb id jid then 1%nat else 0%nat).
  eapply evolves_mono; [|apply (evolves_try_catch P jid n 0)].
  - rewrite Nat.add_0_r. reflexivity.
  - eapply evolves_mono; [|apply (evolves_bind P jid n 0)].
    + rewrite Nat.add_0_r. reflexivity.
    + apply (updateJobStatus_evolves id PROCESSING None HP1).
    + intros _. apply (evolves_bind P jid 0 0);
        [apply evolves_pure, fileExists_same_store|].
      intros fe. destruct (negb fe);
        [apply evolves_pure; preserves_store|].
      apply (evolves_bind P jid 0 0);
        [apply evolves_pure, initScanner_same_store|].
      intros _. apply (evolves_bind P jid 0 0);
        [apply evolves_pure, scanFile_same_store|].
      intros sr. apply completeJobWithResult_evolves. exact HP3.
  - intros e. apply (evolves_bind P jid 0 0).
    + apply (updateJobStatus_evolves id FAILED (Some (message_of e))).
      apply HP2.
    + intros _. apply evolves_pure. preserves_store.
Qed.

Lemma run_op_evolves (op : Op) (w : World) :
  op_events_ok P op -> txn w = None ->
  txn (run_op op w) = None /\
  exists tr, Lang P jid (requests_processing jid op) tr /\
             db_steps tr (db w) (db (run_op op w)).
Proof.
  intros HP Hw. destruct op as [input|id status m|id sr|id rd|job|t s f c];
    cbn [run_op requests_processing].
  - exact (createJob_evolves input HP w Hw).
  - destruct (updateJobStatus_evolves id status m HP w Hw)
      as (Ht & tr & HL & Hs).
    split; [assumption|]. exists tr. split; [|assumption].
    destruct status; exact HL.
  - exact (completeJobWithResult_evolves id sr HP w Hw).
  - exact (saveScanResult_evolves id rd HP w Hw).
  - exact (processScanJob_evolves job HP w Hw).
  - split; [exact Hw|]. exists []. split; [apply Lang_nil | constructor].
Qed.

Lemma run_ops_evolves (ops : list Op) (w : World) :
  Forall (op_events_ok P) ops -> txn w = None ->
  txn (run_ops ops w) = None /\
  exists tr, Lang P jid (processing_requests jid ops) tr /\
             db_steps tr (db w) (db (run_ops ops w)).
Proof.
  intros HF. revert w. induction HF as [|op ops Hop _ IH]; intros w Hw.
  - split; [exact Hw|]. exists []. split; [apply Lang_nil | constructor].
  - cbn [run_ops List.fold_left processing_requests List.fold_right].
    destruct (run_op_evolves op w Hop Hw) as (Ht & tr1 & HL1 & Hs1).
    destruct (IH _ Ht) as (Ht2 & tr2 & HL2 & Hs2).
    split; [exact Ht2|]. exists (tr1 ++ tr2).
    split; [now apply Lang_app | eapply db_steps_app; eassumption].
Qed.
End ServiceEvents.

(* ===================================================================== *)
(** * 24. The attempts counter                                           *)
(* ===================================================================== *)

Lemma all_events_accepted (ops : list Op) :
  Forall (op_events_ok (fun _ => True)) ops.
Proof.
  apply List.Forall_forall. intros op _.
  destruct op; cbn; auto.
Qed.

(** C1, as stated, fails: after creation and four transitions into
    [processing] (each sets the status the worker sets) the job has
    [attempts = 4] with [max_attempts = 3]. *)
Lemma attempts_exceed_max_counterexample :
  let w := run_ops [OpCreateJob sample_input;
                    OpUpdateJobStatus "job-1" PROCESSING None;
                    OpUpdateJobStatus "job-1" PROCESSING None;
                    OpUpdateJobStatus "job-1" PROCESSING None;
                    OpUpdateJobStatus "job-1" PROCESSING None]
                   sample_world in
  option_map JobRow.attempts (jobs (db w) !! "job-1") = Some 4 /\
  option_map JobRow.max_attempts (jobs (db w) !! "job-1") = Some 3 /\
  ~ attempts_invariant (db w).
Proof.
  intros w. split; [vm_compute; reflexivity|].
  split; [vm_compute; reflexivity|].
  intros H. pose proof (H "job-1") as H1.
  destruct (jobs (db w) !! "job-1") as [r|] eqn:E; vm_compute in E;
    [|discriminate].
  injection E as <-. specialize (H1 _ eq_refl). vm_compute in H1.
  apply H1. reflexivity.
Qed.

(** C1, amended.  A job is created with [attempts = 0] and
    [maxAttempts = 3].  Over any run of operations the job stays in the
    store, [maxAttempts] does not change, and [attempts] never decreases and
    grows by at most the number of requested transitions of this job into
    [processing].  Each successful [updateJobStatus(id, processing)]
    increments [attempts] by exactly one, whatever [maxAttempts] is. *)
Theorem attempts_follow_processing_requests (ops : list Op) (w : World)
    (jid : string) (r : JobRow.t) :
  txn w = None -> jobs (db w) !! jid = Some r ->
  (exists r', jobs (db (run_ops ops w)) !! jid = Some r' /\
              JobRow.max_attempts r' = JobRow.max_attempts r /\
              JobRow.attempts r <= JobRow.attempts r' /\
              JobRow.attempts r'
              <= JobRow.attempts r + Z.of_nat (processing_requests jid ops)) /\
  (forall job w',
      updateJobStatus jid PROCESSING None w = (Ok job, w') ->
      Job.attempts job = JobRow.attempts r + 1 /\
      Job.maxAttempts job = JobRow.max_attempts r /\
      option_map mapRowToJob (jobs (db w') !! jid) = Some job) /\
  (forall input job w',
      createJob input w = (Ok job, w') ->
      Job.attempts job = 0 /\ Job.maxAttempts job = 3).
Proof.
  intros Hw Hr. split; [|split].
  - destruct (run_ops_evolves (fun _ => True) jid ops w
                (all_events_accepted ops) Hw) as (_ & tr & [_ Hcount] & Hsteps).
    destruct (db_steps_job tr _ _ jid r Hsteps Hr) as (r' & Hr' & Hmax & Hatt).
    exists r'. split; [assumption|]. split; [assumption|]. lia.
  - intros job w' Hrun.
    destruct (updateJobStatus_Ok _ _ _ _ _ _ Hrun)
      as (old & Hold & Hjob & Hw' & _).
    rewrite Hr in Hold. injection Hold as <-. cbv zeta in Hjob, Hw'.
    destruct (status_updates_row (now w) r PROCESSING None)
      as (_ & _ & Hmax & Hatt & _). cbv zeta in Hmax, Hatt.
    rewrite bool_decide_eq_true_2 in Hatt by reflexivity.
    subst job. split; [exact Hatt|]. split; [exact Hmax|].
    subst w'. cbn [db set_db jobs set_jobs].
    now rewrite lookup_insert_eq.
  - intros input job w' Hrun.
    destruct (createJob_Ok _ _ _ _ Hrun) as (_ & _ & _ & Hatt & Hmax & _).
    split; assumption.
Qed.

Lemma attempts_follow_processing_requests_witness :
  exists r', jobs (db (run_ops [OpUpdateJobStatus "job-1" PROCESSING None;
                                OpUpdateJobStatus "job-1" PROCESSING None]
                               sample_job_world)) !! "job-1" = Some r' /\
             JobRow.max_attempts r' = 3 /\
             0 <= JobRow.attempts r' /\
             JobRow.attempts r' <= 0 + Z.of_nat 2.
Proof.
  exact (proj1 (attempts_follow_processing_requests
                  [OpUpdateJobStatus "job-1" PROCESSING None;
                   OpUpdateJobStatus "job-1" PROCESSING None]
                  sample_job_world "job-1"
                  sample_job_row
                  eq_refl eq_refl)).
Defined.

(* ===================================================================== *)
(** * 25. Completed jobs and their results                               *)
(* ===================================================================== *)

Lemma not_bare_events (op : Op) :
  op_bare_completion op = false ->
  op_events_ok (fun ev => bare_completion ev = false) op.
Proof.
  destruct op as [input|id status m|id sr|id rd|job|t s f c]; cbn; auto.
Qed.

Lemma store_ok_empty : store_ok (mkDb ∅ []).
Proof.
  split.
  - intros id r Hr. cbn in Hr. rewrite lookup_empty in Hr. discriminate.
  - intros row [].
Qed.

Lemma result_count_pos_snoc (jid : string) (d : Db) (row : ScanResultRow.t) :
  (result_count jid d
   <= result_count jid (set_scan_results (scan_results d ++ [row]) d))%nat.
Proof. rewrite result_count_snoc. lia. Qed.

Lemma db_step_store_ok (ev : DbEvent) (d d' : Db) :
  db_step ev d d' -> bare_completion ev = false ->
  store_ok d -> store_ok d'.
Proof.
  intros Hstep Hev [Hc Hfk]. destruct Hstep as
      [id ofn sfn fp fsz mt cs pr t d row d' E
      |id status errorMessage t d row d' E
      |id jobId res inf tn tc td sv dv ms t d row d' E
      |id jobId res inf tn ms t d row1 d1 row2 d' E1 E2].
  - destruct (sql_insert_job_rows _ _ _ _ _ _ _ _ _ _ _ _ E)
      as (row' & Hrow & Hfresh & -> & _ & Hst & _).
    injection Hrow as <-. split.
    + intros k r Hk Hs. cbn [jobs set_jobs] in Hk.
      rewrite lookup_insert in Hk. destruct (decide (id = k)) as [->|Hne].
      * injection Hk as <-. congruence.
      * rewrite (result_count_same k d (set_jobs (<[id:=row]> (jobs d)) d))
          by reflexivity.
        eauto.
    + intros r Hin. cbn [scan_results set_jobs] in Hin.
      cbn [jobs set_jobs]. rewrite lookup_insert. destruct (decide _); eauto.
  - destruct (sql_update_job_rows _ _ _ _ _ _ E)
      as [(Hnil & _) | (old & Hold & Hrows & ->)]; [discriminate|].
    cbv zeta in Hrows. injection Hrows as ->.
    destruct (status_updates_row t old status errorMessage) as (_ & Hst & _).
    cbv zeta in Hst. split.
    + intros k r Hk Hs. cbn [jobs set_jobs] in Hk.
      rewrite lookup_insert in Hk. destruct (decide (id = k)) as [->|Hne].
      * injection Hk as <-.
        assert (status = COMPLETED) as -> by (rewrite <- Hst; exact Hs).
        discriminate Hev.
      * erewrite (result_count_same k d) by reflexivity. eauto.
    + intros r Hin. cbn [scan_results set_jobs] in Hin.
      cbn [jobs set_jobs]. rewrite lookup_insert. destruct (decide _); eauto.
  - destruct (sql_insert_scan_result_rows _ _ _ _ _ _ _ _ _ _ _ _ _ _ E)
      as (row' & Hrow & Hjob & -> & Hjid & _).
    injection Hrow as <-. split.
    + intros k r Hk Hs. cbn [jobs set_scan_results] in Hk.
      pose proof (result_count_pos_snoc k d row).
      specialize (Hc k r Hk Hs). lia.
    + intros r Hin. cbn [scan_results set_scan_results] in Hin.
      cbn [jobs set_scan_results].
      apply List.in_app_or in Hin as [Hin | [<- | []]]; [eauto|].
      now rewrite Hjid.
  - destruct (sql_insert_scan_result_rows _ _ _ _ _ _ _ _ _ _ _ _ _ _ E1)
      as (row' & Hrow & Hjob & -> & Hjid & _).
    injection Hrow as <-.
    destruct (sql_update_job_rows _ _ _ _ _ _ E2)
      as [(Hnil & _) | (old & Hold & Hrows & ->)]; [discriminate|].
    cbv zeta in Hrows. injection Hrows as ->.
    cbn [jobs set_scan_results] in Hold. split.
    + intros k r Hk Hs. cbn [jobs set_jobs set_scan_results] in Hk.
      erewrite (result_count_same k
                  (set_scan_results (scan_results d ++ [row1]) d))
        by reflexivity.
      rewrite result_count_snoc, Hjid.
      rewrite lookup_insert in Hk. destruct (decide (jobId = k)) as [->|Hne].
      * rewrite String.eqb_refl. lia.
      * specialize (Hc k r Hk Hs). lia.
    + intros r Hin. cbn [scan_results set_jobs set_scan_results] in Hin.
      cbn [jobs set_jobs set_scan_results]. rewrite lookup_insert.
      destruct (decide _); [eauto|].
      apply List.in_app_or in Hin as [Hin | [<- | []]]; [eauto|].
      now rewrite Hjid.
Qed.

Lemma db_steps_store_ok (tr : list DbEvent) (d d' : Db) :
  db_steps tr d d' -> Forall (fun ev => bare_completion ev = false) tr ->
  store_ok d -> store_ok d'.
Proof.
  induction 1 as [d|ev tr d1 d2 d3 Hstep _ IH]; intros HF Hok; [assumption|].
  inversion HF; subst. apply IH; [assumption|].
  eapply db_step_store_ok; eassumption.
Qed.

(** A successful completion commits the event [EvComplete]. *)
Lemma completeJobWithResult_Ok (jobId : string) (sr : Completion.t)
      (w w' : World) :
  txn w = None -> completeJobWithResult jobId sr w = (Ok tt, w') ->
  txn w' = None /\ db_step (EvComplete jobId) (db w) (db w').
Proof.
  intros Hw Hrun.
  destruct (completeJobWithResult_spec jobId sr w Hw) as (Ht & _ & Hcases).
  rewrite Hrun in Ht, Hcases. cbn [fst snd] in *.
  split; [assumption|].
  destruct Hcases as [(e & He & _) | (_ & rid & row1 & d1 & row2 & E1 & E2)];
    [discriminate|].
  econstructor; eassumption.
Qed.

(** What [EvComplete] does to the job and to its results. *)
Lemma db_step_complete (jobId : string) (d d' : Db) :
  db_step (EvComplete jobId) d d' ->
  result_count jobId d' = S (result_count jobId d) /\
  exists old new, jobs d !! jobId = Some old /\
                  jobs d' !! jobId = Some new /\
                  JobRow.status new = COMPLETED /\
                  JobRow.attempts new = JobRow.attempts old /\
                  JobRow.max_attempts new = JobRow.max_attempts old.
Proof.
  intros Hstep. split.
  - rewrite (db_step_results _ _ _ jobId Hstep), String.eqb_refl. lia.
  - inversion Hstep as [| | |id jid res inf tn ms t d0 row1 d1 row2 d0' E1 E2];
      subst.
    destruct (sql_insert_scan_result_rows _ _ _ _ _ _ _ _ _ _ _ _ _ _ E1)
      as (row' & _ & _ & -> & _).
    destruct (update_job_lookup _ _ jobId _ _ _ _ E2)
      as (_ & old & Hold & Hrow & Hlook).
    cbn [jobs set_scan_results] in Hold.
    rewrite decide_True in Hlook by reflexivity.
    exists old, row2. split; [assumption|]. split; [assumption|].
    rewrite completion_updates in Hrow.
    destruct (status_updates_row t old COMPLETED None)
      as (_ & Hst & Hmax & Hatt & _). cbv zeta in Hst, Hmax, Hatt.
    subst row2. split; [exact Hst|]. split; [|exact Hmax].
    etransitivity; [exact Hatt|].
    rewrite bool_decide_eq_false_2 by discriminate. lia.
Qed.

(** C2, as stated, fails: when the worker processes the same entry twice,
    the job is completed and has two result rows. *)
Lemma two_results_counterexample :
  let w := run_ops [OpProcessScanJob sample_entry;
                    OpProcessScanJob sample_entry] sample_scan_world in
  option_map JobRow.status (jobs (db w) !! "job-1") = Some COMPLETED /\
  result_count "job-1" (db w) = 2%nat /\
  ~ completed_iff_one_result (db w).
Proof.
  intros w. split; [vm_compute; reflexivity|].
  split; [vm_compute; reflexivity|].
  intros H. pose proof (H "job-1") as H1.
  destruct (jobs (db w) !! "job-1") as [r|] eqn:E; vm_compute in E;
    [|discriminate].
  injection E as <-. specialize (H1 _ eq_refl).
  destruct H1 as [H1 _]. specialize (H1 eq_refl).
  vm_compute in H1. discriminate.
Qed.

(** C2, amended.  In every state reached from an empty store by
    [createJob], [saveScanResult], [completeJobWithResult], the worker's
    [processScanJob] and [updateJobStatus] to a status other than
    [completed], every job observed [completed] has at least one result row
    and every result row belongs to an existing job.  A successful
    [completeJobWithResult] adds exactly one row for the job and leaves it
    [completed], whether or not the job already had a result. *)
Theorem completed_jobs_have_results (ops : list Op) (w0 : World) :
  db w0 = mkDb ∅ [] -> txn w0 = None ->
  Forall (fun op => op_bare_completion op = false) ops ->
  (forall id r, jobs (db (run_ops ops w0)) !! id = Some r ->
                JobRow.status r = COMPLETED ->
                (1 <= result_count id (db (run_ops ops w0)))%nat) /\
  (forall row, In row (scan_results (db (run_ops ops w0))) ->
               is_Some (jobs (db (run_ops ops w0))
                          !! ScanResultRow.job_id row)) /\
  (forall jobId sr w',
      completeJobWithResult jobId sr (run_ops ops w0) = (Ok tt, w') ->
      result_count jobId (db w')
      = S (result_count jobId (db (run_ops ops w0))) /\
      option_map JobRow.status (jobs (db w') !! jobId) = Some COMPLETED).
Proof.
  intros Hdb Htx Hops.
  assert (Hok : Forall (op_events_ok (fun ev => bare_completion ev = false))
                       ops).
  { eapply Forall_impl; [exact Hops|]. apply not_bare_events. }
  destruct (run_ops_evolves _ "" ops w0 Hok Htx)
    as (Htx' & tr & [HP _] & Hsteps).
  assert (Hst : store_ok (db (run_ops ops w0))).
  { eapply db_steps_store_ok; [exact Hsteps | exact HP|].
    rewrite Hdb. apply store_ok_empty. }
  destruct Hst as [Hc Hfk].
  split; [exact Hc|]. split; [exact Hfk|].
  intros jobId sr w' Hrun.
  destruct (completeJobWithResult_Ok _ _ _ _ Htx' Hrun) as [_ Hstep].
  destruct (db_step_complete _ _ _ Hstep)
    as (Hcount & old & new & _ & Hnew & Hstatus & _).
  split; [exact Hcount|]. now rewrite Hnew, <- Hstatus.
Qed.

Lemma completed_jobs_have_results_witness :
  (1 <= result_count "job-1"
          (db (run_ops [OpCreateJob sample_input;
                        OpCompleteJobWithResult "job-1" sample_completion]
                       sample_world)))%nat.
Proof.
  eapply (proj1 (completed_jobs_have_results
                   [OpCreateJob sample_input;
                    OpCompleteJobWithResult "job-1" sample_completion]
                   sample_world eq_refl eq_refl
                   ltac:(repeat constructor))).
  - vm_compute. reflexivity.
  - reflexivity.
Defined.

(* ===================================================================== *)
(** * 26. The worker's processing path, run once and twice               *)
(* ===================================================================== *)

Lemma preserves_run {A} (m : M A) (w w' : World) (r : Result A) :
  preserves same_store m -> m w = (r, w') ->
  db w' = db w /\ txn w' = txn w.
Proof. intros Hm E. specialize (Hm w). rewrite E in Hm. exact Hm. Qed.

(** A successful run of [processScanJob] commits the transition into
    [processing] and then the completion, and nothing else. *)
Lemma processScanJob_Ok (job : BullJob) (w w' : World) :
  txn w = None -> processScanJob job w = (Ok tt, w') ->
  txn w' = None /\
  exists d1,
    db_step (EvUpdate (ScanJobPayload.jobId (bj_data job)) PROCESSING None)
            (db w) d1 /\
    db_step (EvComplete (ScanJobPayload.jobId (bj_data job))) d1 (db w').
Proof.
  intros Hw Hrun. unfold processScanJob in Hrun.
  apply try_catch_cases in Hrun as [(a & Hbody & _) | (e & w1 & _ & Hh)].
  2:{ apply bind_cases in Hh as [(e' & _ & He') | (j & w2 & _ & Hthrow)];
        discriminate. }
  destruct a. apply bind_Ok_inv in Hbody as (j & w1 & Hupd & Hrest).
  destruct (updateJobStatus_Ok _ _ _ _ _ _ Hupd) as (old & _ & _ & Hw1 & Hstep).
  assert (Ht1 : txn w1 = None) by (subst w1; exact Hw).
  apply bind_Ok_inv in Hrest as (fe & w2 & Hfe & Hrest).
  destruct (preserves_run _ _ _ _ (fileExists_same_store _) Hfe) as [Hd2 Ht2].
  destruct (negb fe); [discriminate|].
  apply bind_Ok_inv in Hrest as (u & w3 & Hinit & Hrest).
  destruct (preserves_run _ _ _ _ initScanner_same_store Hinit) as [Hd3 Ht3].
  apply bind_Ok_inv in Hrest as (sr & w4 & Hscan & Hrest).
  destruct (preserves_run _ _ _ _ (scanFile_same_store _) Hscan) as [Hd4 Ht4].
  destruct (completeJobWithResult_Ok _ _ w4 w' ltac:(congruence) Hrest)
    as [Ht' Hcomplete].
  split; [assumption|]. exists (db w1). split; [assumption|].
  replace (db w1) with (db w4) by congruence. assumption.
Qed.

(** One successful run adds one result row and one attempt. *)
Lemma processScanJob_once (job : BullJob) (w w' : World) (r : JobRow.t) :
  txn w = None ->
  jobs (db w) !! ScanJobPayload.jobId (bj_data job) = Some r ->
  processScanJob job w = (Ok tt, w') ->
  txn w' = None /\
  result_count (ScanJobPayload.jobId (bj_data job)) (db w')
    = S (result_count (ScanJobPayload.jobId (bj_data job)) (db w)) /\
  exists r', jobs (db w') !! ScanJobPayload.jobId (bj_data job) = Some r' /\
             JobRow.attempts r' = JobRow.attempts r + 1 /\
             JobRow.status r' = COMPLETED.
Proof.
  intros Hw Hr Hrun. set (id := ScanJobPayload.jobId (bj_data job)) in *.
  destruct (processScanJob_Ok job w w' Hw Hrun) as (Ht & d1 & Hs1 & Hs2).
  fold id in Hs1, Hs2. split; [assumption|].
  pose proof (db_step_results _ _ _ id Hs1) as Hc1. cbv iota in Hc1.
  destruct (db_step_complete _ _ _ Hs2)
    as (Hc2 & old & new & Hold & Hnew & Hstatus & Hatt & _).
  destruct (db_step_job _ _ _ id r Hs1 Hr) as (r1 & Hr1 & _ & Ha1).
  cbn [is_processing_of] in Ha1. rewrite String.eqb_refl in Ha1.
  split; [lia|]. exists new. split; [assumption|].
  rewrite Hr1 in Hold. injection Hold as <-. split; [lia | assumption].
Qed.

(** C3, as stated, fails: a second successful run for the same entry adds a
    second result row and a second attempt. *)
Lemma duplicate_delivery_counterexample :
  let once := snd (processScanJob sample_entry sample_scan_world) in
  let twice := snd (processScanJob sample_entry once) in
  fst (processScanJob sample_entry sample_scan_world) = Ok tt /\
  fst (processScanJob sample_entry once) = Ok tt /\
  result_count "job-1" (db once) = 1%nat /\
  result_count "job-1" (db twice) = 2%nat /\
  option_map JobRow.attempts (jobs (db once) !! "job-1") = Some 1 /\
  option_map JobRow.attempts (jobs (db twice) !! "job-1") = Some 2 /\
  db twice <> db once.
Proof.
  intros once twice. repeat split; try (vm_compute; reflexivity).
  intros H. apply (f_equal (result_count "job-1")) in H.
  vm_compute in H. discriminate.
Qed.

(** C3, amended.  [processScanJob] has no protection against a repeated
    delivery: each successful run increments [attempts] by one and inserts
    one new result row, so two successful runs for the same entry leave two
    more result rows and two more attempts than before (the second run may
    start in any state with the same store). *)
Theorem processScanJob_twice (job : BullJob) (w w1 w1' w2 : World)
    (r : JobRow.t) :
  txn w = None ->
  jobs (db w) !! ScanJobPayload.jobId (bj_data job) = Some r ->
  processScanJob job w = (Ok tt, w1) ->
  db w1' = db w1 -> txn w1' = None ->
  processScanJob job w1' = (Ok tt, w2) ->
  result_count (ScanJobPayload.jobId (bj_data job)) (db w2)
    = S (S (result_count (ScanJobPayload.jobId (bj_data job)) (db w))) /\
  exists r2, jobs (db w2) !! ScanJobPayload.jobId (bj_data job) = Some r2 /\
             JobRow.attempts r2 = JobRow.attempts r + 2 /\
             JobRow.status r2 = COMPLETED.
Proof.
  intros Hw Hr Hrun1 Hdb Htx Hrun2.
  destruct (processScanJob_once job w w1 r Hw Hr Hrun1)
    as (_ & Hc1 & r1 & Hr1 & Ha1 & _).
  rewrite <- Hdb in Hc1, Hr1.
  destruct (processScanJob_once job w1' w2 r1 Htx Hr1 Hrun2)
    as (_ & Hc2 & r2 & Hr2 & Ha2 & Hs2).
  split; [lia|]. exists r2. split; [assumption|]. split; [lia | assumption].
Qed.

Lemma processScanJob_twice_witness :
  result_count "job-1"
    (db (snd (processScanJob sample_entry
                (snd (processScanJob sample_entry sample_scan_world)))))
  = S (S (result_count "job-1" (db sample_scan_world))).
Proof.
  refine (proj1 (processScanJob_twice sample_entry sample_scan_world
                   (snd (processScanJob sample_entry sample_scan_world))
                   (snd (processScanJob sample_entry sample_scan_world))
                   (snd (processScanJob sample_entry
                           (snd (processScanJob sample_entry
                                                sample_scan_world))))
                   sample_job_row
                   _ _ _ _ _ _)); vm_compute; reflexivity.
Defined.

(* ===================================================================== *)
(** * 27. completeJobWithResult is all or nothing                        *)
(* ===================================================================== *)



Example completeJobWithResult_commits :
  let w' := snd (completeJobWithResult "job-1" sample_completion
                   sample_job_world) in
  fst (completeJobWithResult "job-1" sample_completion sample_job_world)
    = Ok tt /\
  option_map JobRow.status (jobs (db w') !! "job-1") = Some COMPLETED /\
  result_count "job-1" (db w') = 1%nat.
Proof. repeat split; vm_compute; reflexivity. Qed.

Example completeJobWithResult_rolls_back :
  (* the connection fails at the UPDATE, after the INSERT went through *)
  let w := set_faults [false; false; false; true] sample_job_world in
  let w' := snd (completeJobWithResult "job-1" sample_completion w) in
  fst (completeJobWithResult "job-1" sample_completion w)
    = Throw (JsError "Connection terminated unexpectedly") /\
  db w' = db w.
Proof. repeat split; vm_compute; reflexivity. Qed.

(* ===================================================================== *)
(** * 28. Priorities in the queue                                        *)
(* ===================================================================== *)

(** Of two prioritized entries that are both eligible, the queue serves the
    one with the numerically lower priority first, in either insertion
    order. *)
Lemma bull_next_two (t : Timestamp) (a b : BullJob) :
  bull_eligible t a = true -> bull_eligible t b = true ->
  0 < bj_priority b -> bj_priority b < bj_priority a ->
  bull_next t [a; b] = Some b /\ bull_next t [b; a] = Some b.
Proof.
  intros Ha Hb Hpos Hlt. unfold bull_next. cbn [List.fold_left].
  rewrite Ha, Hb. unfold bull_overtakes.
  assert (Ea : (bj_priority a =? 0) = false) by (apply Z.eqb_neq; lia).
  assert (Eb : (bj_priority b =? 0) = false) by (apply Z.eqb_neq; lia).
  rewrite Ea, Eb.
  assert (E1 : (bj_priority b <? bj_priority a) = true)
    by (apply Z.ltb_lt; lia).
  assert (E2 : (bj_priority a <? bj_priority b) = false)
    by (apply Z.ltb_ge; lia).
  rewrite E1, E2. split; reflexivity.
Qed.

(** [enqueueScanJob] hands the job's priority to the queue unchanged. *)
Lemma enqueueScanJob_priority (jobId filePath : string) (p : Z) (w : World) :
  List.hd false (faults w) = false ->
  List.find (fun j => String.eqb (bj_id j) jobId) (queue w) = None ->
  exists j, queue (snd (enqueueScanJob jobId filePath (Some p) None w))
            = queue w ++ [j] /\
            bj_id j = jobId /\ bj_priority j = p /\ bj_delay j = 0 /\
            bj_timestamp j = now w.
Proof.
  intros Hf Hnew. unfold enqueueScanJob, try_catch, scanQueue_add.
  rewrite !bind_eq, io_eq, Hf.
  change (queue (pop_fault w)) with (queue w). rewrite Hnew.
  cbn [fst snd queue set_queue nullish]. eexists. split; [reflexivity|].
  repeat split.
Qed.

(** C5: the code at the input of the claim.  Jobs A (priority 5) and B
    (priority 1) are submitted at the same time through the upload route.
    The store lists A before B ([getPendingJobs], priority descending), but
    the queue entries carry the same numbers and the queue delivers B
    first. *)
Theorem queue_serves_lower_number_first :
  List.map (fun j => (bj_id j, bj_priority j, bj_timestamp j))
           (queue priority_world)
    = [("job-A", 5, 1000); ("job-B", 1, 1000)] /\
  option_map bj_id (bull_next (now priority_world) (queue priority_world))
    = Some "job-B" /\
  match fst (getPendingJobs 10 priority_world) with
  | Ok pending => List.map Job.id pending = ["job-A"; "job-B"]
  | Throw _ => False
  end.
Proof. repeat split; vm_compute; reflexivity. Qed.

(* ===================================================================== *)
(** * 29. Failing a job                                                  *)
(* ===================================================================== *)

(** C6, as stated, fails: the scanner daemon is unreachable on the first
    attempt; the worker marks the job failed, and [completed_at] is set
    although one attempt of three has been used. *)
Lemma completedAt_set_with_attempts_left_counterexample :
  let w := snd (processScanJob sample_entry sample_unavailable_world) in
  exists r, jobs (db w) !! "job-1" = Some r /\
            JobRow.status r = FAILED /\
            JobRow.attempts r = 1 /\ JobRow.max_attempts r = 3 /\
            JobRow.completed_at r = Some 1000 /\
            ~ completedAt_only_when_exhausted r.
Proof.
  intros w.
  destruct (jobs (db w) !! "job-1") as [r|] eqn:E; vm_compute in E;
    [|discriminate].
  injection E as <-. eexists. split; [reflexivity|].
  repeat split.
  intros H. specialize (H eq_refl ltac:(discriminate)). vm_compute in H.
  apply H. reflexivity.
Qed.

(** C6, amended.  A successful [updateJobStatus(id, failed, message)] sets
    the status, stamps [completedAt] with the current time whether or not
    the attempts are exhausted, records the message, and leaves [attempts]
    and [maxAttempts] as they were; the stored row is retryable (failed
    with [attempts < max_attempts]) exactly when attempts remain. *)
Theorem failed_transition_sets_completedAt (jobId m : string)
    (w w' : World) (old : JobRow.t) (job : Job.t) :
  jobs (db w) !! jobId = Some old ->
  updateJobStatus jobId FAILED (Some m) w = (Ok job, w') ->
  Job.status job = FAILED /\
  Job.completedAt job = Some (now w) /\
  Job.errorMessage job = Some m /\
  Job.attempts job = JobRow.attempts old /\
  Job.maxAttempts job = JobRow.max_attempts old /\
  exists row, jobs (db w') !! jobId = Some row /\
              mapRowToJob row = job /\
              retryable row
              = (JobRow.attempts old <? JobRow.max_attempts old).
Proof.
  intros Hold Hrun.
  destruct (updateJobStatus_Ok _ _ _ _ _ _ Hrun)
    as (old' & Hold' & Hjob & Hw' & _).
  rewrite Hold in Hold'. injection Hold' as <-. cbv zeta in Hjob, Hw'.
  destruct (status_updates_row (now w) old FAILED (Some m))
    as (_ & Hst & Hmax & Hatt & Hcomp & _ & Hmsg).
  cbv zeta in Hst, Hmax, Hatt, Hcomp, Hmsg.
  rewrite bool_decide_eq_false_2 in Hatt by discriminate.
  rewrite (bool_decide_eq_true_2 (FAILED = FAILED)) in Hcomp by reflexivity.
  rewrite orb_true_r in Hcomp.
  assert (Hatt' : JobRow.attempts
                    (List.fold_left (apply_set (now w) old)
                       (status_updates FAILED (Some m)) old)
                  = JobRow.attempts old) by lia.
  subst job. split; [exact Hst|]. split; [exact Hcomp|].
  split; [exact Hmsg|]. split; [exact Hatt'|]. split; [exact Hmax|].
  eexists. subst w'. cbn [db set_db jobs set_jobs].
  rewrite lookup_insert_eq. split; [reflexivity|]. split; [reflexivity|].
  unfold retryable.
  change (JobRow.status (set_updated_at (now w) ?x)) with (JobRow.status x).
  change (JobRow.attempts (set_updated_at (now w) ?x))
    with (JobRow.attempts x).
  change (JobRow.max_attempts (set_updated_at (now w) ?x))
    with (JobRow.max_attempts x).
  rewrite Hst, Hatt', Hmax.
  rewrite bool_decide_eq_true_2 by reflexivity. reflexivity.
Qed.

Lemma failed_transition_sets_completedAt_witness :
  Job.completedAt
    (mapRowToJob
       (set_updated_at 1000
          (List.fold_left
             (apply_set 1000
                sample_job_row)
             (status_updates FAILED (Some "scan failed"))
             sample_job_row)))
  = Some (now sample_job_world).
Proof.
  refine (proj1 (proj2 (failed_transition_sets_completedAt
                          "job-1" "scan failed" sample_job_world
                          (snd (updateJobStatus "job-1" FAILED
                                  (Some "scan failed") sample_job_world))
                          _ _ _ _)));
    vm_compute; reflexivity.
Defined.

(* ===================================================================== *)
(** * 30. Creating a job                                                 *)
(* ===================================================================== *)

(** C7, as stated, fails: with [originalFilename] missing, [createJob]
    fails with a [DatabaseError], not a [ValidationError]. *)
Lemma missing_field_counterexample :
  required_missing sample_input_missing = true /\
  fst (createJob sample_input_missing sample_world)
    = Throw (DatabaseError "Database query failed") /\
  ~ (exists m, fst (createJob sample_input_missing sample_world)
               = Throw (ValidationError m)).
Proof.
  split; [reflexivity|]. split; [vm_compute; reflexivity|].
  intros [m Hm]. vm_compute in Hm. discriminate.
Qed.

(** C7, amended.  [createJob] validates nothing itself and never throws a
    [ValidationError]: a failure leaves the store unchanged, and a missing
    required field reaches the INSERT as NULL and surfaces as
    [DatabaseError].  When the call returns, the job has the identifier the
    generator produced, which was not in the store before, status
    [pending], and is the row now stored under that identifier; it does
    return whenever the connection holds, the input fits the column types
    and the identifier is not taken. *)
Theorem createJob_outcomes (input : CreateJobInput.t) (w : World) :
  (forall e w', createJob input w = (Throw e, w') ->
                code_of e <> Some VALIDATION_ERROR /\ db w' = db w) /\
  (required_missing input = true ->
   fst (createJob input w) = Throw (DatabaseError "Database query failed")) /\
  (forall job w', createJob input w = (Ok job, w') ->
                  Job.id job = entropy w (drawn w) /\
                  jobs (db w) !! Job.id job = None /\
                  Job.status job = PENDING /\
                  option_map mapRowToJob (jobs (db w') !! Job.id job)
                  = Some job /\
                  required_missing input = false) /\
  (insert_acceptable input = true ->
   List.hd false (faults w) = false ->
   jobs (db w) !! entropy w (drawn w) = None ->
   exists job w', createJob input w = (Ok job, w')).
Proof.
  rewrite createJob_eq. cbv zeta.
  destruct input as [ofn sfn fp fsz mt cs pr].
  unfold required_missing, insert_acceptable. cbn [CreateJobInput.originalFilename
    CreateJobInput.storedFilename CreateJobInput.filePath
    CreateJobInput.fileSize CreateJobInput.mimeType CreateJobInput.checksum
    CreateJobInput.priority].
  split; [|split; [|split]].
  - intros e w' H. destruct (List.hd false (faults w)).
    { injection H as <- <-. split; [discriminate | reflexivity]. }
    destruct (sql_insert_job _ _ _ _ _ _ _ _ _ _) as [[[|row rows] d]|e'] eqn:E.
    + destruct (sql_insert_job_rows _ _ _ _ _ _ _ _ _ _ _ _ E)
        as (row' & Hrow & _). discriminate.
    + discriminate.
    + injection H as <- <-. split; [discriminate | reflexivity].
  - intros Hmiss. destruct (List.hd false (faults w)); [reflexivity|].
    unfold sql_insert_job.
    destruct ofn, sfn, fp, fsz; try discriminate Hmiss; reflexivity.
  - intros job w' H.
    assert (H' : createJob (CreateJobInput.mk ofn sfn fp fsz mt cs pr) w
                 = (Ok job, w')) by (rewrite createJob_eq; exact H).
    destruct (createJob_Ok _ _ _ _ H')
      as (Hid & Hfresh & Hst & _ & _ & Hrow & Hreq).
    repeat split; assumption.
  - intros Hacc Hf Hfresh. rewrite Hf. unfold sql_insert_job.
    destruct ofn as [ofn|], sfn as [sfn|], fp as [fp|], fsz as [fsz|];
      try discriminate Hacc.
    rewrite !andb_true_iff in Hacc.
    destruct Hacc as ((((((H1 & H2) & H3) & H4) & H5) & H6) & H7).
    rewrite H1, H2, H3, H4, H5, H6, H7, Hfresh. cbn [andb negb].
    eauto.
Qed.

Lemma createJob_outcomes_witness :
  exists job w', createJob sample_input sample_world = (Ok job, w').
Proof.
  refine (proj2 (proj2 (proj2 (createJob_outcomes sample_input sample_world)))
            _ _ _); vm_compute; reflexivity.
Defined.

Example createJob_sample :
  option_map Job.status
    (match fst (createJob sample_input sample_world) with
     | Ok job => Some job
     | Throw _ => None
     end) = Some PENDING /\
  jobs (db sample_job_world) !! "job-1" = Some sample_job_row.
Proof. split; vm_compute; reflexivity. Qed.

(* ===================================================================== *)
(** * 31. An upload whose enqueueing fails                               *)
(* ===================================================================== *)

(** C8: the code at a failing input.  The job row is inserted, then the
    queue refuses the entry.  The handler deletes the stored file and
    rethrows; the job row stays in the store, [pending], with no queue
    entry and no file. *)
Theorem enqueue_failure_leaves_pending_job :
  let run := postScan sample_upload sample_stored 5 sample_upload_world in
  fst run = Throw (QueueError "Failed to add job to queue") /\
  option_map JobRow.status (jobs (db (snd run)) !! "job-1") = Some PENDING /\
  option_map JobRow.file_path (jobs (db (snd run)) !! "job-1")
    = Some "/app/uploads/1000-ab12-report.pdf" /\
  queue (snd run) = [] /\
  fs sample_upload_world !! "/app/uploads/1000-ab12-report.pdf"
    = Some sample_file /\
  fs (snd run) !! "/app/uploads/1000-ab12-report.pdf" = None.
Proof. repeat split; vm_compute; reflexivity. Qed.

(** Whenever the job was created and enqueueing failed, the row is still
    there and still [pending] when the handler has finished. *)
Lemma postScan_orphan (file : UploadedFile.t) (storedFile : StoredFile.t)
      (priority : Z) (w w1 w2 : World) (job : Job.t) (e : Exn)
      (input : CreateJobInput.t) :
  input =
    {| CreateJobInput.originalFilename := Some (UploadedFile.originalname file);
       CreateJobInput.storedFilename :=
         Some (StoredFile.storedFilename storedFile);
       CreateJobInput.filePath := Some (StoredFile.filePath storedFile);
       CreateJobInput.fileSize := Some (StoredFile.fileSize storedFile);
       CreateJobInput.mimeType := Some (UploadedFile.mimetype file);
       CreateJobInput.checksum := Some (StoredFile.checksum storedFile);
       CreateJobInput.priority := Some (Z.min (Z.max priority 0) 10) |} ->
  createJob input w = (Ok job, w1) ->
  enqueueScanJob (Job.id job) (StoredFile.filePath storedFile)
                 (Some (Job.priority job)) None w1 = (Throw e, w2) ->
  fst (postScan file storedFile priority w) = Throw e /\
  db (snd (postScan file storedFile priority w)) = db w1 /\
  queue (snd (postScan file storedFile priority w)) = queue w1 /\
  option_map Job.status
    (option_map mapRowToJob
       (jobs (db (snd (postScan file storedFile priority w))) !! Job.id job))
  = Some PENDING.
Proof.
  intros -> Hcreate Henq.
  assert (Hq2 : queue w2 = queue w1 /\ db w2 = db w1).
  { unfold enqueueScanJob, try_catch, scanQueue_add in Henq.
    rewrite !bind_eq, io_eq in Henq.
    destruct (List.hd false (faults w1)).
    - injection Henq as _ <-. split; reflexivity.
    - change (queue (pop_fault w1)) with (queue w1) in Henq.
      destruct (List.find _ (queue w1)); discriminate. }
  destruct Hq2 as [Hq2 Hd2].
  set (cleanup := try_catch (deleteFile (StoredFile.storedFilename storedFile))
                            (fun _ => ret tt)).
  assert (Hclean : exists w3, cleanup w2 = (Ok tt, w3) /\
                              db w3 = db w2 /\ queue w3 = queue w2).
  { unfold cleanup, deleteFile, try_catch. rewrite bind_eq.
    unfold get_world at 1. rewrite bind_eq. unfold lift at 1.
    destruct (getFilePath _ _ _) as [p|e1].
    - unfold fs_unlink. rewrite bind_eq, io_eq.
      destruct (List.hd false (faults w2)); [eexists; repeat split|].
      rewrite bind_eq. unfold get_world at 1.
      change (fs (pop_fault w2)) with (fs w2).
      destruct (fs w2 !! p); eexists; repeat split.
    - eexists; repeat split. }
  destruct Hclean as (w3 & Hclean & Hd3 & Hq3).
  assert (Hpost : postScan file storedFile priority w = (Throw e, w3)).
  { unfold postScan. rewrite bind_eq. unfold try_catch at 1.
    rewrite bind_eq, Hcreate, bind_eq, Henq, bind_eq.
    fold cleanup. rewrite Hclean. reflexivity. }
  rewrite Hpost. cbn [fst snd].
  split; [reflexivity|]. split; [congruence|]. split; [congruence|].
  destruct (createJob_Ok _ _ _ _ Hcreate) as (_ & _ & Hst & _ & _ & Hrow & _).
  rewrite Hd3, Hd2, Hrow. cbn. now rewrite Hst.
Qed.

(* ===================================================================== *)
(** * 32. A file that vanished before pickup                             *)
(* ===================================================================== *)

Lemma fileExists_eq (name : string) (w : World) :
  fileExists name w =
  match getFilePath (cwd w) (uploadDir w) name with
  | Throw _ => (Ok false, w)
  | Ok p =>
      if List.hd false (faults w) then (Ok false, pop_fault w)
      else match fs w !! p with
           | Some _ => (Ok true, pop_fault w)
           | None => (Ok false, pop_fault w)
           end
  end.
Proof.
  unfold fileExists, try_catch. rewrite bind_eq. unfold get_world at 1.
  rewrite bind_eq. unfold lift at 1.
  destruct (getFilePath _ _ name) as [p|e]; [|reflexivity].
  rewrite bind_eq. unfold fs_access. rewrite bind_eq, io_eq.
  destruct (List.hd false (faults w)); [reflexivity|].
  rewrite bind_eq. unfold get_world at 1.
  change (fs (pop_fault w)) with (fs w).
  destruct (fs w !! p); reflexivity.
Qed.

(** When the file is missing, [fileExists] answers [false] and touches
    nothing but the fault script. *)
Lemma fileExists_missing (filePath : string) (w : World) :
  file_missing filePath w ->
  fst (fileExists (basename filePath) w) = Ok false /\
  same_env w (snd (fileExists (basename filePath) w)) /\
  db (snd (fileExists (basename filePath) w)) = db w /\
  faults (snd (fileExists (basename filePath) w))
  = (match getFilePath (cwd w) (uploadDir w) (basename filePath) with
     | Ok _ => List.tl (faults w)
     | Throw _ => faults w
     end).
Proof.
  intros Hmiss. rewrite fileExists_eq.
  destruct (getFilePath _ _ _) as [p|e] eqn:E.
  - rewrite (Hmiss p E).
    destruct (List.hd false (faults w)); repeat split.
  - repeat split.
Qed.

Lemma updateJobStatus_frame (jobId : string) (status : JobStatus)
      (m : option string) (w : World) :
  same_env w (snd (updateJobStatus jobId status m w)) /\
  same_results w (snd (updateJobStatus jobId status m w)) /\
  faults (snd (updateJobStatus jobId status m w)) = List.tl (faults w).
Proof.
  rewrite updateJobStatus_eq. unfold same_results.
  destruct (List.hd false (faults w)); [repeat split|].
  destruct (sql_update_job _ _ _ _) as [[[|row rows] d]|e] eqn:E;
    try (repeat split; fail).
  - destruct (sql_update_job_rows _ _ _ _ _ _ E)
      as [(_ & -> & _) | (old & _ & _ & ->)]; repeat split.
  - destruct (sql_update_job_rows _ _ _ _ _ _ E)
      as [(_ & -> & _) | (old & _ & _ & ->)]; repeat split.
Qed.

(** The [catch] block of [processScanJob] always rethrows, and keeps the
    results, the files and the scanner as they are. *)
Lemma processScanJob_catch (jobId : string) (e : Exn) (w : World) :
  let run := (updateJobStatus jobId FAILED (Some (message_of e)) ;;;
              @throw unit e) w in
  (exists e', fst run = Throw e') /\
  same_env w (snd run) /\ same_results w (snd run).
Proof.
  cbv zeta. rewrite bind_eq.
  destruct (updateJobStatus_frame jobId FAILED (Some (message_of e)) w)
    as (He & Hr & _).
  destruct (updateJobStatus _ _ _ w) as [[j|e'] w1]; cbn [fst snd] in *;
    (split; [eauto|]); split; assumption.
Qed.

Lemma file_missing_same_env (filePath : string) (w w' : World) :
  same_env w w' -> file_missing filePath w -> file_missing filePath w'.
Proof.
  intros (_ & Hfs & _ & _ & _ & _ & Hcwd & Hud) Hm p Hp.
  rewrite Hcwd, Hud in Hp. rewrite Hfs. now apply Hm.
Qed.

(** The run of [processScanJob] when the file is missing: the transition
    into [processing], the existence check, then the [catch] block. *)
Lemma processScanJob_missing_eq (job : BullJob) (w : World) :
  file_missing (ScanJobPayload.filePath (bj_data job)) w ->
  processScanJob job w =
  let jobId := ScanJobPayload.jobId (bj_data job) in
  let filePath := ScanJobPayload.filePath (bj_data job) in
  match updateJobStatus jobId PROCESSING None w with
  | (Ok _, w1) =>
      let e := JsError ("File not found: " +:+ filePath) in
      (updateJobStatus jobId FAILED (Some (message_of e)) ;;; throw e)
        (snd (fileExists (basename filePath) w1))
  | (Throw e, w1) =>
      (updateJobStatus jobId FAILED (Some (message_of e)) ;;; throw e) w1
  end.
Proof.
  intros Hmiss. unfold processScanJob, try_catch. cbv zeta.
  rewrite bind_eq.
  pose proof (updateJobStatus_frame
                (ScanJobPayload.jobId (bj_data job)) PROCESSING None w)
    as (He & _).
  destruct (updateJobStatus _ PROCESSING None w) as [[j|e] w1];
    [|reflexivity].
  cbn [snd] in He. rewrite bind_eq.
  destruct (fileExists_missing _ w1 (file_missing_same_env _ _ _ He Hmiss))
    as (Hfe & _).
  destruct (fileExists _ w1) as [r w2]. cbn [fst snd] in *. subst r.
  reflexivity.
Qed.

(** C9. If the referenced file is not in storage when the worker runs, then
    whatever else fails, [processScanJob] throws, the scanner is not
    contacted (its log and its script are untouched) and no scan result is
    created.  When moreover the infrastructure answers and the job exists,
    the error thrown is "File not found: <path>" and the job row is left
    [failed] with that message. *)
Theorem missing_file_fails_job (job : BullJob) (w : World) :
  file_missing (ScanJobPayload.filePath (bj_data job)) w ->
  let jobId := ScanJobPayload.jobId (bj_data job) in
  let filePath := ScanJobPayload.filePath (bj_data job) in
  let w' := snd (processScanJob job w) in
  (exists e, fst (processScanJob job w) = Throw e) /\
  scan_results (db w') = scan_results (db w) /\
  scans w' = scans w /\ clamd w' = clamd w /\
  clamScanner w' = clamScanner w /\
  (forall row,
      faults w = [] -> jobs (db w) !! jobId = Some row ->
      JobRow.attempts row < 2147483647 ->
      -2147483648 <= JobRow.attempts row ->
      fst (processScanJob job w)
        = Throw (JsError ("File not found: " +:+ filePath)) /\
      exists row', jobs (db w') !! jobId = Some row' /\
                   JobRow.status row' = FAILED /\
                   JobRow.error_message row'
                     = Some ("File not found: " +:+ filePath) /\
                   JobRow.attempts row' = JobRow.attempts row + 1).
Proof.
  intros Hmiss. cbv zeta. rewrite (processScanJob_missing_eq job w Hmiss).
  cbv zeta.
  set (id := ScanJobPayload.jobId (bj_data job)).
  set (path := ScanJobPayload.filePath (bj_data job)) in *.
  set (err := JsError ("File not found: " +:+ path)).
  destruct (updateJobStatus_frame id PROCESSING None w) as (He1 & Hr1 & Hf1).
  split; [|split; [|split; [|split; [|split]]]].
  1-5: destruct (updateJobStatus id PROCESSING None w) as [[j|e] w1] eqn:E1;
    cbn [snd] in He1, Hr1;
    [ destruct (fileExists_missing path w1
                  (file_missing_same_env _ _ _ He1 Hmiss))
        as (_ & He2 & Hd2 & _);
      destruct (processScanJob_catch id err
                  (snd (fileExists (basename path) w1)))
        as (Hthrow & He3 & Hr3);
      cbv zeta in Hthrow, He3, Hr3
    | destruct (processScanJob_catch id e w1) as (Hthrow & He3 & Hr3);
      cbv zeta in Hthrow, He3, Hr3 ].
  1,2: exact Hthrow.
  1: { unfold same_results in *. rewrite Hr3, Hd2. exact Hr1. }
  1: { unfold same_results in *. rewrite Hr3. exact Hr1. }
  1,3,5: destruct He1 as (_&_&_&H1a&H1b&H1c&_), He2 as (_&_&_&H2a&H2b&H2c&_),
                  He3 as (_&_&_&H3a&H3b&H3c&_); congruence.
  1-3: destruct He1 as (_&_&_&H1a&H1b&H1c&_),
                He3 as (_&_&_&H3a&H3b&H3c&_); congruence.
  intros row Hfaults Hrow Hhi Hlo.
  assert (Hrange1 : int4_ok (JobRow.attempts row
                             + (if bool_decide (PROCESSING = PROCESSING)
                                then 1 else 0)) = true).
  { rewrite bool_decide_eq_true_2 by reflexivity. unfold int4_ok.
    apply andb_true_iff. split; apply Z.leb_le; lia. }
  rewrite (updateJobStatus_runs id PROCESSING None w row
             ltac:(now rewrite Hfaults) Hrow Hrange1) in *.
  cbn [snd] in He1.
  set (row1 := set_updated_at (now w)
                 (List.fold_left (apply_set (now w) row)
                                 (status_updates PROCESSING None) row)) in *.
  set (w1 := set_db (set_jobs (<[id:=row1]> (jobs (db w))) (db w))
                    (pop_fault w)) in *.
  destruct (fileExists_missing path w1
              (file_missing_same_env _ _ _ He1 Hmiss))
    as (_ & He2 & Hd2 & Hf2).
  set (w2 := snd (fileExists (basename path) w1)) in *.
  assert (Hfaults2 : faults w2 = []).
  { rewrite Hf2. change (faults w1) with (List.tl (faults w)).
    rewrite Hfaults. now destruct (getFilePath _ _ _). }
  assert (Hrow1 : jobs (db w2) !! id = Some row1).
  { rewrite Hd2. cbn [db set_db jobs set_jobs w1]. apply lookup_insert_eq. }
  destruct (status_updates_row (now w) row PROCESSING None)
    as (_ & _ & _ & Hatt1 & _). cbv zeta in Hatt1.
  rewrite bool_decide_eq_true_2 in Hatt1 by reflexivity.
  assert (Hrange2 : int4_ok (JobRow.attempts row1
                             + (if bool_decide (FAILED = PROCESSING)
                                then 1 else 0)) = true).
  { rewrite bool_decide_eq_false_2 by discriminate.
    change (JobRow.attempts row1)
      with (JobRow.attempts
              (List.fold_left (apply_set (now w) row)
                              (status_updates PROCESSING None) row)).
    rewrite Hatt1. unfold int4_ok.
    apply andb_true_iff. split; apply Z.leb_le; lia. }
  rewrite bind_eq.
  rewrite (updateJobStatus_runs id FAILED (Some (message_of err)) w2 row1
             ltac:(now rewrite Hfaults2) Hrow1 Hrange2).
  unfold throw. cbn [fst snd]. split; [reflexivity|].
  eexists. cbn [db set_db jobs set_jobs]. rewrite lookup_insert_eq.
  split; [reflexivity|].
  destruct (status_updates_row (now w2) row1 FAILED (Some (message_of err)))
    as (_ & Hst & _ & Hatt2 & _ & _ & Hmsg). cbv zeta in Hst, Hatt2, Hmsg.
  rewrite bool_decide_eq_false_2 in Hatt2 by discriminate.
  split; [exact Hst|]. split; [exact Hmsg|].
  etransitivity; [exact Hatt2|].
  change (JobRow.attempts row1)
    with (JobRow.attempts
            (List.fold_left (apply_set (now w) row)
                            (status_updates PROCESSING None) row)).
  lia.
Qed.

Lemma sample_file_is_missing :
  file_missing (ScanJobPayload.filePath (bj_data sample_entry))
               sample_job_world.
Proof. intros p _. apply lookup_empty. Qed.

Lemma missing_file_fails_job_witness :
  fst (processScanJob sample_entry sample_job_world)
  = Throw (JsError "File not found: /app/uploads/1000-ab12-report.pdf").
Proof.
  pose proof (missing_file_fails_job sample_entry sample_job_world
                sample_file_is_missing) as H.
  cbv zeta in H. destruct H as (_ & _ & _ & _ & _ & H).
  destruct (H sample_job_row eq_refl eq_refl eq_refl
              ltac:(discriminate)) as [H1 _].
  exact H1.
Defined.

Example missing_file_run :
  let w' := snd (processScanJob sample_entry sample_job_world) in
  option_map JobRow.status (jobs (db w') !! "job-1") = Some FAILED /\
  option_map JobRow.error_message (jobs (db w') !! "job-1")
    = Some (Some "File not found: /app/uploads/1000-ab12-report.pdf") /\
  scan_results (db w') = [] /\ scans w' = [].
Proof. repeat split; vm_compute; reflexivity. Qed.

(* ===================================================================== *)
(** * 33. Stored file paths stay inside the upload directory             *)
(* ===================================================================== *)

(** C10. For every input string, in a process whose working directory is
    absolute, [getFilePath] either throws the [StorageError] or returns
    [UPLOAD_DIR/name], where [name] is the base name of the input and an
    ordinary segment (non-empty, without separator, neither "." nor "..");
    the upload directory itself is an absolute path made of ordinary
    segments, so the returned path lies strictly inside it. *)
Theorem getFilePath_confined (cwd uploadDir storedFilename : string) :
  isAbsolute cwd = true ->
  getFilePath cwd uploadDir storedFilename
    = Throw (StorageError ("Invalid file path detected: " +:+ storedFilename))
  \/ exists segs name,
       Forall (fun x => normal_segment x = true) segs /\
       UPLOAD_DIR cwd uploadDir = abs_path segs /\
       name = basename storedFilename /\
       normal_segment name = true /\
       getFilePath cwd uploadDir storedFilename
         = Ok ((UPLOAD_DIR cwd uploadDir +:+ "/") +:+ name) /\
       (UPLOAD_DIR cwd uploadDir +:+ "/") +:+ name = abs_path (segs ++ [name]).
Proof.
  intros Hc. rewrite (getFilePath_cases cwd uploadDir storedFilename Hc).
  destruct (normal_segment (basename storedFilename)) eqn:En; cbn [andb];
    [|left; reflexivity].
  destruct (String.eqb (UPLOAD_DIR cwd uploadDir) "/") eqn:Eu; cbn [negb];
    [left; reflexivity|].
  right. unfold UPLOAD_DIR in *.
  destruct (path_resolve_shape cwd uploadDir Hc) as [segs [HF Hu]].
  exists segs, (basename storedFilename).
  split; [assumption|]. split; [assumption|]. split; [reflexivity|].
  split; [assumption|]. split; [reflexivity|].
  rewrite Hu. symmetry. apply abs_path_snoc.
  intros ->. rewrite Hu in Eu. discriminate.
Qed.

Lemma getFilePath_confined_witness :
  getFilePath "/app" "./uploads" "../../etc/passwd"
    = Throw (StorageError ("Invalid file path detected: " +:+ "../../etc/passwd"))
  \/ exists segs name,
       Forall (fun x => normal_segment x = true) segs /\
       UPLOAD_DIR "/app" "./uploads" = abs_path segs /\
       name = basename "../../etc/passwd" /\
       normal_segment name = true /\
       getFilePath "/app" "./uploads" "../../etc/passwd"
         = Ok ((UPLOAD_DIR "/app" "./uploads" +:+ "/") +:+ name) /\
       (UPLOAD_DIR "/app" "./uploads" +:+ "/") +:+ name
         = abs_path (segs ++ [name]).
Proof.
  apply (getFilePath_confined "/app" "./uploads" "../../etc/passwd").
  reflexivity.
Defined.

Example basename_examples :
  basename "/srv/uploads/a.txt" = "a.txt" /\
  basename "a//b///" = "b" /\
  basename "../../etc/passwd" = "passwd" /\
  basename "/" = "" /\ basename "x/.." = ".." /\ basename "" = "".
Proof. repeat split; reflexivity. Qed.

Example path_examples :
  path_resolve "/app" ["./uploads"] = "/app/uploads" /\
  path_resolve "/app" ["../x/./y/"] = "/x/y" /\
  path_resolve "/app" ["/"] = "/" /\
  path_join ["/app/uploads"; ".."] = "/app" /\
  path_join ["/app/uploads"; "f.bin"] = "/app/uploads/f.bin" /\
  path_join ["a"; ""; "../../b/"] = "../b/".
Proof. repeat split; reflexivity. Qed.

Example getFilePath_examples :
  getFilePath "/app" "./uploads" "../../etc/passwd"
    = Ok "/app/uploads/passwd" /\
  getFilePath "/app" "./uploads" ".."
    = Throw (StorageError "Invalid file path detected: ..") /\
  getFilePath "/app" "./uploads" ""
    = Throw (StorageError "Invalid file path detected: ") /\
  getFilePath "/app" "/" "a.txt"
    = Throw (StorageError "Invalid file path detected: a.txt").
Proof. repeat split; reflexivity. Qed.

(* ===================================================================== *)
(** * 34. The shape of a committed event                                 *)
(* ===================================================================== *)

Lemma sql_insert_job_fresh id ofn sfn fp fsz mt cs pr t d rows d' :
  sql_insert_job id ofn sfn fp fsz mt cs pr t d = Ok (rows, d') ->
  exists row, rows = [row] /\ jobs d !! id = None /\
              d' = mkDb (<[id := row]> (jobs d)) (scan_results d) /\
              fresh_row id t row.
Proof.
  unfold sql_insert_job, pg_error.
  destruct ofn, sfn, fp, fsz; try discriminate.
  destruct (negb _); [discriminate|].
  destruct (negb _); [discriminate|].
  destruct (jobs d !! id) eqn:Hl; [discriminate|].
  intros [= <- <-]. eexists. split; [reflexivity|].
  split; [reflexivity|]. split; [reflexivity|].
  repeat split.
Qed.

Lemma sql_insert_scan_result_fresh id jobId res inf tn tc td sv dv ms t d
      rows d' :
  sql_insert_scan_result id jobId res inf tn tc td sv dv ms t d
    = Ok (rows, d') ->
  ~ In id (List.map ScanResultRow.id (scan_results d)).
Proof.
  unfold sql_insert_scan_result, pg_error.
  destruct (negb _); [discriminate|].
  destruct (negb _); [discriminate|].
  destruct (bool_decide _) eqn:Hd; [discriminate|].
  intros _ Hin. apply bool_decide_eq_false in Hd. apply Hd.
  now apply list_elem_of_In.
Qed.

(** What each event did to the store. *)
Lemma db_step_inv (ev : DbEvent) (d d' : Db) :
  db_step ev d d' ->
  match ev with
  | EvInsertJob id =>
      exists t row, jobs d !! id = None /\ fresh_row id t row /\
                    d' = mkDb (<[id := row]> (jobs d)) (scan_results d)
  | EvUpdate id status errorMessage =>
      exists t old, jobs d !! id = Some old /\
                    d' = mkDb (<[id := updated_row t old status errorMessage]>
                                 (jobs d))
                              (scan_results d)
  | EvInsertResult jobId =>
      exists row, is_Some (jobs d !! jobId) /\
                  ScanResultRow.job_id row = jobId /\
                  ~ In (ScanResultRow.id row)
                       (List.map ScanResultRow.id (scan_results d)) /\
                  d' = mkDb (jobs d) (scan_results d ++ [row])
  | EvComplete jobId =>
      exists t old row,
        jobs d !! jobId = Some old /\
        ScanResultRow.job_id row = jobId /\
        ~ In (ScanResultRow.id row)
             (List.map ScanResultRow.id (scan_results d)) /\
        d' = mkDb (<[jobId := updated_row t old COMPLETED None]> (jobs d))
                  (scan_results d ++ [row])
  end.
Proof.
  intros Hstep. destruct Hstep as
      [id ofn sfn fp fsz mt cs pr t d row d' E
      |id status errorMessage t d row d' E
      |id jobId res inf tn tc td sv dv ms t d row d' E
      |id jobId res inf tn ms t d row1 d1 row2 d' E1 E2].
  - destruct (sql_insert_job_fresh _ _ _ _ _ _ _ _ _ _ _ _ E)
      as (row' & _ & Hnone & -> & Hfresh).
    now exists t, row'.
  - destruct (sql_update_job_rows _ _ _ _ _ _ E)
      as [(Hnil & _) | (old & Hold & _ & ->)]; [discriminate|].
    now exists t, old.
  - pose proof (sql_insert_scan_result_fresh _ _ _ _ _ _ _ _ _ _ _ _ _ _ E)
      as Hnew.
    destruct (sql_insert_scan_result_rows _ _ _ _ _ _ _ _ _ _ _ _ _ _ E)
      as (row' & _ & Hjob & -> & Hjid & Hid & _).
    exists row'. rewrite Hid. now repeat split.
  - pose proof (sql_insert_scan_result_fresh _ _ _ _ _ _ _ _ _ _ _ _ _ _ E1)
      as Hnew.
    destruct (sql_insert_scan_result_rows _ _ _ _ _ _ _ _ _ _ _ _ _ _ E1)
      as (row' & _ & Hjob & -> & Hjid & Hid & _).
    destruct (sql_update_job_rows _ _ _ _ _ _ E2)
      as [(Hnil & _) | (old & Hold & _ & ->)]; [discriminate|].
    cbn [jobs scan_results set_scan_results set_jobs] in *.
    exists t, old, row'. rewrite Hid. now repeat split.
Qed.

(** A property of the store kept by every event is kept by every trace. *)
Lemma db_steps_invariant (I : Db -> Prop) (P : DbEvent -> Prop)
      (tr : list DbEvent) (d d' : Db) :
  (forall ev a b, P ev -> db_step ev a b -> I a -> I b) ->
  db_steps tr d d' -> Forall P tr -> I d -> I d'.
Proof.
  intros Hstep Hsteps. induction Hsteps as [d|ev tr d1 d2 d3 H1 _ IH];
    intros HP Hd; [assumption|].
  apply List.Forall_cons_iff in HP as [Hev Htr].
  apply IH; [assumption|]. exact (Hstep ev d1 d2 Hev H1 Hd).
Qed.

(** A relation between the stores before and after that every event
    respects, and that is reflexive and transitive, holds along traces. *)
Lemma db_steps_relation (Q : Db -> Db -> Prop) (tr : list DbEvent)
      (d d' : Db) :
  (forall a, Q a a) -> (forall a b c, Q a b -> Q b c -> Q a c) ->
  (forall ev a b, db_step ev a b -> Q a b) ->
  db_steps tr d d' -> Q d d'.
Proof.
  intros Hrefl Htrans Hstep Hsteps.
  induction Hsteps as [d|ev tr d1 d2 d3 H1 _ IH]; [apply Hrefl|].
  eapply Htrans; [exact (Hstep _ _ _ H1) | exact IH].
Qed.

Lemma pipeline_events (op : Op) :
  pipeline_op op = true -> op_events_ok pipeline_event op.
Proof. destruct op; cbn; try discriminate; intros _; try exact I; try (intros; exact I). now repeat split. Qed.

(* ===================================================================== *)
(** * 35. Jobs keep their identity                                       *)
(* ===================================================================== *)

Lemma fold_apply_set_identity (t : Timestamp) (old : JobRow.t)
      (updates : list SetClause) (acc : JobRow.t) :
  identity_of (List.fold_left (apply_set t old) updates acc)
  = identity_of acc.
Proof.
  revert acc. induction updates as [|c updates IH]; intros acc;
    [reflexivity|].
  cbn [List.fold_left]. rewrite IH. now destruct c.
Qed.

Lemma updated_row_identity (t : Timestamp) (old : JobRow.t)
      (status : JobStatus) (errorMessage : option string) :
  identity_of (updated_row t old status errorMessage) = identity_of old.
Proof.
  unfold updated_row.
  transitivity (identity_of
                  (List.fold_left (apply_set t old)
                                  (status_updates status errorMessage) old));
    [reflexivity | apply fold_apply_set_identity].
Qed.

Lemma keeps_jobs_step (ev : DbEvent) (d d' : Db) :
  db_step ev d d' -> keeps_jobs d d'.
Proof.
  intros Hstep jid r Hr. apply db_step_inv in Hstep.
  destruct ev as [id|id status em|jobId|jobId].
  - destruct Hstep as (t & row & Hnone & _ & ->). exists r.
    cbn [jobs]. rewrite lookup_insert_ne by congruence. now split.
  - destruct Hstep as (t & old & Hold & ->). cbn [jobs].
    destruct (decide (id = jid)) as [->|Hne].
    + rewrite lookup_insert_eq. eexists. split; [reflexivity|].
      rewrite Hr in Hold. injection Hold as <-. apply updated_row_identity.
    + rewrite lookup_insert_ne by assumption. now exists r.
  - destruct Hstep as (row & _ & _ & _ & ->). now exists r.
  - destruct Hstep as (t & old & row & Hold & _ & _ & ->). cbn [jobs].
    destruct (decide (jobId = jid)) as [->|Hne].
    + rewrite lookup_insert_eq. eexists. split; [reflexivity|].
      rewrite Hr in Hold. injection Hold as <-. apply updated_row_identity.
    + rewrite lookup_insert_ne by assumption. now exists r.
Qed.

Lemma keeps_jobs_steps (tr : list DbEvent) (d d' : Db) :
  db_steps tr d d' -> keeps_jobs d d'.
Proof.
  apply db_steps_relation.
  - intros a jid r Hr. now exists r.
  - intros a b c Hab Hbc jid r Hr.
    destruct (Hab jid r Hr) as (r1 & Hr1 & E1).
    destruct (Hbc jid r1 Hr1) as (r2 & Hr2 & E2).
    exists r2. split; [assumption | congruence].
  - exact keeps_jobs_step.
Qed.

(** X1.  Whatever operations run, in whatever environment, a job that is
    in the table stays in the table, and its identifier, file names, file
    path, file size, MIME type, checksum, priority, [max_attempts] and
    [created_at] never change: no statement of the service deletes a job
    or assigns these columns. *)
Theorem job_identity_is_immutable (ops : list Op) (w : World) (jid : string)
    (r : JobRow.t) :
  txn w = None -> jobs (db w) !! jid = Some r ->
  exists r', jobs (db (run_ops ops w)) !! jid = Some r' /\
             identity_of r' = identity_of r.
Proof.
  intros Htxn Hr.
  destruct (run_ops_evolves (fun _ => True) jid ops w
              (all_events_accepted ops) Htxn) as (_ & tr & _ & Hsteps).
  exact (keeps_jobs_steps tr _ _ Hsteps jid r Hr).
Qed.

Lemma job_identity_is_immutable_witness :
  exists r', jobs (db (run_ops [OpUpdateJobStatus "job-1" PROCESSING None;
                                OpUpdateJobStatus "job-1" FAILED (Some "x")]
                               sample_job_world)) !! "job-1" = Some r' /\
             identity_of r' = identity_of sample_job_row.
Proof.
  apply (job_identity_is_immutable
           [OpUpdateJobStatus "job-1" PROCESSING None;
            OpUpdateJobStatus "job-1" FAILED (Some "x")]
           sample_job_world "job-1" sample_job_row);
    vm_compute; reflexivity.
Defined.

(* ===================================================================== *)
(** * 36. Result rows are only ever added                                *)
(* ===================================================================== *)

Lemma results_extended_step (ev : DbEvent) (d d' : Db) :
  db_step ev d d' -> results_extended d d'.
Proof.
  intros Hstep. apply db_step_inv in Hstep.
  destruct ev as [id|id status em|jobId|jobId].
  - destruct Hstep as (t & row & _ & _ & ->). exists []. cbn.
    now rewrite List.app_nil_r.
  - destruct Hstep as (t & old & _ & ->). exists []. cbn.
    now rewrite List.app_nil_r.
  - destruct Hstep as (row & _ & _ & _ & ->). now exists [row].
  - destruct Hstep as (t & old & row & _ & _ & _ & ->). now exists [row].
Qed.

Lemma results_extended_steps (tr : list DbEvent) (d d' : Db) :
  db_steps tr d d' -> results_extended d d'.
Proof.
  apply db_steps_relation.
  - intros a. exists []. now rewrite List.app_nil_r.
  - intros a b c [m1 E1] [m2 E2]. exists (m1 ++ m2).
    now rewrite E2, E1, <- List.app_assoc.
  - exact results_extended_step.
Qed.

(** X2.  The table of scan results only grows at its end: after any run
    the rows that were there are still there, unchanged and in the same
    order, so the number of results of a job never decreases.  No
    statement of the service updates or deletes a result row. *)
Theorem scan_results_append_only (ops : list Op) (w : World) :
  txn w = None ->
  (exists more, scan_results (db (run_ops ops w))
                = scan_results (db w) ++ more) /\
  (forall jid, (result_count jid (db w)
                <= result_count jid (db (run_ops ops w)))%nat).
Proof.
  intros Htxn.
  destruct (run_ops_evolves (fun _ => True) "" ops w
              (all_events_accepted ops) Htxn) as (_ & tr & _ & Hsteps).
  destruct (results_extended_steps tr _ _ Hsteps) as [more E].
  split; [now exists more|].
  intros jid. unfold result_count. rewrite E, List.filter_app, List.length_app.
  lia.
Qed.

Lemma scan_results_append_only_witness :
  exists more,
    scan_results (db (run_ops [OpProcessScanJob sample_entry]
                              sample_scan_world))
    = scan_results (db sample_scan_world) ++ more.
Proof.
  apply (scan_results_append_only [OpProcessScanJob sample_entry]
                                  sample_scan_world).
  vm_compute; reflexivity.
Defined.

(* ===================================================================== *)
(** * 37. Primary keys                                                   *)
(* ===================================================================== *)

Lemma updated_row_id (t : Timestamp) (old : JobRow.t) (status : JobStatus)
      (errorMessage : option string) :
  JobRow.id (updated_row t old status errorMessage) = JobRow.id old.
Proof.
  pose proof (updated_row_identity t old status errorMessage) as E.
  unfold identity_of in E. congruence.
Qed.

Lemma NoDup_snoc_ids (rows : list ScanResultRow.t) (row : ScanResultRow.t) :
  NoDup (List.map ScanResultRow.id rows) ->
  ~ In (ScanResultRow.id row) (List.map ScanResultRow.id rows) ->
  NoDup (List.map ScanResultRow.id (rows ++ [row])).
Proof.
  intros Hnd Hnew. rewrite List.map_app. cbn [List.map].
  apply NoDup_ListNoDup. apply List.NoDup_app.
  - now apply NoDup_ListNoDup.
  - repeat constructor. intros [].
  - intros x Hx [<-|[]]. contradiction.
Qed.

Lemma primary_keys_step (ev : DbEvent) (d d' : Db) :
  db_step ev d d' -> primary_keys_ok d -> primary_keys_ok d'.
Proof.
  intros Hstep [Hjobs Hres]. apply db_step_inv in Hstep.
  destruct ev as [id|id status em|jobId|jobId].
  - destruct Hstep as (t & row & _ & Hfresh & ->). split; [|exact Hres].
    intros k r. cbn [jobs]. destruct (decide (id = k)) as [->|Hne].
    + rewrite lookup_insert_eq. intros [= <-]. apply Hfresh.
    + rewrite lookup_insert_ne by assumption. apply Hjobs.
  - destruct Hstep as (t & old & Hold & ->). split; [|exact Hres].
    intros k r. cbn [jobs]. destruct (decide (id = k)) as [->|Hne].
    + rewrite lookup_insert_eq. intros [= <-]. rewrite updated_row_id.
      now apply Hjobs.
    + rewrite lookup_insert_ne by assumption. apply Hjobs.
  - destruct Hstep as (row & _ & _ & Hnew & ->). split; [exact Hjobs|].
    cbn [scan_results]. now apply NoDup_snoc_ids.
  - destruct Hstep as (t & old & row & Hold & _ & Hnew & ->). split.
    + intros k r. cbn [jobs]. destruct (decide (jobId = k)) as [->|Hne].
      * rewrite lookup_insert_eq. intros [= <-]. rewrite updated_row_id.
        now apply Hjobs.
      * rewrite lookup_insert_ne by assumption. apply Hjobs.
    + cbn [scan_results]. now apply NoDup_snoc_ids.
Qed.

(** X3.  The primary keys are kept by every run: each job row sits under
    its own identifier, and no two rows of [scan_results] share an
    identifier, however often [uuidv4] repeats itself (a repeated
    identifier makes the INSERT fail instead). *)
Theorem primary_keys_preserved (ops : list Op) (w : World) :
  txn w = None -> primary_keys_ok (db w) ->
  primary_keys_ok (db (run_ops ops w)).
Proof.
  intros Htxn Hok.
  destruct (run_ops_evolves (fun _ => True) "" ops w
              (all_events_accepted ops) Htxn) as (_ & tr & [HP _] & Hsteps).
  eapply (db_steps_invariant primary_keys_ok (fun _ => True));
    [|exact Hsteps|exact HP|exact Hok].
  intros ev a b _. apply primary_keys_step.
Qed.

Lemma primary_keys_preserved_witness :
  primary_keys_ok
    (db (run_ops [OpCreateJob sample_input;
                  OpCompleteJobWithResult "job-1" sample_completion;
                  OpCompleteJobWithResult "job-1" sample_completion]
                 sample_world)).
Proof.
  apply (primary_keys_preserved
           [OpCreateJob sample_input;
            OpCompleteJobWithResult "job-1" sample_completion;
            OpCompleteJobWithResult "job-1" sample_completion]
           sample_world).
  - reflexivity.
  - split; [intros id r; cbn; rewrite lookup_empty; discriminate|].
    cbn. constructor.
Defined.

(* ===================================================================== *)
(** * 38. The life cycle of a job in the pipeline                        *)
(* ===================================================================== *)

Lemma fresh_row_lifecycle (id : string) (t : Timestamp) (row : JobRow.t) :
  fresh_row id t row -> lifecycle_ok row.
Proof.
  intros (_ & Hs & Ha & Hm & He & Hst & Hc & _). unfold lifecycle_ok.
  rewrite Hs, Ha, Hm, He, Hst, Hc.
  repeat split; try lia; try congruence; intros; try discriminate;
    try (destruct H; discriminate).
Qed.

Lemma updated_row_fields (t : Timestamp) (old : JobRow.t)
      (status : JobStatus) (errorMessage : option string) :
  let new := updated_row t old status errorMessage in
  JobRow.status new = status /\
  JobRow.max_attempts new = JobRow.max_attempts old /\
  JobRow.attempts new
    = JobRow.attempts old + (if bool_decide (status = PROCESSING) then 1 else 0) /\
  JobRow.completed_at new
    = (if bool_decide (status = COMPLETED) || bool_decide (status = FAILED)
       then Some t else JobRow.completed_at old) /\
  JobRow.started_at new
    = (if bool_decide (status = PROCESSING) then Some t
       else JobRow.started_at old) /\
  JobRow.error_message new
    = (match errorMessage with
       | Some m => Some m
       | None => JobRow.error_message old
       end).
Proof.
  destruct (status_updates_row t old status errorMessage)
    as (_ & H1 & H2 & H3 & H4 & H5 & H6).
  cbv zeta in *. unfold updated_row. repeat split; assumption.
Qed.

Ltac lifecycle_cases :=
  repeat split; intros;
  repeat match goal with
         | H : _ \/ _ |- _ => destruct H
         | H : _ /\ _ |- _ => destruct H
         end;
  try discriminate; try lia; try tauto; try congruence.

Lemma updated_row_lifecycle (t : Timestamp) (old : JobRow.t)
      (status : JobStatus) (errorMessage : option string) :
  (status = PROCESSING /\ errorMessage = None) \/
  (status = FAILED /\ errorMessage <> None) \/
  (status = COMPLETED /\ errorMessage = None) ->
  lifecycle_ok old -> lifecycle_ok (updated_row t old status errorMessage).
Proof.
  intros Hcase (Hatt & Hmax & Hnc & Hst & Hpend & Hproc & Hdone & Hfail).
  destruct (updated_row_fields t old status errorMessage)
    as (Es & Em & Ea & Ec & Est & Ee). cbv zeta in *.
  unfold lifecycle_ok. rewrite Es, Em, Ea, Ec, Est, Ee.
  destruct Hcase as [[-> ->]|[[-> He]|[-> ->]]].
  - change (bool_decide (PROCESSING = PROCESSING)) with true.
    change (bool_decide (PROCESSING = COMPLETED)) with false.
    change (bool_decide (PROCESSING = FAILED)) with false.
    cbn [orb]. lifecycle_cases.
  - change (bool_decide (FAILED = PROCESSING)) with false.
    change (bool_decide (FAILED = COMPLETED)) with false.
    change (bool_decide (FAILED = FAILED)) with true.
    cbn [orb]. destruct errorMessage as [m|]; [|congruence].
    rewrite Z.add_0_r. lifecycle_cases.
  - change (bool_decide (COMPLETED = PROCESSING)) with false.
    change (bool_decide (COMPLETED = COMPLETED)) with true.
    cbn [orb]. rewrite Z.add_0_r. lifecycle_cases.
Qed.

Lemma lifecycle_step (ev : DbEvent) (d d' : Db) :
  pipeline_event ev -> db_step ev d d' ->
  (forall id r, jobs d !! id = Some r -> lifecycle_ok r) ->
  (forall id r, jobs d' !! id = Some r -> lifecycle_ok r).
Proof.
  intros Hev Hstep Hd. apply db_step_inv in Hstep.
  destruct ev as [id|id status em|jobId|jobId].
  - destruct Hstep as (t & row & _ & Hfresh & ->). intros k r. cbn [jobs].
    destruct (decide (id = k)) as [->|Hne].
    + rewrite lookup_insert_eq. intros [= <-].
      exact (fresh_row_lifecycle _ _ _ Hfresh).
    + rewrite lookup_insert_ne by assumption. apply Hd.
  - destruct Hstep as (t & old & Hold & ->). intros k r. cbn [jobs].
    destruct (decide (id = k)) as [->|Hne].
    + rewrite lookup_insert_eq. intros [= <-].
      apply updated_row_lifecycle; [|exact (Hd _ _ Hold)].
      destruct status, em; cbn in Hev; try contradiction;
        [left|right; left]; split; congruence.
    + rewrite lookup_insert_ne by assumption. apply Hd.
  - contradiction.
  - destruct Hstep as (t & old & row & Hold & _ & _ & ->). intros k r.
    cbn [jobs]. destruct (decide (jobId = k)) as [->|Hne].
    + rewrite lookup_insert_eq. intros [= <-].
      apply updated_row_lifecycle; [|exact (Hd _ _ Hold)].
      right; right. now split.
    + rewrite lookup_insert_ne by assumption. apply Hd.
Qed.

(** X4.  In a store filled by the upload route and the worker alone
    ([createJob] and [processScanJob], under any faults, clock, files and
    scanner answers) every job row satisfies: [attempts] is not negative
    and [max_attempts] is 3; the status is never [cancelled];
    [started_at] is set exactly when [attempts] is positive; a pending job
    has no attempts, no [completed_at] and no error message; a processing
    job has at least one attempt; a completed or failed job has
    [completed_at] set; a failed job has an error message. *)
Theorem pipeline_jobs_are_well_formed (ops : list Op) (w0 : World) :
  db w0 = mkDb ∅ [] -> txn w0 = None ->
  Forall (fun op => pipeline_op op = true) ops ->
  forall id r, jobs (db (run_ops ops w0)) !! id = Some r -> lifecycle_ok r.
Proof.
  intros Hdb Htxn Hops.
  assert (Hok : Forall (op_events_ok pipeline_event) ops).
  { eapply Forall_impl; [exact Hops|]. intros op. apply pipeline_events. }
  destruct (run_ops_evolves pipeline_event "" ops w0 Hok Htxn)
    as (_ & tr & [HP _] & Hsteps).
  eapply (db_steps_invariant
            (fun d => forall id r, jobs d !! id = Some r -> lifecycle_ok r)
            pipeline_event); [|exact Hsteps|exact HP|].
  - intros ev a b. apply lifecycle_step.
  - rewrite Hdb. intros id r. cbn. rewrite lookup_empty. discriminate.
Qed.

Lemma pipeline_jobs_are_well_formed_witness :
  match jobs (db (run_ops [OpCreateJob sample_input;
                           OpProcessScanJob sample_entry]
                          sample_world)) !! "job-1" with
  | Some r => lifecycle_ok r
  | None => False
  end.
Proof.
  destruct (jobs (db (run_ops [OpCreateJob sample_input;
                               OpProcessScanJob sample_entry]
                              sample_world)) !! "job-1") as [r|] eqn:E.
  - apply (pipeline_jobs_are_well_formed
             [OpCreateJob sample_input; OpProcessScanJob sample_entry]
             sample_world eq_refl eq_refl
             ltac:(repeat constructor) "job-1" r E).
  - vm_compute in E. discriminate.
Defined.

(* ===================================================================== *)
(** * 39. Looking jobs up                                                *)
(* ===================================================================== *)

Lemma getJobById_eq (jobId : string) (w : World) :
  getJobById jobId w =
  if List.hd false (faults w)
  then (Throw (DatabaseError "Database query failed"), pop_fault w)
  else (Ok (option_map mapRowToJob (jobs (db w) !! jobId)), pop_fault w).
Proof.
  unfold getJobById, queryOne. rewrite !bind_eq, query_eq.
  destruct (List.hd false (faults w)); [reflexivity|].
  unfold sql_select_job. destruct (jobs (db w) !! jobId); reflexivity.
Qed.

Lemma getJobByIdOrThrow_eq (jobId : string) (w : World) :
  getJobByIdOrThrow jobId w =
  if List.hd false (faults w)
  then (Throw (DatabaseError "Database query failed"), pop_fault w)
  else match jobs (db w) !! jobId with
       | Some r => (Ok (mapRowToJob r), pop_fault w)
       | None => (Throw (NotFoundError "Job" jobId), pop_fault w)
       end.
Proof.
  unfold getJobByIdOrThrow. rewrite bind_eq, getJobById_eq.
  destruct (List.hd false (faults w)); [reflexivity|].
  destruct (jobs (db w) !! jobId); reflexivity.
Qed.



(** X6.  A job returned by [createJob] can be read back: as long as the
    database answers, [getJobById] and [getJobByIdOrThrow] called with its
    identifier return exactly the job [createJob] returned, and reading
    does not change the store. *)
Theorem createJob_then_getJobById (input : CreateJobInput.t) (w w' : World)
    (job : Job.t) :
  createJob input w = (Ok job, w') ->
  List.hd false (faults w') = false ->
  fst (getJobById (Job.id job) w') = Ok (Some job) /\
  fst (getJobByIdOrThrow (Job.id job) w') = Ok job /\
  db (snd (getJobById (Job.id job) w')) = db w' /\
  db (snd (getJobByIdOrThrow (Job.id job) w')) = db w'.
Proof.
  intros Hcreate Hfault.
  destruct (createJob_Ok _ _ _ _ Hcreate) as (_ & _ & _ & _ & _ & Hl & _).
  rewrite getJobById_eq, getJobByIdOrThrow_eq, Hfault.
  destruct (jobs (db w') !! Job.id job) as [r|]; [|discriminate].
  injection Hl as <-. repeat split.
Qed.

Lemma createJob_then_getJobById_witness :
  fst (getJobById "job-1" sample_job_world)
  = Ok (Some (mapRowToJob sample_job_row)).
Proof.
  refine (proj1 (createJob_then_getJobById sample_input sample_world
                   sample_job_world (mapRowToJob sample_job_row) _ _));
    vm_compute; reflexivity.
Defined.

(* ===================================================================== *)
(** * 40. ORDER BY and LIMIT                                             *)
(* ===================================================================== *)

Section OrderBy.
Context {A : Type} (before : A -> A -> bool).

Lemma insert_by_In (x y : A) (l : list A) :
  In y (insert_by before x l) <-> y = x \/ In y l.
Proof.
  induction l as [|z l IH]; cbn.
  - intuition congruence.
  - destruct (before z x); cbn; [rewrite IH|]; intuition congruence.
Qed.

Lemma order_by_In (y : A) (l : list A) :
  In y (order_by before l) <-> In y l.
Proof.
  induction l as [|x l IH]; cbn; [tauto|].
  fold (order_by before l). rewrite insert_by_In, IH.
  intuition congruence.
Qed.

Lemma order_by_length (l : list A) :
  List.length (order_by before l) = List.length l.
Proof.
  induction l as [|x l IH]; cbn; [reflexivity|].
  fold (order_by before l). rewrite <- IH.
  generalize (order_by before l) as s. intros s.
  induction s as [|z s IHs]; cbn; [reflexivity|].
  destruct (before z x); cbn; [now rewrite IHs | reflexivity].
Qed.

Hypothesis before_total : forall a b, before a b = true \/ before b a = true.
Hypothesis before_trans :
  forall a b c, before a b = true -> before b c = true -> before a c = true.

Lemma insert_by_sorted (x : A) (l : list A) :
  StronglySorted (fun a b => before a b = true) l ->
  StronglySorted (fun a b => before a b = true) (insert_by before x l).
Proof.
  induction 1 as [|z l Hl IH Hz]; cbn.
  - repeat constructor.
  - destruct (before z x) eqn:Hzx.
    + constructor; [exact IH|].
      apply List.Forall_forall. intros y Hy.
      apply insert_by_In in Hy as [->|Hy]; [assumption|].
      exact (proj1 (List.Forall_forall _ _) Hz y Hy).
    + assert (Hxz : before x z = true).
      { destruct (before_total x z); congruence. }
      constructor; [now constructor|].
      constructor; [assumption|].
      apply List.Forall_forall. intros y Hy.
      apply (before_trans x z y Hxz).
      exact (proj1 (List.Forall_forall _ _) Hz y Hy).
Qed.

Lemma order_by_sorted (l : list A) :
  StronglySorted (fun a b => before a b = true) (order_by before l).
Proof.
  induction l as [|x l IH]; cbn; [constructor|].
  now apply insert_by_sorted.
Qed.
End OrderBy.

Lemma In_firstn {A} (n : nat) (l : list A) (x : A) :
  In x (List.firstn n l) -> In x l.
Proof.
  revert n. induction l as [|y l IH]; intros [|n]; cbn; try tauto.
  intros [->|H]; [now left | right; exact (IH n H)].
Qed.

Lemma StronglySorted_firstn {A} (R : A -> A -> Prop) (n : nat) (l : list A) :
  StronglySorted R l -> StronglySorted R (List.firstn n l).
Proof.
  intros H. revert n. induction H as [|x l Hl IH Hx]; intros [|n]; cbn;
    try constructor.
  - apply IH.
  - apply List.Forall_forall. intros y Hy.
    apply In_firstn in Hy.
    exact (proj1 (List.Forall_forall _ _) Hx y Hy).
Qed.

Lemma StronglySorted_map {A B} (f : A -> B) (R : B -> B -> Prop)
      (l : list A) :
  StronglySorted (fun a b => R (f a) (f b)) l ->
  StronglySorted R (List.map f l).
Proof.
  induction 1 as [|x l Hl IH Hx]; cbn; constructor; [assumption|].
  apply List.Forall_forall. intros y Hy.
  apply List.in_map_iff in Hy as (a & <- & Ha).
  exact (proj1 (List.Forall_forall _ _) Hx a Ha).
Qed.

Lemma StronglySorted_impl {A} (R S : A -> A -> Prop) (l : list A) :
  (forall a b, R a b -> S a b) -> StronglySorted R l -> StronglySorted S l.
Proof.
  intros HRS. induction 1 as [|x l Hl IH Hx]; constructor; [assumption|].
  eapply List.Forall_impl; [|exact Hx]. intros a. apply HRS.
Qed.

Lemma table_rows_In (d : Db) (r : JobRow.t) :
  In r (table_rows d) <-> exists id, jobs d !! id = Some r.
Proof.
  unfold table_rows. rewrite List.in_map_iff. split.
  - intros ([id r'] & <- & Hin). exists id.
    apply list_elem_of_In in Hin. now apply elem_of_map_to_list in Hin.
  - intros [id Hid]. exists (id, r). split; [reflexivity|].
    apply list_elem_of_In. now apply elem_of_map_to_list.
Qed.

(** The rows a [SELECT ... WHERE keep ORDER BY before LIMIT limit] over
    table [jobs] returns. *)
Lemma select_ordered (keep : JobRow.t -> bool)
      (before : JobRow.t -> JobRow.t -> bool) (limit : Z) (d : Db)
      (rows : list JobRow.t) :
  (forall a b, before a b = true \/ before b a = true) ->
  (forall a b c, before a b = true -> before b c = true ->
                 before a c = true) ->
  sql_limit limit (order_by before (List.filter keep (table_rows d)))
    = Ok rows ->
  0 <= limit /\
  (List.length rows <= Z.to_nat limit)%nat /\
  StronglySorted (fun a b => before a b = true) rows /\
  (forall r, In r rows ->
             keep r = true /\ exists id, jobs d !! id = Some r) /\
  (forall id r, (size (jobs d) <= Z.to_nat limit)%nat ->
                jobs d !! id = Some r -> keep r = true -> In r rows).
Proof.
  intros Htotal Htrans. unfold sql_limit, pg_error.
  destruct (limit <? 0) eqn:Hneg; [discriminate|]. intros [= <-].
  apply Z.ltb_ge in Hneg.
  split; [assumption|]. split; [apply List.firstn_le_length|].
  split; [apply StronglySorted_firstn, order_by_sorted; assumption|].
  split.
  - intros r Hr. apply In_firstn, order_by_In, List.filter_In in Hr.
    destruct Hr as [Hr Hk]. split; [assumption|]. now apply table_rows_In.
  - intros id r Hsize Hid Hk. rewrite List.firstn_all2.
    + apply order_by_In, List.filter_In. split; [|assumption].
      apply table_rows_In. now exists id.
    + rewrite order_by_length.
      etransitivity; [apply List.filter_length_le|].
      unfold table_rows. rewrite List.length_map.
      change (List.length (map_to_list (jobs d))) with
        (length (map_to_list (jobs d))).
      rewrite length_map_to_list. exact Hsize.
Qed.

Lemma pending_before_total (a b : JobRow.t) :
  pending_before a b = true \/ pending_before b a = true.
Proof.
  unfold pending_before.
  destruct (Z.ltb_spec (JobRow.priority b) (JobRow.priority a));
    [now left|].
  destruct (Z.ltb_spec (JobRow.priority a) (JobRow.priority b));
    [now right|].
  assert (E : JobRow.priority a = JobRow.priority b) by lia.
  rewrite E, Z.eqb_refl. cbn.
  destruct (Z.leb_spec (JobRow.created_at a) (JobRow.created_at b));
    [now left|right]. apply Z.leb_le. lia.
Qed.

Lemma pending_before_spec (a b : JobRow.t) :
  pending_before a b = true <->
  JobRow.priority b < JobRow.priority a \/
  (JobRow.priority a = JobRow.priority b /\
   JobRow.created_at a <= JobRow.created_at b).
Proof.
  unfold pending_before.
  rewrite orb_true_iff, andb_true_iff, Z.ltb_lt, Z.eqb_eq, Z.leb_le.
  reflexivity.
Qed.

Lemma pending_before_trans (a b c : JobRow.t) :
  pending_before a b = true -> pending_before b c = true ->
  pending_before a c = true.
Proof. rewrite !pending_before_spec. lia. Qed.

(** X7.  [getPendingJobs limit], when it returns, returns at most [limit]
    jobs, all of them pending jobs of the table, ordered by priority
    (higher number first) and, within one priority, by creation time
    (older first); it returns every pending job when the table has no
    more than [limit] rows; and it leaves the store as it was.  A negative
    [limit] makes it throw. *)
Theorem getPendingJobs_ordered (limit : Z) (w w' : World)
    (pending : list Job.t) :
  getPendingJobs limit w = (Ok pending, w') ->
  0 <= limit /\
  (List.length pending <= Z.to_nat limit)%nat /\
  StronglySorted
    (fun a b => Job.priority b < Job.priority a \/
                (Job.priority a = Job.priority b /\
                 Job.createdAt a <= Job.createdAt b)) pending /\
  (forall job, In job pending ->
     Job.status job = PENDING /\
     exists id r, jobs (db w) !! id = Some r /\ job = mapRowToJob r) /\
  (forall id r, (size (jobs (db w)) <= Z.to_nat limit)%nat ->
                jobs (db w) !! id = Some r -> JobRow.status r = PENDING ->
                In (mapRowToJob r) pending) /\
  db w' = db w.
Proof.
  unfold getPendingJobs. intros Hrun.
  apply bind_Ok_inv in Hrun as (rows & w1 & Hq & Hret).
  injection Hret as <- <-. rewrite query_eq in Hq.
  destruct (List.hd false (faults w)); [discriminate|].
  unfold sql_select_pending in Hq.
  destruct (sql_limit limit _) as [rows'|e] eqn:Hsel; [|discriminate].
  injection Hq as <- <-.
  destruct (select_ordered _ _ _ _ _ pending_before_total
              pending_before_trans Hsel)
    as (Hlim & Hlen & Hsorted & Hsound & Hcomplete).
  split; [assumption|]. split; [now rewrite List.length_map|].
  split.
  - apply StronglySorted_map.
    eapply StronglySorted_impl; [|exact Hsorted].
    intros a b Hab. now apply pending_before_spec in Hab.
  - split; [|split; [|reflexivity]].
    + intros job Hjob. apply List.in_map_iff in Hjob as (r & <- & Hr).
      destruct (Hsound r Hr) as (Hk & id & Hid).
      apply bool_decide_eq_true in Hk. split; [exact Hk|].
      now exists id, r.
    + intros id r Hsize Hid Hst. apply List.in_map.
      apply (Hcomplete id r Hsize Hid). now apply bool_decide_eq_true.
Qed.

Lemma getPendingJobs_ordered_witness :
  0 <= 10 /\
  (List.length [mapRowToJob sample_job_row] <= Z.to_nat 10)%nat.
Proof.
  pose proof (getPendingJobs_ordered 10 sample_job_world
                (pop_fault sample_job_world) [mapRowToJob sample_job_row]
                ltac:(vm_compute; reflexivity)) as H.
  exact (conj (proj1 H) (proj1 (proj2 H))).
Defined.

Lemma updated_at_before_total (a b : JobRow.t) :
  (JobRow.updated_at a <=? JobRow.updated_at b) = true \/
  (JobRow.updated_at b <=? JobRow.updated_at a) = true.
Proof. rewrite !Z.leb_le. lia. Qed.

Lemma updated_at_before_trans (a b c : JobRow.t) :
  (JobRow.updated_at a <=? JobRow.updated_at b) = true ->
  (JobRow.updated_at b <=? JobRow.updated_at c) = true ->
  (JobRow.updated_at a <=? JobRow.updated_at c) = true.
Proof. rewrite !Z.leb_le. lia. Qed.

(** X8.  [getRetryableJobs limit], when it returns, returns at most
    [limit] jobs, each a failed job of the table with fewer attempts than
    [maxAttempts], ordered by [updatedAt] (oldest first); a failed job
    whose attempts are used up is never returned; the store is left as it
    was. *)
Theorem getRetryableJobs_sound (limit : Z) (w w' : World)
    (retry : list Job.t) :
  getRetryableJobs limit w = (Ok retry, w') ->
  (List.length retry <= Z.to_nat limit)%nat /\
  StronglySorted (fun a b => Job.updatedAt a <= Job.updatedAt b) retry /\
  (forall job, In job retry ->
     Job.status job = FAILED /\ Job.attempts job < Job.maxAttempts job /\
     exists id r, jobs (db w) !! id = Some r /\ job = mapRowToJob r) /\
  (forall id r, (size (jobs (db w)) <= Z.to_nat limit)%nat ->
                jobs (db w) !! id = Some r -> JobRow.status r = FAILED ->
                JobRow.attempts r < JobRow.max_attempts r ->
                In (mapRowToJob r) retry) /\
  db w' = db w.
Proof.
  unfold getRetryableJobs. intros Hrun.
  apply bind_Ok_inv in Hrun as (rows & w1 & Hq & Hret).
  injection Hret as <- <-. rewrite query_eq in Hq.
  destruct (List.hd false (faults w)); [discriminate|].
  unfold sql_select_retryable in Hq.
  destruct (sql_limit limit _) as [rows'|e] eqn:Hsel; [|discriminate].
  injection Hq as <- <-.
  destruct (select_ordered _ _ _ _ _ updated_at_before_total
              updated_at_before_trans Hsel)
    as (Hlim & Hlen & Hsorted & Hsound & Hcomplete).
  split; [now rewrite List.length_map|].
  split.
  - apply StronglySorted_map.
    eapply StronglySorted_impl; [|exact Hsorted].
    intros a b Hab. now apply Z.leb_le in Hab.
  - split; [|split; [|reflexivity]].
    + intros job Hjob. apply List.in_map_iff in Hjob as (r & <- & Hr).
      destruct (Hsound r Hr) as (Hk & id & Hid).
      unfold retryable in Hk. apply andb_true_iff in Hk as [Hs Ha].
      apply bool_decide_eq_true in Hs. apply Z.ltb_lt in Ha.
      split; [exact Hs|]. split; [exact Ha|]. now exists id, r.
    + intros id r Hsize Hid Hst Hatt. apply List.in_map.
      apply (Hcomplete id r Hsize Hid). unfold retryable.
      apply andb_true_iff. split; [now apply bool_decide_eq_true|].
      now apply Z.ltb_lt.
Qed.

Lemma getRetryableJobs_sound_witness :
  match getRetryableJobs 10 sample_failed_world with
  | (Ok retry, _) => (List.length retry <= Z.to_nat 10)%nat
  | (Throw _, _) => False
  end.
Proof.
  destruct (getRetryableJobs 10 sample_failed_world) as [[retry|e] w']
    eqn:E.
  - exact (proj1 (getRetryableJobs_sound 10 sample_failed_world w' retry E)).
  - vm_compute in E. discriminate.
Defined.

(* ===================================================================== *)
(** * 41. Results: saving and reading back                               *)
(* ===================================================================== *)

Lemma saveScanResult_eq (jobId : string) (rd : ResultData.t) (w : World) :
  saveScanResult jobId rd w =
  let w0 := pop_fault (set_drawn (S (drawn w)) w) in
  if List.hd false (faults w)
  then (Throw (DatabaseError "Database query failed"), w0)
  else
    match sql_insert_scan_result (entropy w (drawn w)) jobId
            (ResultData.result rd) (ResultData.isInfected rd)
            (ResultData.threatName rd) (ResultData.threatCategory rd)
            (ResultData.threatDescription rd) (ResultData.scannerVersion rd)
            (ResultData.definitionVersion rd) (ResultData.scanDurationMs rd)
            (now w) (db w) with
    | Ok (row :: _, d) => (Ok (mapRowToScanResult row), set_db d w0)
    | Ok ([], d) =>
        (Throw (JsError "Cannot read properties of undefined"), set_db d w0)
    | Throw _ => (Throw (DatabaseError "Database query failed"), w0)
    end.
Proof.
  unfold saveScanResult. rewrite bind_eq. unfold uuidv4 at 1.
  rewrite bind_eq, query_eq. cbn [faults set_drawn now db entropy drawn].
  destruct (List.hd false (faults w)); [reflexivity|].
  destruct (sql_insert_scan_result _ _ _ _ _ _ _ _ _ _ _ _)
    as [[[|row rows] d]|e]; reflexivity.
Qed.

(** X9.  [saveScanResult] never touches table [jobs] (in particular it
    does not complete the job).  When it returns, the job exists and the
    table of results has exactly one more row, at its end, carrying the
    job identifier, the data passed in and the time of the call.  When it
    throws, the store is unchanged, and it throws whenever the job does
    not exist. *)
Theorem saveScanResult_effect (jobId : string) (rd : ResultData.t)
    (w : World) :
  let run := saveScanResult jobId rd w in
  jobs (db (snd run)) = jobs (db w) /\
  (forall sr, fst run = Ok sr ->
     is_Some (jobs (db w) !! jobId) /\
     (exists row, scan_results (db (snd run)) = scan_results (db w) ++ [row]
                  /\ mapRowToScanResult row = sr) /\
     sr = {| ScanResult.id := entropy w (drawn w);
             ScanResult.jobId := jobId;
             ScanResult.result := ResultData.result rd;
             ScanResult.isInfected := ResultData.isInfected rd;
             ScanResult.threatName := ResultData.threatName rd;
             ScanResult.threatCategory := ResultData.threatCategory rd;
             ScanResult.threatDescription := ResultData.threatDescription rd;
             ScanResult.scannerVersion := ResultData.scannerVersion rd;
             ScanResult.definitionVersion := ResultData.definitionVersion rd;
             ScanResult.scanDurationMs := ResultData.scanDurationMs rd;
             ScanResult.scannedAt := now w |}) /\
  (forall e, fst run = Throw e ->
     e = DatabaseError "Database query failed" /\ db (snd run) = db w) /\
  (jobs (db w) !! jobId = None ->
   fst run = Throw (DatabaseError "Database query failed")).
Proof.
  cbv zeta. rewrite saveScanResult_eq. cbv zeta.
  destruct (List.hd false (faults w)).
  { repeat split; try discriminate. cbn in H. congruence. }
  unfold sql_insert_scan_result, pg_error.
  destruct (negb _).
  { repeat split; try discriminate. cbn in H. congruence. }
  destruct (negb _).
  { repeat split; try discriminate. cbn in H. congruence. }
  destruct (bool_decide _).
  { repeat split; try discriminate. cbn in H. congruence. }
  destruct (jobs (db w) !! jobId) as [job|] eqn:Hjob.
  - cbn [fst snd db set_db jobs scan_results set_scan_results].
    repeat split; try discriminate.
    + now exists job.
    + eexists. split; [reflexivity|]. now injection H as <-.
    + now injection H as <-.
  - repeat split; try discriminate. cbn in H. congruence.
Qed.

Lemma getScanResultByJobId_eq (jobId : string) (w : World) :
  getScanResultByJobId jobId w =
  if List.hd false (faults w)
  then (Throw (DatabaseError "Database query failed"), pop_fault w)
  else (Ok (option_map mapRowToScanResult
              (List.head
                 (List.filter
                    (fun r => String.eqb (ScanResultRow.job_id r) jobId)
                    (scan_results (db w))))),
        pop_fault w).
Proof.
  unfold getScanResultByJobId, queryOne. rewrite !bind_eq, query_eq.
  destruct (List.hd false (faults w)); reflexivity.
Qed.

(** X10.  Reading back a completion: when [completeJobWithResult] returns
    for a job that had no result yet, [getScanResultByJobId] (with the
    database answering) returns a result with the job's identifier, the
    type, infection flag, threat name and duration that were passed in,
    the time of the completion, and no category, description or versions;
    and [getJobById] shows the job completed. *)
Theorem completeJobWithResult_then_read (jobId : string)
    (sr : Completion.t) (w w' : World) :
  txn w = None -> result_count jobId (db w) = 0%nat ->
  completeJobWithResult jobId sr w = (Ok tt, w') ->
  List.hd false (faults w') = false ->
  (exists id,
     fst (getScanResultByJobId jobId w')
     = Ok (Some {| ScanResult.id := id;
                   ScanResult.jobId := jobId;
                   ScanResult.result := Completion.result sr;
                   ScanResult.isInfected := Completion.isInfected sr;
                   ScanResult.threatName := Completion.threatName sr;
                   ScanResult.threatCategory := None;
                   ScanResult.threatDescription := None;
                   ScanResult.scannerVersion := None;
                   ScanResult.definitionVersion := None;
                   ScanResult.scanDurationMs := Completion.scanDurationMs sr;
                   ScanResult.scannedAt := now w |})) /\
  (exists job, fst (getJobById jobId w') = Ok (Some job) /\
               Job.status job = COMPLETED /\
               Job.completedAt job = Some (now w)).
Proof.
  intros Htxn Hcount Hrun Hfault.
  destruct (completeJobWithResult_spec jobId sr w Htxn)
    as (_ & _ & [(e & He & _) | (_ & id & row1 & d1 & row2 & E1 & E2)]).
  { rewrite Hrun in He. discriminate. }
  rewrite Hrun in E2. cbn [snd] in E2.
  destruct (update_job_lookup _ _ jobId _ _ _ _ E2)
    as (Hres & old & Hold & Hrow2 & Hlook).
  rewrite getScanResultByJobId_eq, getJobById_eq, Hfault. split.
  - exists id. rewrite Hres. revert E1.
    unfold sql_insert_scan_result, pg_error.
    destruct (negb _); [discriminate|].
    destruct (negb _); [discriminate|].
    destruct (bool_decide _); [discriminate|].
    destruct (jobs (db w) !! jobId); [|discriminate].
    intros [= <- <-]. cbn [scan_results set_scan_results].
    rewrite List.filter_app.
    unfold result_count in Hcount.
    apply List.length_zero_iff_nil in Hcount. rewrite Hcount.
    cbn [List.filter List.app ScanResultRow.job_id].
    rewrite String.eqb_refl. reflexivity.
  - rewrite Hlook. destruct (decide (jobId = jobId)); [|congruence].
    eexists. split; [reflexivity|].
    rewrite completion_updates in Hrow2.
    destruct (status_updates_row (now w) old COMPLETED None)
      as (_ & Hs & _ & _ & Hc & _). cbv zeta in Hs, Hc.
    subst row2. split; [exact Hs | exact Hc].
Qed.

Lemma completeJobWithResult_then_read_witness :
  exists job,
    fst (getJobById "job-1"
           (snd (completeJobWithResult "job-1" sample_completion
                   sample_job_world)))
    = Ok (Some job) /\
    Job.status job = COMPLETED /\
    Job.completedAt job = Some (now sample_job_world).
Proof.
  refine (proj2 (completeJobWithResult_then_read "job-1" sample_completion
                   sample_job_world
                   (snd (completeJobWithResult "job-1" sample_completion
                           sample_job_world)) _ _ _ _));
    vm_compute; reflexivity.
Defined.

(* ===================================================================== *)
(** * 42. db/client.ts: errors and transactions                          *)
(* ===================================================================== *)

(** X11.  [query] hides every driver error behind one [DatabaseError]
    "Database query failed" (status 500), and a query that throws leaves
    the store unchanged; a query that returns has run its statement on the
    committed store.  [queryOne] returns the first row or null. *)
Theorem query_hides_driver_errors (R : Type) (stmt : Stmt R) (w : World) :
  match fst (query stmt w) with
  | Ok rows =>
      stmt (now w) (db w) = Ok (rows, db (snd (query stmt w))) /\
      fst (queryOne stmt w) = Ok (List.head rows)
  | Throw e =>
      e = AppError "Database query failed" 500 DATABASE_ERROR /\
      db (snd (query stmt w)) = db w /\
      fst (queryOne stmt w) = Throw e
  end /\
  txn (snd (query stmt w)) = txn w /\
  same_env w (snd (query stmt w)).
Proof.
  unfold queryOne. rewrite bind_eq, query_eq.
  destruct (List.hd false (faults w)).
  { repeat split. }
  destruct (stmt (now w) (db w)) as [[rows d]|e]; repeat split.
Qed.

(** X12.  [withTransaction] is all or nothing for any callback that works
    inside the transaction it is given: it always ends with the client
    released and no transaction open; when it throws, the committed store
    is exactly what it was; when it returns, the committed store is the
    working copy the callback left behind. *)
Theorem withTransaction_all_or_nothing (T : Type) (fn : M T) (w : World) :
  txn w = None -> txn_local fn ->
  let run := withTransaction fn w in
  txn (snd run) = None /\
  (forall e, fst run = Throw e -> db (snd run) = db w) /\
  (forall a, fst run = Ok a ->
     exists w2,
       fn (set_txn (Some (db w)) (pop_fault (pop_fault w))) = (Ok a, w2) /\
       txn w2 = Some (db (snd run))).
Proof.
  intros Htxn Hlocal. cbv zeta.
  destruct (withTransaction_spec fn w Htxn Hlocal)
    as (H1 & _ & [(e & He & Hdb) | (a & w2 & Ha & Hfn & Hw2)]).
  - split; [assumption|]. split; [now intros|].
    intros a Ha. rewrite He in Ha. discriminate.
  - split; [assumption|]. split.
    + intros e He. rewrite Ha in He. discriminate.
    + intros a' Ha'. rewrite Ha in Ha'. injection Ha' as <-. now exists w2.
Qed.

Lemma withTransaction_all_or_nothing_witness :
  txn (snd (withTransaction (completion_txn "job-1" sample_completion)
              sample_job_world)) = None.
Proof.
  refine (proj1 (withTransaction_all_or_nothing unit
                   (completion_txn "job-1" sample_completion)
                   sample_job_world _ _)).
  - reflexivity.
  - apply completion_txn_local.
Defined.

(** X13.  What the caller of [withTransaction] sees when the callback
    throws [e]: with the ROLLBACK going through, [e] itself; with the
    ROLLBACK failing, the ROLLBACK's error, and [e] is lost.  Either way
    nothing was committed. *)
Theorem withTransaction_rethrows (T : Type) (fn : M T) (w w2 : World)
    (e : Exn) :
  List.hd false (faults w) = false ->
  List.hd false (faults (pop_fault w)) = false ->
  fn (set_txn (Some (db w)) (pop_fault (pop_fault w))) = (Throw e, w2) ->
  db w2 = db w ->
  fst (withTransaction fn w)
  = Throw (if List.hd false (faults w2)
           then JsError "Connection terminated unexpectedly" else e) /\
  db (snd (withTransaction fn w)) = db w /\
  txn (snd (withTransaction fn w)) = None.
Proof.
  intros H1 H2 Hfn Hdb. rewrite withTransaction_eq, H1, H2, Hfn.
  rewrite bind_eq, client_ROLLBACK_eq.
  destruct (List.hd false (faults w2)); cbn; repeat split; assumption.
Qed.

Lemma withTransaction_rethrows_witness :
  fst (withTransaction (completion_txn "job-9" sample_completion)
         sample_job_world)
  = Throw (JsError "insert violates foreign key constraint").
Proof.
  refine (proj1 (withTransaction_rethrows unit
                   (completion_txn "job-9" sample_completion)
                   sample_job_world
                   (snd (completion_txn "job-9" sample_completion
                           (set_txn (Some (db sample_job_world))
                              (pop_fault (pop_fault sample_job_world)))))
                   (JsError "insert violates foreign key constraint")
                   _ _ _ _));
    vm_compute; reflexivity.
Defined.

(* ===================================================================== *)
(** * 43. storage.service.ts: probing and deleting files                 *)
(* ===================================================================== *)

Lemma deleteFile_eq (name : string) (w : World) :
  deleteFile name w =
  match getFilePath (cwd w) (uploadDir w) name with
  | Throw _ => (Throw (StorageError "Failed to delete file"), w)
  | Ok p =>
      if List.hd false (faults w)
      then (Throw (StorageError "Failed to delete file"), pop_fault w)
      else match fs w !! p with
           | Some _ => (Ok tt, set_fs (delete p (fs w)) (pop_fault w))
           | None =>
               (Throw (StorageError "Failed to delete file"), pop_fault w)
           end
  end.
Proof.
  unfold deleteFile, try_catch. rewrite bind_eq. unfold get_world at 1.
  rewrite bind_eq. unfold lift at 1.
  destruct (getFilePath _ _ name) as [p|e]; [|reflexivity].
  unfold fs_unlink. rewrite bind_eq, io_eq.
  destruct (List.hd false (faults w)); [reflexivity|].
  rewrite bind_eq. unfold get_world at 1.
  change (fs (pop_fault w)) with (fs w).
  destruct (fs w !! p); reflexivity.
Qed.

(** X14.  [fileExists] never throws and changes neither the files nor the
    store.  It answers [true] only if the name resolves inside the upload
    directory and a file is stored at the resolved path; with the file
    system answering, it answers [true] exactly then. *)
Theorem fileExists_is_a_safe_probe (name : string) (w : World) :
  let run := fileExists name w in
  (exists b, fst run = Ok b) /\
  fs (snd run) = fs w /\ db (snd run) = db w /\
  (fst run = Ok true ->
   exists p, getFilePath (cwd w) (uploadDir w) name = Ok p /\
             is_Some (fs w !! p)) /\
  (forall p, List.hd false (faults w) = false ->
             getFilePath (cwd w) (uploadDir w) name = Ok p ->
             is_Some (fs w !! p) -> fst run = Ok true).
Proof.
  cbv zeta. rewrite fileExists_eq.
  destruct (getFilePath (cwd w) (uploadDir w) name) as [p|e].
  - destruct (List.hd false (faults w)).
    + repeat split; try discriminate. now exists false.
    + destruct (fs w !! p) as [f|] eqn:Hf.
      * repeat split. { now exists true. } intros _. exists p.
        split; [reflexivity|]. now exists f.
      * repeat split; try discriminate. { now exists false. }
        intros p' _ [= <-] [f Hf']. congruence.
  - repeat split; try discriminate. now exists false.
Qed.

(** X15.  [deleteFile] either removes exactly the file the name resolves
    to, leaving every other file alone, or throws the [StorageError]
    "Failed to delete file" and changes no file: this is what happens for
    a name that does not resolve, for a file that is not there and for a
    failing file system.  After a successful delete [fileExists] answers
    [false] for the same name. *)
Theorem deleteFile_effect (name : string) (w : World) :
  let run := deleteFile name w in
  match fst run with
  | Ok _ =>
      (exists p, getFilePath (cwd w) (uploadDir w) name = Ok p /\
                 is_Some (fs w !! p) /\ fs (snd run) = delete p (fs w)) /\
      fst (fileExists name (snd run)) = Ok false
  | Throw e =>
      e = AppError "Failed to delete file" 500 STORAGE_ERROR /\
      fs (snd run) = fs w
  end /\
  db (snd run) = db w.
Proof.
  cbv zeta. rewrite deleteFile_eq.
  destruct (getFilePath (cwd w) (uploadDir w) name) as [p|e] eqn:Hp;
    [|now repeat split].
  destruct (List.hd false (faults w)); [now repeat split|].
  destruct (fs w !! p) as [f|] eqn:Hf; [|now repeat split].
  cbn [fst snd]. split; [|reflexivity]. split.
  - exists p. split; [reflexivity|]. split; [now exists f | reflexivity].
  - rewrite fileExists_eq.
    change (cwd (set_fs (delete p (fs w)) (pop_fault w))) with (cwd w).
    change (uploadDir (set_fs (delete p (fs w)) (pop_fault w)))
      with (uploadDir w).
    rewrite Hp. cbn [fs set_fs]. rewrite lookup_delete_eq.
    now destruct (List.hd false _).
Qed.

(* ===================================================================== *)
(** * 44. scanner.service.ts: the cached client                          *)
(* ===================================================================== *)

Lemma initScanner_eq (w : World) :
  initScanner w =
  if clamScanner w then (Ok tt, w)
  else if List.hd false (faults w)
       then (Throw ScannerUnavailableError, pop_fault w)
       else (Ok tt, set_clamScanner true (pop_fault w)).
Proof.
  unfold initScanner. rewrite bind_eq. unfold get_world at 1.
  destruct (clamScanner w); [reflexivity|].
  unfold doInitScanner, try_catch. rewrite bind_eq, io_eq.
  destruct (List.hd false (faults w)); reflexivity.
Qed.

(** X16.  [initScanner] is idempotent: once it has returned, calling it
    again returns at once, without contacting the daemon and without
    changing anything.  When it throws, it throws
    [ScannerUnavailableError] (503) and no client is cached, so the next
    call tries to connect again. *)
Theorem initScanner_is_idempotent (w w1 : World) (r : Result unit) :
  initScanner w = (r, w1) ->
  match r with
  | Ok _ => clamScanner w1 = true /\ initScanner w1 = (Ok tt, w1)
  | Throw e =>
      e = AppError
            "Virus scanner is temporarily unavailable. Please try again later."
            503 SCANNER_UNAVAILABLE /\
      clamScanner w1 = false
  end.
Proof.
  rewrite initScanner_eq. destruct (clamScanner w) eqn:Hc.
  - intros [= <- <-]. split; [exact Hc|]. now rewrite initScanner_eq, Hc.
  - destruct (List.hd false (faults w)); intros [= <- <-].
    + split; [reflexivity | exact Hc].
    + split; [reflexivity|]. now rewrite initScanner_eq.
Qed.

Lemma initScanner_is_idempotent_witness :
  initScanner (snd (initScanner sample_scan_world))
  = (Ok tt, snd (initScanner sample_scan_world)).
Proof.
  refine (proj2 (initScanner_is_idempotent sample_scan_world
                   (snd (initScanner sample_scan_world)) (Ok tt) _)).
  vm_compute. reflexivity.
Defined.

Lemma scanFile_eq (p : string) (w : World) :
  scanFile p w =
  match initScanner w with
  | (Throw e, w1) => (Throw e, w1)
  | (Ok _, w1) =>
      match clam_scanFile p w1 with
      | (Ok (isInfected, viruses, ms), w2) =>
          (Ok {| ClamScanResult.isInfected := isInfected;
                 ClamScanResult.viruses := viruses;
                 ClamScanResult.scannedFiles := 1;
                 ClamScanResult.scanDurationMs := ms;
                 ClamScanResult.error := None |}, w2)
      | (Throw error, w2) =>
          if includes (message_of error) "ECONNREFUSED"
          then (Throw ScannerUnavailableError, set_clamScanner false w2)
          else (Throw (ScannerError "Failed to scan file"), w2)
      end
  end.
Proof.
  unfold scanFile. rewrite bind_eq. unfold get_world at 1.
  rewrite bind_eq.
  assert (E : (if clamScanner w then ret tt else initScanner) w
              = initScanner w).
  { destruct (clamScanner w) eqn:Hc; [|reflexivity].
    now rewrite initScanner_eq, Hc. }
  rewrite E. destruct (initScanner w) as [[u|e] w1]; [|reflexivity].
  unfold try_catch. rewrite bind_eq.
  destruct (clam_scanFile p w1) as [[[[inf vs] ms]|e] w2]; [reflexivity|].
  destruct (includes (message_of e) "ECONNREFUSED"); reflexivity.
Qed.

Lemma clam_scanFile_frame (p : string) (w : World) :
  scans (snd (clam_scanFile p w)) = scans w ++ [p] /\
  clamScanner (snd (clam_scanFile p w)) = clamScanner w /\
  fs (snd (clam_scanFile p w)) = fs w /\
  queue (snd (clam_scanFile p w)) = queue w.
Proof.
  unfold clam_scanFile. cbn [clamd set_scans].
  destruct (clamd w) as [|[inf vs ms|m] rest]; now repeat split.
Qed.

(** What a [scanFile] that returns has done. *)
Lemma scanFile_Ok (p : string) (w w' : World) (r : ClamScanResult.t) :
  scanFile p w = (Ok r, w') ->
  ClamScanResult.scannedFiles r = 1 /\ ClamScanResult.error r = None /\
  clamScanner w' = true /\ scans w' = scans w ++ [p] /\
  fs w' = fs w /\ queue w' = queue w.
Proof.
  rewrite scanFile_eq, initScanner_eq.
  assert (Hframe : forall w1,
             scans w1 = scans w -> clamScanner w1 = true ->
             fs w1 = fs w -> queue w1 = queue w ->
             match clam_scanFile p w1 with
             | (Ok (isInfected, viruses, ms), w2) =>
                 (Ok {| ClamScanResult.isInfected := isInfected;
                        ClamScanResult.viruses := viruses;
                        ClamScanResult.scannedFiles := 1;
                        ClamScanResult.scanDurationMs := ms;
                        ClamScanResult.error := None |}, w2)
             | (Throw error, w2) =>
                 if includes (message_of error) "ECONNREFUSED"
                 then (Throw ScannerUnavailableError, set_clamScanner false w2)
                 else (Throw (ScannerError "Failed to scan file"), w2)
             end = (Ok r, w') ->
             ClamScanResult.scannedFiles r = 1 /\
             ClamScanResult.error r = None /\
             clamScanner w' = true /\ scans w' = scans w ++ [p] /\
             fs w' = fs w /\ queue w' = queue w).
  { intros w1 Hs Hc Hfs Hq.
    destruct (clam_scanFile_frame p w1) as (Fs & Fc & Ffs & Fq).
    destruct (clam_scanFile p w1) as [[[[inf vs] ms]|e] w2].
    - intros [= <- <-]. cbn [snd] in *. repeat split; congruence.
    - destruct (includes _ _); discriminate. }
  destruct (clamScanner w) eqn:Hc.
  - now apply Hframe.
  - destruct (List.hd false (faults w)); [discriminate|].
    now apply Hframe.
Qed.

(** X17.  [scanFile] has three outcomes.  It returns a result for one
    scanned file that never carries an [error], with the client cached.
    It throws [ScannerUnavailableError] when the daemon cannot be reached,
    at set-up or during the scan, and then no client stays cached, so the
    next call reconnects.  Or it throws the [ScannerError] "Failed to scan
    file" for any other failure of the scan, keeping the client. *)
Theorem scanFile_outcomes (p : string) (w : World) :
  let run := scanFile p w in
  match fst run with
  | Ok r =>
      ClamScanResult.scannedFiles r = 1 /\ ClamScanResult.error r = None /\
      clamScanner (snd run) = true /\ scans (snd run) = scans w ++ [p]
  | Throw e =>
      (e = ScannerUnavailableError /\ clamScanner (snd run) = false) \/
      (e = AppError "Failed to scan file" 500 SCANNER_ERROR /\
       clamScanner (snd run) = true)
  end.
Proof.
  cbv zeta. destruct (scanFile p w) as [[r|e] w'] eqn:E.
  - destruct (scanFile_Ok p w w' r E) as (H1 & H2 & H3 & H4 & _).
    now repeat split.
  - cbn [fst snd]. revert E. rewrite scanFile_eq, initScanner_eq.
    assert (Hscan : forall w1,
               clamScanner w1 = true ->
               match clam_scanFile p w1 with
               | (Ok (isInfected, viruses, ms), w2) =>
                   (Ok {| ClamScanResult.isInfected := isInfected;
                          ClamScanResult.viruses := viruses;
                          ClamScanResult.scannedFiles := 1;
                          ClamScanResult.scanDurationMs := ms;
                          ClamScanResult.error := None |}, w2)
               | (Throw error, w2) =>
                   if includes (message_of error) "ECONNREFUSED"
                   then (Throw ScannerUnavailableError,
                         set_clamScanner false w2)
                   else (Throw (ScannerError "Failed to scan file"), w2)
               end = (Throw e, w') ->
               (e = ScannerUnavailableError /\ clamScanner w' = false) \/
               (e = AppError "Failed to scan file" 500 SCANNER_ERROR /\
                clamScanner w' = true)).
    { intros w1 Hc.
      destruct (clam_scanFile_frame p w1) as (_ & Fc & _).
      destruct (clam_scanFile p w1) as [[[[inf vs] ms]|e1] w2];
        [discriminate|].
      destruct (includes _ _); intros [= <- <-]; cbn [snd] in *.
      - now left.
      - right. split; [reflexivity | congruence]. }
    destruct (clamScanner w) eqn:Hc.
    + now apply Hscan.
    + destruct (List.hd false (faults w)).
      * intros [= <- <-]. left. now split.
      * now apply Hscan.
Qed.

(* ===================================================================== *)
(** * 45. queue.service.ts: adding an entry                              *)
(* ===================================================================== *)

Lemma enqueueScanJob_eq (jobId filePath : string) (priority delay : option Z)
      (w : World) :
  enqueueScanJob jobId filePath priority delay w =
  if List.hd false (faults w)
  then (Throw (QueueError "Failed to add job to queue"), pop_fault w)
  else match List.find (fun j => String.eqb (bj_id j) jobId) (queue w) with
       | Some j => (Ok (bj_id j), pop_fault w)
       | None =>
           (Ok jobId,
            set_queue
              (queue w ++
               [mkBullJob jobId "scan-file"
                  {| ScanJobPayload.jobId := jobId;
                     ScanJobPayload.filePath := filePath;
                     ScanJobPayload.attempt := 1 |}
                  (nullish priority 0) (nullish delay 0) (now w) 0 3])
              (pop_fault w))
       end.
Proof.
  unfold enqueueScanJob, try_catch. rewrite bind_eq.
  unfold scanQueue_add. rewrite bind_eq, io_eq.
  destruct (List.hd false (faults w)); [reflexivity|].
  change (queue (pop_fault w)) with (queue w).
  destruct (List.find _ (queue w)); reflexivity.
Qed.

(** X18.  [enqueueScanJob] either throws the [QueueError] "Failed to add
    job to queue" and leaves the queue as it was, or returns the job
    identifier it was given, and then the queue holds an entry under that
    identifier: the one that was already there, or else a new last entry
    named "scan-file" with the payload (jobId, filePath, attempt 1), the
    given priority and delay (0 when left out) and 3 attempts.  The store
    is not touched. *)
Theorem enqueueScanJob_outcomes (jobId filePath : string)
    (priority delay : option Z) (w : World) :
  let run := enqueueScanJob jobId filePath priority delay w in
  match fst run with
  | Ok id =>
      id = jobId /\
      match List.find (fun j => String.eqb (bj_id j) jobId) (queue w) with
      | Some _ => queue (snd run) = queue w
      | None =>
          queue (snd run)
          = queue w ++
            [mkBullJob jobId "scan-file"
               {| ScanJobPayload.jobId := jobId;
                  ScanJobPayload.filePath := filePath;
                  ScanJobPayload.attempt := 1 |}
               (nullish priority 0) (nullish delay 0) (now w) 0 3]
      end
  | Throw e =>
      e = AppError "Failed to add job to queue" 500 QUEUE_ERROR /\
      queue (snd run) = queue w
  end /\
  db (snd run) = db w /\ fs (snd run) = fs w.
Proof.
  cbv zeta. rewrite enqueueScanJob_eq.
  destruct (List.hd false (faults w)); [now repeat split|].
  destruct (List.find _ (queue w)) as [j|] eqn:Hfind.
  - cbn. repeat split.
    apply List.find_some in Hfind as [_ Hid].
    now apply String.eqb_eq in Hid.
  - cbn. repeat split.
Qed.

(* ===================================================================== *)
(** * 46. scan.worker.ts: what a successful run records                  *)
(* ===================================================================== *)





(* ===================================================================== *)
(** * 47. Generated file names                                           *)
(* ===================================================================== *)

Example extname_examples :
  extname "report.pdf" = ".pdf" /\ extname "/a.b/c" = "" /\
  extname "archive.tar.gz" = ".gz" /\ extname ".bashrc" = "" /\
  extname "dir/file.txt///" = ".txt" /\ extname ".." = "" /\
  extname "index." = "." /\ extname "..a" = ".a" /\ extname "" = "".
Proof. repeat split; reflexivity. Qed.

Example basename_ext_examples :
  basename_ext "/foo/quux.html" ".html" = "quux" /\
  basename_ext "aaa/bbb" "bbb" = "bbb" /\
  basename_ext "a" "a" = "" /\
  basename_ext "/foo/quux.html" ".htm" = "quux.html" /\
  basename_ext "x/report.pdf//" ".pdf" = "report" /\
  basename_ext "dir/" "" = "dir".
Proof. repeat split; reflexivity. Qed.

Example generateStorageFilename_examples :
  generateStorageFilename 1700000000123 sample_bytes "report.pdf"
    = "1700000000123-ab1200ff10203040-report.pdf" /\
  generateStorageFilename 1700000000123 sample_bytes "../../etc/pass wd"
    = "1700000000123-ab1200ff10203040-pass_wd" /\
  generateStorageFilename 1700000000123 sample_bytes ".."
    = "1700000000123-ab1200ff10203040-__" /\
  generateStorageFilename 1700000000123 sample_bytes "a/b.x y"
    = "1700000000123-ab1200ff10203040-b.x y".
Proof. repeat split; reflexivity. Qed.

Lemma no_sep_app (a b : string) :
  no_sep (a +:+ b) = no_sep a && no_sep b.
Proof.
  induction a as [|c a IH]; [now rewrite append_nil_l|].
  rewrite append_cons. cbn [no_sep]. rewrite IH. apply andb_assoc.
Qed.

Lemma split_last_dot_spec (s pre suf : string) :
  split_last_dot s = Some (pre, suf) -> s = pre +:+ "." +:+ suf.
Proof.
  revert pre. induction s as [|c s IH]; intros pre; cbn; [discriminate|].
  destruct (split_last_dot s) as [[p q]|].
  - intros [= <- <-]. rewrite append_cons. f_equal. now apply IH.
  - destruct (Ascii.eqb_spec c "."); [|discriminate].
    intros [= <- <-]. subst c. now rewrite append_nil_l.
Qed.

Lemma extname_no_sep (p : string) : no_sep (extname p) = true.
Proof.
  unfold extname. pose proof (basename_no_sep p) as Hb.
  destruct (split_last_dot (basename p)) as [[pre suf]|] eqn:E;
    [|reflexivity].
  apply split_last_dot_spec in E. rewrite E, !no_sep_app in Hb.
  apply andb_true_iff in Hb as [_ Hb]. apply andb_true_iff in Hb as [_ Hs].
  destruct (String.eqb pre ""); [reflexivity|].
  destruct (_ && _); [reflexivity|].
  rewrite no_sep_app, Hs. reflexivity.
Qed.

Lemma is_word_char_not_sep (c : ascii) :
  is_word_char c = true -> isPosixPathSeparator c = false.
Proof.
  unfold isPosixPathSeparator, CHAR_FORWARD_SLASH.
  destruct (Ascii.eqb_spec c "/") as [->|]; [|reflexivity].
  discriminate.
Qed.

Lemma replace_unsafe_no_sep (s : string) : no_sep (replace_unsafe s) = true.
Proof.
  induction s as [|c s IH]; [reflexivity|]. cbn [replace_unsafe no_sep].
  rewrite IH, andb_true_r.
  destruct (is_word_char c) eqn:Hc; [|reflexivity].
  now rewrite (is_word_char_not_sep c Hc).
Qed.

Lemma substring_no_sep (n m : nat) (s : string) :
  no_sep s = true -> no_sep (String.substring n m s) = true.
Proof.
  revert n m. induction s as [|c s IH]; intros n m Hs.
  - destruct n, m; reflexivity.
  - cbn [no_sep] in Hs. apply andb_true_iff in Hs as [Hc Hs].
    destruct n as [|n]; cbn [String.substring].
    + destruct m as [|m]; [reflexivity|]. cbn [no_sep].
      now rewrite Hc, IH.
    + now apply IH.
Qed.

Lemma hex_digit_not_sep (n : nat) : isPosixPathSeparator (hex_digit n) = false.
Proof.
  unfold hex_digit.
  do 16 (destruct n as [|n]; [reflexivity|]). reflexivity.
Qed.

Lemma hex_of_bytes_no_sep (bytes : list ascii) :
  no_sep (hex_of_bytes bytes) = true.
Proof.
  induction bytes as [|b bytes IH]; [reflexivity|].
  cbn [hex_of_bytes no_sep]. now rewrite !hex_digit_not_sep, IH.
Qed.

(** A string of decimal digits, possibly after a sign. *)
Lemma string_of_uint_digits (d : Decimal.uint) :
  no_sep (NilEmpty.string_of_uint d) = true /\
  (d <> Decimal.Nil ->
   exists c t, NilEmpty.string_of_uint d = String c t /\ c <> "."%char).
Proof.
  induction d as [|d [IH _]|d [IH _]|d [IH _]|d [IH _]|d [IH _]|d [IH _]
                 |d [IH _]|d [IH _]|d [IH _]|d [IH _]];
    cbn [NilEmpty.string_of_uint no_sep];
    (split; [try reflexivity; now rewrite IH|]);
    intros Hne; try congruence;
    eexists _, _; (split; [reflexivity | discriminate]).
Qed.

Lemma Z_to_string_shape (z : Z) :
  no_sep (Z_to_string z) = true /\
  exists c t, Z_to_string z = String c t /\ c <> "."%char.
Proof.
  unfold Z_to_string, NilZero.string_of_int, NilZero.string_of_uint.
  destruct (Z.to_int z) as [d|d].
  - destruct (string_of_uint_digits d) as [Hn Hh].
    destruct d; try (split; [exact Hn | apply Hh; discriminate]).
    split; [reflexivity|]. now exists "0"%char, ""%string.
  - destruct (string_of_uint_digits d) as [Hn Hh]. split.
    + cbn [no_sep]. destruct d; exact Hn.
    + eexists _, _. split; [reflexivity | discriminate].
Qed.

Lemma generateStorageFilename_shape (timestamp : Z) (randomBytes : list ascii)
      (originalFilename : string) :
  no_sep (generateStorageFilename timestamp randomBytes originalFilename)
  = true /\
  exists c t,
    generateStorageFilename timestamp randomBytes originalFilename
    = String c t /\ c <> "."%char.
Proof.
  unfold generateStorageFilename.
  destruct (Z_to_string_shape timestamp) as (Hn & c & t & Ht & Hc). split.
  - rewrite !no_sep_app, Hn, hex_of_bytes_no_sep, extname_no_sep.
    rewrite substring_no_sep by apply replace_unsafe_no_sep. reflexivity.
  - rewrite Ht, append_cons. now eexists _, _.
Qed.

Lemma normal_segment_basename (s : string) :
  normal_segment s = true -> basename s = s.
Proof.
  intros Hs. apply normal_segment_spec in Hs as (Hn & Hne & _).
  unfold basename. rewrite (split_sep_single s Hn). cbn [List.filter].
  destruct s; [congruence | reflexivity].
Qed.

Lemma generateStorageFilename_normal (timestamp : Z)
      (randomBytes : list ascii) (originalFilename : string) :
  normal_segment
    (generateStorageFilename timestamp randomBytes originalFilename) = true.
Proof.
  destruct (generateStorageFilename_shape timestamp randomBytes
              originalFilename) as (Hn & c & t & E & Hc).
  apply normal_segment_spec. rewrite E in *.
  repeat split; try assumption; try discriminate; congruence.
Qed.

Lemma basename_abs_snoc (segs : list string) (name : string) :
  Forall (fun x => no_sep x = true) segs -> no_sep name = true ->
  name <> "" -> basename (abs_path (segs ++ [name])) = name.
Proof.
  intros HF Hn Hne. unfold basename, abs_path. cbn [split_sep].
  change (isPosixPathSeparator CHAR_FORWARD_SLASH) with true. cbv iota.
  rewrite split_join.
  - cbn [List.filter str_nonempty]. rewrite List.filter_app.
    cbn [List.filter]. destruct name as [|c name]; [congruence|].
    cbn [str_nonempty]. apply List.last_last.
  - apply List.Forall_app. split; [assumption | now repeat constructor].
  - now destruct segs.
Qed.

(** The path [saveFile] moves an upload to is the path [getFilePath]
    gives for the stored name. *)
Lemma stored_path_resolves (cwd uploadDir name : string) :
  isAbsolute cwd = true -> UPLOAD_DIR cwd uploadDir <> "/" ->
  normal_segment name = true ->
  getFilePath cwd uploadDir name
  = Ok (path_join [UPLOAD_DIR cwd uploadDir; name]) /\
  path_join [UPLOAD_DIR cwd uploadDir; name]
  = (UPLOAD_DIR cwd uploadDir +:+ "/") +:+ name /\
  basename (path_join [UPLOAD_DIR cwd uploadDir; name]) = name.
Proof.
  intros Hc Hu Hname.
  rewrite (getFilePath_cases cwd uploadDir name Hc).
  rewrite (normal_segment_basename name Hname), Hname.
  apply String.eqb_neq in Hu. rewrite Hu. cbn [andb negb].
  unfold UPLOAD_DIR in *.
  destruct (path_resolve_shape cwd uploadDir Hc) as [segs [HF Hs]].
  rewrite Hs in *.
  assert (Hne : segs <> []).
  { intros ->. apply String.eqb_neq in Hu. now apply Hu. }
  pose proof (proj1 (normal_segment_spec name) Hname) as (Hn & Hne' & _).
  rewrite path_join_upload by assumption.
  rewrite normalize_step_normal by assumption.
  cbn [List.rev]. rewrite List.rev_involutive.
  rewrite <- (abs_path_snoc segs name Hne).
  split; [reflexivity|]. split; [reflexivity|].
  apply basename_abs_snoc; try assumption.
  now apply normal_segments_no_sep.
Qed.

(** X20.  Whatever file name the client sent, the name
    [generateStorageFilename] makes of it is one ordinary path segment: it
    is not empty, has no separator and is neither "." nor "..".  In a
    process with an absolute working directory and an upload directory
    other than the root, [getFilePath] therefore accepts the generated
    name and returns [UPLOAD_DIR/name], the very path [saveFile] moves
    the upload to, and the base name of that path is the generated name
    again. *)
Theorem generated_names_are_safe (timestamp : Z) (randomBytes : list ascii)
    (originalFilename cwd uploadDir : string) :
  isAbsolute cwd = true -> UPLOAD_DIR cwd uploadDir <> "/" ->
  let name :=
    generateStorageFilename timestamp randomBytes originalFilename in
  normal_segment name = true /\
  getFilePath cwd uploadDir name
  = Ok (path_join [UPLOAD_DIR cwd uploadDir; name]) /\
  path_join [UPLOAD_DIR cwd uploadDir; name]
  = (UPLOAD_DIR cwd uploadDir +:+ "/") +:+ name /\
  basename (path_join [UPLOAD_DIR cwd uploadDir; name]) = name.
Proof.
  intros Hc Hu. cbv zeta.
  split; [apply generateStorageFilename_normal|].
  apply stored_path_resolves; try assumption.
  apply generateStorageFilename_normal.
Qed.

Lemma generated_names_are_safe_witness :
  getFilePath "/app" "./uploads"
    (generateStorageFilename 1700000000123 sample_bytes "../../etc/passwd")
  = Ok (path_join
          [UPLOAD_DIR "/app" "./uploads";
           generateStorageFilename 1700000000123 sample_bytes
             "../../etc/passwd"]).
Proof.
  refine (proj1 (proj2 (generated_names_are_safe 1700000000123 sample_bytes
                          "../../etc/passwd" "/app" "./uploads" _ _))).
  - reflexivity.
  - vm_compute. discriminate.
Defined.

(* ===================================================================== *)
(** * 48. saveFile                                                       *)
(* ===================================================================== *)

Lemma try_catch_eq {A} (m : M A) (h : Exn -> M A) (w : World) :
  try_catch m h w = match m w with
                    | (Ok a, w') => (Ok a, w')
                    | (Throw e, w') => h e w'
                    end.
Proof. reflexivity. Qed.

Lemma lookup_io_eq (p : string) (w : World) :
  fs_stat p w =
  if List.hd false (faults w)
  then (Throw (JsError "EIO: i/o error"), pop_fault w)
  else match fs w !! p with
       | Some f => (Ok f, pop_fault w)
       | None =>
           (Throw (JsError "ENOENT: no such file or directory"), pop_fault w)
       end.
Proof.
  unfold fs_stat. rewrite bind_eq, io_eq.
  destruct (List.hd false (faults w)); [reflexivity|].
  rewrite bind_eq. unfold get_world at 1.
  change (fs (pop_fault w)) with (fs w).
  destruct (fs w !! p); reflexivity.
Qed.

Lemma fs_rename_eq (a b : string) (w : World) :
  fs_rename a b w =
  if List.hd false (faults w)
  then (Throw (JsError "EXDEV: cross-device link not permitted"), pop_fault w)
  else match fs w !! a with
       | Some f =>
           (Ok tt, set_fs (<[b := f]> (delete a (fs w))) (pop_fault w))
       | None =>
           (Throw (JsError "ENOENT: no such file or directory"), pop_fault w)
       end.
Proof.
  unfold fs_rename. rewrite bind_eq, io_eq.
  destruct (List.hd false (faults w)); [reflexivity|].
  rewrite bind_eq. unfold get_world at 1.
  change (fs (pop_fault w)) with (fs w).
  destruct (fs w !! a); reflexivity.
Qed.

Lemma initStorage_eq (w : World) :
  initStorage w =
  (if List.hd false (faults w)
   then Throw (StorageError "Failed to initialize storage directory")
   else Ok tt, pop_fault w).
Proof.
  unfold initStorage, try_catch, fs_mkdir. rewrite bind_eq.
  unfold get_world at 1. rewrite io_eq.
  destruct (List.hd false (faults w)); reflexivity.
Qed.

(** The [try] block of [saveFile]. *)
Lemma saveFile_body_eq (randomBytes : list ascii) (tempPath name : string)
      (w : World) :
  (initStorage ;;;
   w <- get_world ;;
   let storedFilename :=
     generateStorageFilename (now w) randomBytes name in
   let filePath :=
     path_join [UPLOAD_DIR (cwd w) (uploadDir w); storedFilename] in
   stats <- fs_stat tempPath ;;
   checksum <- calculateChecksum tempPath ;;
   fs_rename tempPath filePath ;;;
   ret {| StoredFile.storedFilename := storedFilename;
          StoredFile.filePath := filePath;
          StoredFile.fileSize := f_size stats;
          StoredFile.checksum := checksum |}) w
  = let w1 := pop_fault w in
    let w2 := pop_fault w1 in
    let w3 := pop_fault w2 in
    let w4 := pop_fault w3 in
    let storedFilename :=
      generateStorageFilename (now w) randomBytes name in
    let filePath :=
      path_join [UPLOAD_DIR (cwd w) (uploadDir w); storedFilename] in
    if List.hd false (faults w)
    then (Throw (StorageError "Failed to initialize storage directory"), w1)
    else if List.hd false (faults w1)
    then (Throw (JsError "EIO: i/o error"), w2)
    else match fs w !! tempPath with
         | None =>
             (Throw (JsError "ENOENT: no such file or directory"), w2)
         | Some f =>
             if List.hd false (faults w2)
             then (Throw (JsError "EIO: i/o error"), w3)
             else if List.hd false (faults w3)
             then (Throw (JsError "EXDEV: cross-device link not permitted"),
                   w4)
             else
               (Ok {| StoredFile.storedFilename := storedFilename;
                      StoredFile.filePath := filePath;
                      StoredFile.fileSize := f_size f;
                      StoredFile.checksum := f_sha256 f |},
                set_fs (<[filePath := f]> (delete tempPath (fs w))) w4)
         end.
Proof.
  cbv zeta. rewrite bind_eq, initStorage_eq.
  destruct (List.hd false (faults w)); [reflexivity|].
  rewrite bind_eq. unfold get_world at 1.
  change (now (pop_fault w)) with (now w).
  change (cwd (pop_fault w)) with (cwd w).
  change (uploadDir (pop_fault w)) with (uploadDir w).
  rewrite bind_eq, lookup_io_eq.
  destruct (List.hd false (faults (pop_fault w))); [reflexivity|].
  change (fs (pop_fault w)) with (fs w).
  destruct (fs w !! tempPath) as [f|] eqn:Hf; [|reflexivity].
  rewrite bind_eq. unfold calculateChecksum. rewrite bind_eq.
  change (fs_readFile tempPath) with (fs_stat tempPath).
  rewrite lookup_io_eq.
  destruct (List.hd false (faults (pop_fault (pop_fault w))));
    [reflexivity|].
  change (fs (pop_fault (pop_fault w))) with (fs w). rewrite Hf.
  unfold ret at 1. rewrite bind_eq, fs_rename_eq.
  destruct (List.hd false (faults (pop_fault (pop_fault (pop_fault w)))));
    [reflexivity|].
  change (fs (pop_fault (pop_fault (pop_fault w)))) with (fs w).
  rewrite Hf. reflexivity.
Qed.

(** The [catch] block of [saveFile]: the temporary file is removed if it
    can be, and the [StorageError] is thrown. *)
Lemma saveFile_catch_eq (tempPath : string) (w : World) :
  (try_catch (fs_unlink tempPath) (fun _ => ret tt) ;;;
   @throw StoredFile.t (StorageError "Failed to save uploaded file")) w
  = (Throw (StorageError "Failed to save uploaded file"),
     if List.hd false (faults w) then pop_fault w
     else match fs w !! tempPath with
          | Some _ => set_fs (delete tempPath (fs w)) (pop_fault w)
          | None => pop_fault w
          end).
Proof.
  rewrite bind_eq. unfold try_catch, fs_unlink. rewrite bind_eq, io_eq.
  destruct (List.hd false (faults w)); [reflexivity|].
  rewrite bind_eq. unfold get_world at 1.
  change (fs (pop_fault w)) with (fs w).
  destruct (fs w !! tempPath); reflexivity.
Qed.

Lemma saveFile_catch_run (tempPath : string) (w0 w : World) :
  fs w = fs w0 -> db w = db w0 -> queue w = queue w0 -> txn w = txn w0 ->
  exists w',
    (try_catch (fs_unlink tempPath) (fun _ => ret tt) ;;;
     @throw StoredFile.t (StorageError "Failed to save uploaded file")) w
    = (Throw (StorageError "Failed to save uploaded file"), w') /\
    (fs w' = fs w0 \/ fs w' = delete tempPath (fs w0)) /\
    db w' = db w0 /\ queue w' = queue w0 /\ txn w' = txn w0.
Proof.
  intros Hfs Hdb Hq Ht. rewrite saveFile_catch_eq.
  eexists. split; [reflexivity|].
  destruct (List.hd false (faults w)); [now repeat split; [left|..]|].
  destruct (fs w !! tempPath).
  - cbn [fs set_fs]. rewrite Hfs. now repeat split; [right|..].
  - now repeat split; [left|..].
Qed.

Lemma saveFile_Ok (randomBytes : list ascii) (tempPath name : string)
      (w w' : World) (sf : StoredFile.t) :
  saveFile randomBytes tempPath name w = (Ok sf, w') ->
  let storedFilename :=
    generateStorageFilename (now w) randomBytes name in
  let filePath :=
    path_join [UPLOAD_DIR (cwd w) (uploadDir w); storedFilename] in
  exists f,
    fs w !! tempPath = Some f /\
    sf = {| StoredFile.storedFilename := storedFilename;
            StoredFile.filePath := filePath;
            StoredFile.fileSize := f_size f;
            StoredFile.checksum := f_sha256 f |} /\
    w' = set_fs (<[filePath := f]> (delete tempPath (fs w)))
           (pop_fault (pop_fault (pop_fault (pop_fault w)))).
Proof.
  unfold saveFile. rewrite try_catch_eq, saveFile_body_eq. cbv zeta.
  destruct (List.hd false (faults w));
    [rewrite saveFile_catch_eq; discriminate|].
  destruct (List.hd false (faults (pop_fault w)));
    [rewrite saveFile_catch_eq; discriminate|].
  destruct (fs w !! tempPath) as [f|];
    [|rewrite saveFile_catch_eq; discriminate].
  destruct (List.hd false (faults (pop_fault (pop_fault w))));
    [rewrite saveFile_catch_eq; discriminate|].
  destruct (List.hd false (faults (pop_fault (pop_fault (pop_fault w)))));
    [rewrite saveFile_catch_eq; discriminate|].
  intros [= <- <-]. now exists f.
Qed.

Ltac saveFile_fails w0 :=
  match goal with
  | |- context [bind (try_catch (fs_unlink ?t) _) _ ?w1] =>
      let w2 := fresh "w" in
      let E := fresh "E" in
      let F := fresh "F" in
      destruct (saveFile_catch_run t w0 w1 eq_refl eq_refl eq_refl eq_refl)
        as (w2 & E & F);
      rewrite E; intros [= <- <-]; split; [reflexivity | exact F]
  end.

Lemma saveFile_Throw (randomBytes : list ascii) (tempPath name : string)
      (w w' : World) (e : Exn) :
  saveFile randomBytes tempPath name w = (Throw e, w') ->
  e = StorageError "Failed to save uploaded file" /\
  (fs w' = fs w \/ fs w' = delete tempPath (fs w)) /\
  db w' = db w /\ queue w' = queue w /\ txn w' = txn w.
Proof.
  unfold saveFile. rewrite try_catch_eq, saveFile_body_eq. cbv zeta.
  destruct (List.hd false (faults w)); [saveFile_fails w|].
  destruct (List.hd false (faults (pop_fault w))); [saveFile_fails w|].
  destruct (fs w !! tempPath) as [f|]; [|saveFile_fails w].
  destruct (List.hd false (faults (pop_fault (pop_fault w))));
    [saveFile_fails w|].
  destruct (List.hd false (faults (pop_fault (pop_fault (pop_fault w)))));
    [saveFile_fails w|].
  discriminate.
Qed.

(** X21.  [saveFile], in a process with an absolute working directory and
    an upload directory other than the root, has two outcomes.  Either it
    returns: then the temporary file existed, it has been moved to the
    returned path, the returned size and checksum are those of that file,
    the returned name is the generated one, [getFilePath] maps the
    returned name to the returned path, and [fileExists] finds the file
    (when the file system answers).  Or it throws the [StorageError]
    "Failed to save uploaded file": then no file was added or changed, and
    at most the temporary file was removed.  The store and the queue are
    untouched either way. *)
Theorem saveFile_outcomes (randomBytes : list ascii)
    (tempPath name : string) (w : World) :
  isAbsolute (cwd w) = true -> UPLOAD_DIR (cwd w) (uploadDir w) <> "/" ->
  let run := saveFile randomBytes tempPath name w in
  match fst run with
  | Ok sf =>
      exists f,
        fs w !! tempPath = Some f /\
        StoredFile.storedFilename sf
        = generateStorageFilename (now w) randomBytes name /\
        StoredFile.fileSize sf = f_size f /\
        StoredFile.checksum sf = f_sha256 f /\
        getFilePath (cwd w) (uploadDir w) (StoredFile.storedFilename sf)
        = Ok (StoredFile.filePath sf) /\
        fs (snd run)
        = <[StoredFile.filePath sf := f]> (delete tempPath (fs w)) /\
        (List.hd false (faults (snd run)) = false ->
         fst (fileExists (StoredFile.storedFilename sf) (snd run)) = Ok true)
  | Throw e =>
      e = AppError "Failed to save uploaded file" 500 STORAGE_ERROR /\
      (fs (snd run) = fs w \/ fs (snd run) = delete tempPath (fs w))
  end /\
  db (snd run) = db w /\ queue (snd run) = queue w.
Proof.
  intros Hc Hu. cbv zeta.
  destruct (saveFile randomBytes tempPath name w) as [[sf|e] w'] eqn:E;
    cbn [fst snd].
  - destruct (saveFile_Ok _ _ _ _ _ _ E) as (f & Hf & -> & ->).
    cbv zeta. cbn [StoredFile.storedFilename StoredFile.filePath
                   StoredFile.fileSize StoredFile.checksum].
    destruct (stored_path_resolves (cwd w) (uploadDir w)
                (generateStorageFilename (now w) randomBytes name) Hc Hu
                (generateStorageFilename_normal _ _ _)) as (Hg & _ & _).
    split; [|now split]. exists f. repeat split; try assumption.
    intros Hfault. rewrite fileExists_eq.
    match goal with
    | |- context [set_fs ?m ?x] =>
        change (cwd (set_fs m x)) with (cwd w);
        change (uploadDir (set_fs m x)) with (uploadDir w);
        change (fs (set_fs m x)) with m
    end.
    rewrite Hg, Hfault, lookup_insert_eq. reflexivity.
  - destruct (saveFile_Throw _ _ _ _ _ _ E) as (-> & Hfs & Hdb & Hq & _).
    now repeat split.
Qed.

Lemma saveFile_outcomes_witness :
  db (snd (saveFile sample_bytes "/tmp/upload_1" "report.pdf"
             sample_temp_world)) = db sample_temp_world.
Proof.
  refine (proj1 (proj2 (saveFile_outcomes sample_bytes "/tmp/upload_1"
                          "report.pdf" sample_temp_world _ _))).
  - reflexivity.
  - vm_compute. discriminate.
Defined.

Example saveFile_example :
  fst (saveFile sample_bytes "/tmp/upload_1" "report.pdf" sample_temp_world)
  = Ok {| StoredFile.storedFilename :=
            "1700000000123-ab1200ff10203040-report.pdf";
          StoredFile.filePath :=
            "/app/uploads/1700000000123-ab1200ff10203040-report.pdf";
          StoredFile.fileSize := 10;
          StoredFile.checksum := "abc123" |}.
Proof. vm_compute. reflexivity. Qed.

(* ===================================================================== *)
(** * 49. Parsing request fields                                         *)
(* ===================================================================== *)

Example parseInt_examples :
  parseInt "5" = Some 5 /\ parseInt "  42abc" = Some 42 /\
  parseInt "-3" = Some (-3) /\ parseInt "+7" = Some 7 /\
  parseInt "abc" = None /\ parseInt "" = None /\ parseInt "-" = None /\
  parseInt "0x1f" = Some 0 /\ parseInt "1e3" = Some 1 /\
  parseInt "007" = Some 7 /\ parseInt "3.9" = Some 3.
Proof. repeat split; reflexivity. Qed.

Example trim_examples :
  trim "  a b  " = "a b" /\ trim "" = "" /\
  trim (String (ascii_of_nat 9) (String (ascii_of_nat 10) "")) = "" /\
  trim " .. " = ".." /\ trim "report.pdf" = "report.pdf".
Proof. repeat split; reflexivity. Qed.

Example isValidUUID_examples :
  isValidUUID "3f2c1a9e-7b4d-4c8a-9e1f-0a1b2c3d4e5f" = true /\
  isValidUUID "3F2C1A9E-7B4D-4C8A-9E1F-0A1B2C3D4E5F" = true /\
  isValidUUID "3f2c1a9e-7b4d-6c8a-9e1f-0a1b2c3d4e5f" = false /\
  isValidUUID "3f2c1a9e-7b4d-4c8a-7e1f-0a1b2c3d4e5f" = false /\
  isValidUUID "job-1" = false /\ isValidUUID "" = false /\
  isValidUUID "3f2c1a9e-7b4d-4c8a-9e1f-0a1b2c3d4e5f0" = false.
Proof. repeat split; reflexivity. Qed.

(* ===================================================================== *)
(** * 50. POST /scan                                                     *)
(* ===================================================================== *)

(** A [createJob] that returns has inserted exactly the row it returns. *)
Lemma createJob_Ok_row (input : CreateJobInput.t) (w w' : World)
      (job : Job.t) :
  createJob input w = (Ok job, w') ->
  exists row,
    job = mapRowToJob row /\
    jobs (db w) !! JobRow.id row = None /\
    fresh_row (entropy w (drawn w)) (now w) row /\
    CreateJobInput.originalFilename input
    = Some (JobRow.original_filename row) /\
    CreateJobInput.storedFilename input = Some (JobRow.stored_filename row) /\
    CreateJobInput.filePath input = Some (JobRow.file_path row) /\
    CreateJobInput.fileSize input = Some (JobRow.file_size row) /\
    CreateJobInput.mimeType input = JobRow.mime_type row /\
    CreateJobInput.checksum input = JobRow.checksum row /\
    nullish (CreateJobInput.priority input) 0 = JobRow.priority row /\
    w' = set_db (mkDb (<[JobRow.id row := row]> (jobs (db w)))
                      (scan_results (db w)))
           (pop_fault (set_drawn (S (drawn w)) w)).
Proof.
  rewrite createJob_eq. cbv zeta.
  destruct (List.hd false (faults w)); [discriminate|].
  unfold sql_insert_job, pg_error.
  destruct (CreateJobInput.originalFilename input) as [ofn|];
    [|discriminate].
  destruct (CreateJobInput.storedFilename input) as [sfn|]; [|discriminate].
  destruct (CreateJobInput.filePath input) as [fp|]; [|discriminate].
  destruct (CreateJobInput.fileSize input) as [fsz|]; [|discriminate].
  destruct (negb _); [discriminate|].
  destruct (negb _); [discriminate|].
  destruct (jobs (db w) !! entropy w (drawn w)) eqn:Hnone; [discriminate|].
  intros [= <- <-]. eexists. split; [reflexivity|].
  cbn [JobRow.id JobRow.original_filename JobRow.stored_filename
       JobRow.file_path JobRow.file_size JobRow.mime_type JobRow.checksum
       JobRow.priority].
  split; [exact Hnone|]. repeat split.
Qed.

Lemma createJob_Throw (input : CreateJobInput.t) (w w' : World) (e : Exn) :
  createJob input w = (Throw e, w') ->
  e = DatabaseError "Database query failed" /\
  w' = pop_fault (set_drawn (S (drawn w)) w).
Proof.
  rewrite createJob_eq. cbv zeta.
  destruct (List.hd false (faults w)); [now intros [= <- <-]|].
  destruct (sql_insert_job _ _ _ _ _ _ _ _ _ _) as [[rows d]|e'] eqn:E;
    [|now intros [= <- <-]].
  destruct (sql_insert_job_rows _ _ _ _ _ _ _ _ _ _ _ _ E)
    as (row & -> & _). discriminate.
Qed.

(** The [catch] block of the handler: the stored file is removed if it can
    be, and the error is thrown again. *)
Lemma postScan_catch_run (name : string) (e : Exn) (w : World) :
  exists w',
    (try_catch (deleteFile name) (fun _ => ret tt) ;;;
     @throw Job.t e) w = (Throw e, w') /\
    db w' = db w /\ queue w' = queue w /\ txn w' = txn w /\
    (fs w' = fs w \/ exists p, fs w' = delete p (fs w)).
Proof.
  rewrite bind_eq, try_catch_eq, deleteFile_eq.
  destruct (getFilePath (cwd w) (uploadDir w) name) as [p|e'].
  - destruct (List.hd false (faults w)).
    + eexists. split; [reflexivity|]. now repeat split; [..|left].
    + destruct (fs w !! p).
      * eexists. split; [reflexivity|]. repeat split. right. now exists p.
      * eexists. split; [reflexivity|]. now repeat split; [..|left].
  - eexists. split; [reflexivity|]. now repeat split; [..|left].
Qed.

(** The input [postScan] passes to [createJob]. *)
Lemma postScan_cases (file : UploadedFile.t) (storedFile : StoredFile.t)
      (priority : Z) (w w' : World) (r : Result ScanUploadResponse.t) :
  postScan file storedFile priority w = (r, w') ->
  let input :=
    {| CreateJobInput.originalFilename :=
         Some (UploadedFile.originalname file);
       CreateJobInput.storedFilename :=
         Some (StoredFile.storedFilename storedFile);
       CreateJobInput.filePath := Some (StoredFile.filePath storedFile);
       CreateJobInput.fileSize := Some (StoredFile.fileSize storedFile);
       CreateJobInput.mimeType := Some (UploadedFile.mimetype file);
       CreateJobInput.checksum := Some (StoredFile.checksum storedFile);
       CreateJobInput.priority := Some (Z.min (Z.max priority 0) 10) |} in
  (exists e w1,
      createJob input w = (Throw e, w1) /\ r = Throw e /\
      db w' = db w1 /\ queue w' = queue w1 /\ txn w' = txn w1) \/
  (exists job w1 e w2,
      createJob input w = (Ok job, w1) /\
      enqueueScanJob (Job.id job) (StoredFile.filePath storedFile)
                     (Some (Job.priority job)) None w1 = (Throw e, w2) /\
      r = Throw e /\
      db w' = db w2 /\ queue w' = queue w2 /\ txn w' = txn w2) \/
  (exists job w1 id,
      createJob input w = (Ok job, w1) /\
      enqueueScanJob (Job.id job) (StoredFile.filePath storedFile)
                     (Some (Job.priority job)) None w1 = (Ok id, w') /\
      r = Ok {| ScanUploadResponse.jobId := Job.id job;
                ScanUploadResponse.filename := Job.originalFilename job;
                ScanUploadResponse.fileSize := Job.fileSize job;
                ScanUploadResponse.status := Job.status job |}).
Proof.
  cbv zeta. unfold postScan. rewrite bind_eq, try_catch_eq, bind_eq.
  destruct (createJob _ w) as [[job|e] w1] eqn:Hcreate.
  - rewrite bind_eq.
    destruct (enqueueScanJob _ _ _ _ w1) as [[id|e] w2] eqn:Henq.
    + intros [= <- <-]. right. right. now exists job, w1, id.
    + destruct (postScan_catch_run (StoredFile.storedFilename storedFile)
                  e w2) as (w3 & E & Hdb & Hq & Ht & _).
      rewrite E. intros [= <- <-]. right. left.
      now exists job, w1, e, w2.
  - destruct (postScan_catch_run (StoredFile.storedFilename storedFile)
                e w1) as (w3 & E & Hdb & Hq & Ht & _).
    rewrite E. intros [= <- <-]. left. now exists e, w1.
Qed.

(** X22.  An upload POST /scan accepts (in a process with an absolute
    working directory and an upload directory other than the root) leaves
    behind: a new pending job under the identifier of the response, with
    the client's file name, the size and SHA-256 of the uploaded file, and
    a priority that is the [priority] field parsed as a whole number and
    clamped to 0..10 (0 when the field is absent or not a number); the
    uploaded file, moved to the job's [file_path], which is where
    [getFilePath] looks for the job's [stored_filename], so that the
    worker's existence check on the base name of that path succeeds while
    the file stays there and the file system answers; and a queue entry
    under the job's identifier which, unless the queue already held one,
    is new and carries the job's priority and path. *)
Theorem upload_accepted (randomBytes : list ascii) (file : UploadedFile.t)
    (priorityField : option string) (w w' : World)
    (resp : ScanUploadResponse.t) :
  isAbsolute (cwd w) = true -> UPLOAD_DIR (cwd w) (uploadDir w) <> "/" ->
  postScanHandler randomBytes (Some file) priorityField w = (Ok resp, w') ->
  exists row f,
    jobs (db w) !! ScanUploadResponse.jobId resp = None /\
    jobs (db w') !! ScanUploadResponse.jobId resp = Some row /\
    JobRow.id row = ScanUploadResponse.jobId resp /\
    JobRow.status row = PENDING /\
    ScanUploadResponse.status resp = PENDING /\
    JobRow.original_filename row = UploadedFile.originalname file /\
    ScanUploadResponse.filename resp = UploadedFile.originalname file /\
    JobRow.priority row
    = Z.min (Z.max (js_or (parseInt (nullish priorityField "0")) 0) 0) 10 /\
    0 <= JobRow.priority row <= 10 /\
    fs w !! UploadedFile.path file = Some f /\
    JobRow.file_size row = f_size f /\
    JobRow.checksum row = Some (f_sha256 f) /\
    fs w' !! JobRow.file_path row = Some f /\
    getFilePath (cwd w) (uploadDir w) (JobRow.stored_filename row)
    = Ok (JobRow.file_path row) /\
    (forall w2, fs w2 = fs w' -> cwd w2 = cwd w ->
                uploadDir w2 = uploadDir w ->
                List.hd false (faults w2) = false ->
                fst (fileExists (basename (JobRow.file_path row)) w2)
                = Ok true) /\
    (exists entry, In entry (queue w') /\
                   bj_id entry = ScanUploadResponse.jobId resp) /\
    (List.find (fun j => String.eqb (bj_id j) (ScanUploadResponse.jobId resp))
               (queue w) = None ->
     exists entry,
       queue w' = queue w ++ [entry] /\
       bj_id entry = ScanUploadResponse.jobId resp /\
       bj_priority entry = JobRow.priority row /\
       bj_data entry
       = {| ScanJobPayload.jobId := ScanUploadResponse.jobId resp;
            ScanJobPayload.filePath := JobRow.file_path row;
            ScanJobPayload.attempt := 1 |}).
Proof.
  intros Hc Hu. unfold postScanHandler.
  destruct (_ || _); [discriminate|].
  rewrite bind_eq.
  destruct (saveFile randomBytes (UploadedFile.path file)
              (UploadedFile.originalname file) w) as [[sf|e] w0] eqn:Hsave;
    [|discriminate].
  intros Hpost.
  destruct (saveFile_Ok _ _ _ _ _ _ Hsave) as (f & Hf & Hsf & Hw0).
  cbv zeta in Hsf, Hw0.
  destruct (stored_path_resolves (cwd w) (uploadDir w)
              (generateStorageFilename (now w) randomBytes
                 (UploadedFile.originalname file)) Hc Hu
              (generateStorageFilename_normal _ _ _)) as (Hg & _ & Hbase).
  apply postScan_cases in Hpost. cbv zeta in Hpost.
  destruct Hpost as [(e & w1 & _ & Hr & _)
                    |[(job & w1 & e & w2 & _ & _ & Hr & _)
                     |(job & w1 & id & Hcreate & Henq & Hr)]];
    try discriminate.
  injection Hr as ->.
  destruct (createJob_Ok_row _ _ _ _ Hcreate)
    as (row & -> & Hnone & Hfresh & Hofn & Hsfn & Hfp & Hfsz & _ & Hcs
        & Hpr & Hw1).
  cbn [CreateJobInput.originalFilename CreateJobInput.storedFilename
       CreateJobInput.filePath CreateJobInput.fileSize
       CreateJobInput.checksum CreateJobInput.priority nullish]
    in Hofn, Hsfn, Hfp, Hfsz, Hcs, Hpr.
  injection Hofn as Hofn. injection Hsfn as Hsfn. injection Hfp as Hfp.
  injection Hfsz as Hfsz.
  destruct Hfresh as (Hid & Hst & _).
  cbn [ScanUploadResponse.jobId ScanUploadResponse.status
       ScanUploadResponse.filename mapRowToJob Job.id Job.status
       Job.originalFilename Job.priority] in *.
  rewrite enqueueScanJob_eq in Henq.
  assert (Hdb0 : db w0 = db w) by now subst w0.
  assert (Hq1 : queue w1 = queue w) by now subst w1 w0.
  assert (Hfs1 : fs w1 = <[StoredFile.filePath sf := f]>
                           (delete (UploadedFile.path file) (fs w)))
    by now subst w1 w0 sf.
  assert (Hjobs1 : jobs (db w1) !! JobRow.id row = Some row).
  { subst w1. cbn [db set_db jobs]. apply lookup_insert_eq. }
  exists row, f.
  assert (Hpath : JobRow.file_path row = StoredFile.filePath sf)
    by congruence.
  assert (Hname : JobRow.stored_filename row = StoredFile.storedFilename sf)
    by congruence.
  assert (Hfinal : db w' = db w1 /\ fs w' = fs w1 /\
                   (exists entry, In entry (queue w') /\
                                  bj_id entry = JobRow.id row) /\
                   (List.find (fun j => String.eqb (bj_id j) (JobRow.id row))
                              (queue w) = None ->
                    exists entry,
                      queue w' = queue w ++ [entry] /\
                      bj_id entry = JobRow.id row /\
                      bj_priority entry = JobRow.priority row /\
                      bj_data entry
                      = {| ScanJobPayload.jobId := JobRow.id row;
                           ScanJobPayload.filePath := JobRow.file_path row;
                           ScanJobPayload.attempt := 1 |})).
  { destruct (List.hd false (faults w1)); [discriminate|].
    rewrite Hq1 in Henq.
    destruct (List.find _ (queue w)) as [j|] eqn:Hfind.
    - injection Henq as _ <-. split; [reflexivity|]. split; [reflexivity|].
      split; [|discriminate].
      apply List.find_some in Hfind as [Hin Hj].
      apply String.eqb_eq in Hj. exists j.
      change (queue (pop_fault w1)) with (queue w1). rewrite Hq1.
      now split.
    - injection Henq as _ <-. split; [reflexivity|]. split; [reflexivity|].
      cbn [queue set_queue]. split.
      + eexists. split; [apply List.in_or_app; right; left; reflexivity|].
        reflexivity.
      + intros _. eexists. split; [reflexivity|].
        cbn [bj_id bj_priority bj_data nullish]. rewrite Hpath.
        now repeat split. }
  destruct Hfinal as (Hdb' & Hfs' & Hentry & Hnew).
  split; [rewrite <- Hdb0; exact Hnone|].
  split; [rewrite Hdb'; exact Hjobs1|].
  split; [reflexivity|]. split; [exact Hst|]. split; [exact Hst|].
  split; [now symmetry|]. split; [now symmetry|].
  split; [now symmetry|]. split; [rewrite <- Hpr; lia|].
  split; [exact Hf|].
  split; [rewrite <- Hfsz, Hsf; reflexivity|].
  split; [rewrite <- Hcs, Hsf; reflexivity|].
  split; [rewrite Hfs', Hfs1, Hpath; apply lookup_insert_eq|].
  split; [rewrite Hname, Hpath, Hsf; exact Hg|].
  split; [|split; [exact Hentry | exact Hnew]].
  intros w2 Hfs2 Hc2 Hu2 Hfault. rewrite fileExists_eq, Hc2, Hu2, Hfault.
  rewrite Hpath, Hsf. cbn [StoredFile.filePath]. rewrite Hbase, Hg.
  rewrite Hfs2, Hfs', Hfs1, Hsf. cbn [StoredFile.filePath].
  now rewrite lookup_insert_eq.
Qed.

Lemma upload_accepted_witness :
  exists row f,
    jobs (db (snd (postScanHandler sample_bytes (Some sample_upload)
                     (Some "99") sample_request_world))) !! sample_uuid
    = Some row /\
    fs sample_request_world !! "/tmp/upload_1" = Some f.
Proof.
  destruct (upload_accepted sample_bytes sample_upload (Some "99")
              sample_request_world
              (snd (postScanHandler sample_bytes (Some sample_upload)
                      (Some "99") sample_request_world))
              {| ScanUploadResponse.jobId := sample_uuid;
                 ScanUploadResponse.filename := "report.pdf";
                 ScanUploadResponse.fileSize := 10;
                 ScanUploadResponse.status := PENDING |}
              eq_refl
              ltac:(vm_compute; discriminate)
              ltac:(vm_compute; reflexivity))
    as (row & f & _ & Hrow & _ & _ & _ & _ & _ & _ & _ & Hf & _).
  exists row, f. split; [exact Hrow | exact Hf].
Defined.

Example upload_priority_examples :
  let priority_of field :=
    option_map JobRow.priority
      (jobs (db (snd (postScanHandler sample_bytes (Some sample_upload)
                        field sample_request_world))) !! sample_uuid) in
  priority_of (Some "99") = Some 10 /\ priority_of (Some "-4") = Some 0 /\
  priority_of (Some "7") = Some 7 /\ priority_of (Some "high") = Some 0 /\
  priority_of None = Some 0 /\ priority_of (Some " 3 ") = Some 3.
Proof. vm_compute. repeat split. Qed.

(** X23.  When POST /scan throws, nothing was added to the queue, and the
    error is one of four.  A [ValidationError] (400) for a missing file or
    a file name that trims to nothing, "." or "..": then nothing at all
    was done.  The [StorageError] "Failed to save uploaded file" or the
    [DatabaseError] "Database query failed" (500): then the store is
    unchanged.  Or the [QueueError] "Failed to add job to queue" (500):
    then the store has one more job, pending.  The error response carries
    the error's own status, code and message. *)
Theorem upload_failure (nodeEnv : string) (randomBytes : list ascii)
    (file : option UploadedFile.t) (priorityField : option string)
    (w w' : World) (e : Exn) :
  postScanHandler randomBytes file priorityField w = (Throw e, w') ->
  queue w' = queue w /\
  ((exists m, e = AppError m 400 VALIDATION_ERROR /\ w' = w) \/
   (e = AppError "Failed to save uploaded file" 500 STORAGE_ERROR /\
    db w' = db w) \/
   (e = AppError "Database query failed" 500 DATABASE_ERROR /\
    db w' = db w) \/
   (e = AppError "Failed to add job to queue" 500 QUEUE_ERROR /\
    exists row,
      jobs (db w) !! JobRow.id row = None /\
      JobRow.status row = PENDING /\
      db w' = mkDb (<[JobRow.id row := row]> (jobs (db w)))
                   (scan_results (db w)))) /\
  errorHandler nodeEnv e
  = {| ApiError.statusCode := match e with
                              | AppError _ sc _ => sc
                              | JsError _ => 500
                              end;
       ApiError.code := nullish (code_of e) INTERNAL_ERROR;
       ApiError.message := message_of e |} /\
  (ApiError.statusCode (errorHandler nodeEnv e) = 400 \/
   ApiError.statusCode (errorHandler nodeEnv e) = 500).
Proof.
  unfold postScanHandler. intros Hrun.
  assert (Hcases :
    queue w' = queue w /\
    ((exists m, e = AppError m 400 VALIDATION_ERROR /\ w' = w) \/
     (e = AppError "Failed to save uploaded file" 500 STORAGE_ERROR /\
      db w' = db w) \/
     (e = AppError "Database query failed" 500 DATABASE_ERROR /\
      db w' = db w) \/
     (e = AppError "Failed to add job to queue" 500 QUEUE_ERROR /\
      exists row,
        jobs (db w) !! JobRow.id row = None /\
        JobRow.status row = PENDING /\
        db w' = mkDb (<[JobRow.id row := row]> (jobs (db w)))
                     (scan_results (db w))))).
  { destruct file as [file|].
    2:{ injection Hrun as <- <-. split; [reflexivity|]. left.
        eexists. split; reflexivity. }
    destruct (_ || _).
    { injection Hrun as <- <-. split; [reflexivity|]. left.
      eexists. split; reflexivity. }
    rewrite bind_eq in Hrun.
    destruct (saveFile randomBytes (UploadedFile.path file)
                (UploadedFile.originalname file) w) as [[sf|e0] w0] eqn:Hsave.
    2:{ injection Hrun as <- <-.
        destruct (saveFile_Throw _ _ _ _ _ _ Hsave)
          as (-> & _ & Hdb & Hq & _).
        split; [assumption|]. right. left. now split. }
    destruct (saveFile_Ok _ _ _ _ _ _ Hsave) as (f & _ & _ & Hw0).
    cbv zeta in Hw0.
    assert (Hdb0 : db w0 = db w) by now subst w0.
    assert (Hq0 : queue w0 = queue w) by now subst w0.
    apply postScan_cases in Hrun. cbv zeta in Hrun.
    destruct Hrun as [(e1 & w1 & Hcreate & Hr & Hdb & Hq & _)
                     |[(job & w1 & e1 & w2 & Hcreate & Henq & Hr & Hdb
                        & Hq & _)
                      |(job & w1 & id & _ & _ & Hr)]];
      [| |discriminate].
    - injection Hr as <-.
      destruct (createJob_Throw _ _ _ _ Hcreate) as (-> & Hw1).
      assert (db w1 = db w0 /\ queue w1 = queue w0) as [Hd1 Hq1]
        by now subst w1.
      split; [congruence|]. right. right. left.
      split; [reflexivity | congruence].
    - injection Hr as <-.
      destruct (createJob_Ok_row _ _ _ _ Hcreate)
        as (row & -> & Hnone & (_ & Hst & _) & _ & _ & _ & _ & _ & _ & _
            & Hw1).
      rewrite enqueueScanJob_eq in Henq.
      assert (Hq1 : queue w1 = queue w0) by now subst w1.
      assert (Hd1 : db w1 = mkDb (<[JobRow.id row := row]> (jobs (db w)))
                                 (scan_results (db w))).
      { subst w1. cbn [db set_db]. now rewrite Hdb0. }
      destruct (List.hd false (faults w1)).
      + injection Henq as <- <-.
        change (db (pop_fault w1)) with (db w1) in Hdb.
        change (queue (pop_fault w1)) with (queue w1) in Hq.
        split; [congruence|]. right. right. right.
        split; [reflexivity|]. exists row.
        split; [now rewrite <- Hdb0|]. split; [assumption | congruence].
      + destruct (List.find _ (queue w1)); discriminate. }
  destruct Hcases as [Hq Hcases]. split; [exact Hq|].
  split; [exact Hcases|].
  destruct Hcases as [(m & -> & _) | [(-> & _) | [(-> & _) | (-> & _)]]];
    cbn; split; try reflexivity; auto.
Qed.

Lemma upload_failure_witness :
  queue (snd (postScanHandler sample_bytes None None sample_request_world))
  = queue sample_request_world.
Proof.
  refine (proj1 (upload_failure "production" sample_bytes None None
                   sample_request_world
                   (snd (postScanHandler sample_bytes None None
                           sample_request_world))
                   (ValidationError
                      ("No file provided. Use " +:+ QUOTE +:+ "file"
                       +:+ QUOTE +:+ " as the field name."))
                   _)).
  vm_compute. reflexivity.
Defined.

(* ===================================================================== *)
(** * 51. GET /status/:jobId                                             *)
(* ===================================================================== *)



(* ===================================================================== *)
(** * 52. GET /results                                                   *)
(* ===================================================================== *)







Example getResults_example :
  match fst (getResults (Some "0") (Some "500") sample_infected_world) with
  | Ok resp =>
      InfectedFilesResponse.page resp = 1 /\
      InfectedFilesResponse.limit resp = 100 /\
      InfectedFilesResponse.total resp = 1 /\
      InfectedFilesResponse.totalPages resp = 1 /\
      List.map InfectedFile.filename (InfectedFilesResponse.files resp)
      = ["report.pdf"]
  | Throw _ => False
  end.
Proof. vm_compute. repeat split. Qed.

(* ===================================================================== *)
(** * 53. The extension of a stored file                                 *)
(* ===================================================================== *)

Lemma split_last_dot_None_cons (c : ascii) (t : string) :
  split_last_dot (String c t) = None <->
  c <> "."%char /\ split_last_dot t = None.
Proof.
  cbn [split_last_dot]. destruct (split_last_dot t) as [[p q]|].
  - split; [discriminate | intros [_ H]; discriminate].
  - destruct (Ascii.eqb_spec c "."); intuition (discriminate || congruence).
Qed.

Lemma split_last_dot_suffix (s pre suf : string) :
  split_last_dot s = Some (pre, suf) -> split_last_dot suf = None.
Proof.
  revert pre. induction s as [|c s IH]; intros pre; cbn; [discriminate|].
  destruct (split_last_dot s) as [[p q]|] eqn:E.
  - intros [= <- <-]. now apply (IH p).
  - destruct (Ascii.eqb c "."); [|discriminate]. now intros [= <- <-].
Qed.

Lemma split_last_dot_app_dot (pre suf : string) :
  split_last_dot suf = None ->
  split_last_dot (pre +:+ "." +:+ suf) = Some (pre, suf).
Proof.
  intros Hs. induction pre as [|c pre IH].
  - rewrite append_nil_l.
    change ("." +:+ suf) with (String "."%char suf).
    cbn [split_last_dot]. now rewrite Hs.
  - rewrite append_cons. cbn [split_last_dot]. now rewrite IH.
Qed.

Lemma split_last_dot_app_None (a b : string) :
  split_last_dot a = None -> split_last_dot b = None ->
  split_last_dot (a +:+ b) = None.
Proof.
  intros Ha Hb. induction a as [|c a IH]; [now rewrite append_nil_l|].
  apply split_last_dot_None_cons in Ha as [Hc Ha].
  rewrite append_cons. apply split_last_dot_None_cons. auto.
Qed.

Lemma string_of_uint_no_dot (d : Decimal.uint) :
  split_last_dot (NilEmpty.string_of_uint d) = None.
Proof.
  induction d; cbn [NilEmpty.string_of_uint]; [reflexivity|..];
    apply split_last_dot_None_cons; (split; [discriminate | assumption]).
Qed.

Lemma Z_to_string_no_dot (z : Z) : split_last_dot (Z_to_string z) = None.
Proof.
  unfold Z_to_string, NilZero.string_of_int, NilZero.string_of_uint.
  destruct (Z.to_int z) as [d|d].
  - destruct d; try apply string_of_uint_no_dot. reflexivity.
  - apply split_last_dot_None_cons. split; [discriminate|].
    destruct d; try apply string_of_uint_no_dot. reflexivity.
Qed.

Lemma hex_digit_not_dot (n : nat) : hex_digit n <> "."%char.
Proof.
  unfold hex_digit.
  do 16 (destruct n as [|n]; [discriminate|]). discriminate.
Qed.

Lemma hex_of_bytes_no_dot (bytes : list ascii) :
  split_last_dot (hex_of_bytes bytes) = None.
Proof.
  induction bytes as [|b bytes IH]; [reflexivity|].
  cbn [hex_of_bytes].
  apply split_last_dot_None_cons. split; [apply hex_digit_not_dot|].
  apply split_last_dot_None_cons. split; [apply hex_digit_not_dot|].
  exact IH.
Qed.

Lemma replace_unsafe_no_dot (s : string) :
  split_last_dot (replace_unsafe s) = None.
Proof.
  induction s as [|c s IH]; [reflexivity|]. cbn [replace_unsafe].
  apply split_last_dot_None_cons. split; [|exact IH].
  destruct (is_word_char c) eqn:Hc; [|discriminate].
  intros ->. discriminate.
Qed.

Lemma substring_no_dot (n m : nat) (s : string) :
  split_last_dot s = None -> split_last_dot (String.substring n m s) = None.
Proof.
  revert n m. induction s as [|c s IH]; intros n m Hs.
  - destruct n, m; reflexivity.
  - apply split_last_dot_None_cons in Hs as [Hc Hs].
    destruct n as [|n]; cbn [String.substring].
    + destruct m as [|m]; [reflexivity|].
      apply split_last_dot_None_cons. split; [assumption | now apply IH].
    + now apply IH.
Qed.

Lemma extname_cases (name : string) :
  extname name = "" \/
  exists suf, extname name = "." +:+ suf /\ split_last_dot suf = None.
Proof.
  unfold extname.
  destruct (split_last_dot (basename name)) as [[pre suf]|] eqn:E;
    [|now left].
  destruct (String.eqb pre ""); [now left|].
  destruct (_ && _); [now left|].
  right. exists suf. split; [reflexivity|].
  exact (split_last_dot_suffix _ _ _ E).
Qed.

Lemma extname_generated (timestamp : Z) (randomBytes : list ascii)
      (name : string) :
  extname (generateStorageFilename timestamp randomBytes name)
  = extname name.
Proof.
  unfold extname at 1.
  rewrite (normal_segment_basename _
             (generateStorageFilename_normal timestamp randomBytes name)).
  unfold generateStorageFilename.
  set (stem := String.substring 0 50
                 (replace_unsafe (basename_ext name (extname name)))).
  assert (Hstem : split_last_dot stem = None)
    by apply substring_no_dot, replace_unsafe_no_dot.
  assert (Hprefix :
            split_last_dot
              (Z_to_string timestamp +:+ "-" +:+ hex_of_bytes randomBytes
               +:+ "-" +:+ stem) = None).
  { repeat apply split_last_dot_app_None;
      auto using Z_to_string_no_dot, hex_of_bytes_no_dot. }
  destruct (Z_to_string_shape timestamp) as (_ & c & t & Ht & Hc).
  destruct (extname_cases name) as [E | (suf & E & Hsuf)]; rewrite E.
  - rewrite app_empty_r, Hprefix. reflexivity.
  - replace (Z_to_string timestamp +:+ "-" +:+ hex_of_bytes randomBytes
             +:+ "-" +:+ stem +:+ "." +:+ suf)
      with ((Z_to_string timestamp +:+ "-" +:+ hex_of_bytes randomBytes
             +:+ "-" +:+ stem) +:+ "." +:+ suf)
      by (now rewrite !app_assoc_str).
    rewrite split_last_dot_app_dot by assumption.
    rewrite Ht, !append_cons.
    cbn [String.eqb]. destruct (Ascii.eqb_spec c "."); [contradiction|].
    reflexivity.
Qed.

(** X26.  The name [generateStorageFilename] makes keeps the extension of
    the client's file name exactly as [path.extname] sees it.  The upload
    filter therefore judges a file under its stored name as it judged it under
    its original name: an upload it accepted has an allowed MIME type and
    is never stored with the extension ".lnk" or ".url", in whatever
    letter case. *)
Theorem stored_name_keeps_extension (timestamp : Z)
    (randomBytes : list ascii) (file : UploadedFile.t) :
  let stored :=
    generateStorageFilename timestamp randomBytes
      (UploadedFile.originalname file) in
  extname stored = extname (UploadedFile.originalname file) /\
  fileFilter {| UploadedFile.originalname := stored;
                UploadedFile.mimetype := UploadedFile.mimetype file;
                UploadedFile.size := UploadedFile.size file;
                UploadedFile.path := UploadedFile.path file |}
  = fileFilter file /\
  (fileFilter file = Ok true ->
   toLowerCase (extname stored) <> ".lnk" /\
   toLowerCase (extname stored) <> ".url" /\
   In (UploadedFile.mimetype file) ALLOWED_MIME_TYPES).
Proof.
  cbv zeta. pose proof (extname_generated timestamp randomBytes
                          (UploadedFile.originalname file)) as E.
  split; [exact E|]. split.
  - unfold fileFilter. cbn [UploadedFile.originalname UploadedFile.mimetype].
    now rewrite E.
  - rewrite E. unfold fileFilter.
    destruct (has BLOCKED_EXTENSIONS _) eqn:Hb; [discriminate|].
    destruct (has ALLOWED_MIME_TYPES _) eqn:Hm; [|discriminate].
    intros _. unfold has in Hb, Hm.
    cbn [BLOCKED_EXTENSIONS List.existsb] in Hb.
    apply orb_false_iff in Hb as [H1 Hb].
    apply orb_false_iff in Hb as [H2 _].
    apply String.eqb_neq in H1, H2.
    apply List.existsb_exists in Hm as (m & Hin & Hm).
    apply String.eqb_eq in Hm. subst m. now repeat split.
Qed.

Example fileFilter_examples :
  let file name mime :=
    {| UploadedFile.originalname := name; UploadedFile.mimetype := mime;
       UploadedFile.size := 10; UploadedFile.path := "/tmp/upload_1" |} in
  fileFilter (file "report.pdf" "application/pdf") = Ok true /\
  fileFilter (file "Shortcut.LNK" "application/octet-stream")
  = Throw (ValidationError "File type not allowed: .lnk") /\
  fileFilter (file "movie.mp4" "video/mp4")
  = Throw (ValidationError "MIME type not allowed video/mp4") /\
  fileFilter (file "link.url/" "text/plain")
  = Throw (ValidationError "File type not allowed: .url").
Proof. repeat split; reflexivity. Qed.

(* ===================================================================== *)
(** * 54. scan.worker.ts: what a failed run records                      *)
(* ===================================================================== *)

Lemma updateJobStatus_Throw (jobId : string) (status : JobStatus)
      (m : option string) (w w' : World) (e : Exn) :
  updateJobStatus jobId status m w = (Throw e, w') ->
  (e = DatabaseError "Database query failed" \/
   e = NotFoundError "Job" jobId) /\
  db w' = db w /\ txn w' = txn w /\ now w' = now w.
Proof.
  rewrite updateJobStatus_eq.
  destruct (List.hd false (faults w)).
  { intros [= <- <-]. repeat split. now left. }
  destruct (sql_update_job _ _ _ _) as [[[|row rows] d]|e'] eqn:E.
  - intros [= <- <-].
    destruct (sql_update_job_rows _ _ _ _ _ _ E)
      as [(_ & -> & _) | (old & _ & Hrows & _)]; [|discriminate].
    repeat split. now right.
  - discriminate.
  - intros [= <- <-]. repeat split. now left.
Qed.

Lemma updateJobStatus_txn (jobId : string) (status : JobStatus)
      (m : option string) (w : World) :
  txn (snd (updateJobStatus jobId status m w)) = txn w.
Proof.
  rewrite updateJobStatus_eq.
  destruct (List.hd false (faults w)); [reflexivity|].
  destruct (sql_update_job _ _ _ _) as [[[|row rows] d]|e']; reflexivity.
Qed.

Lemma fileExists_same_env (name : string) (w : World) :
  same_env w (snd (fileExists name w)).
Proof.
  rewrite fileExists_eq.
  destruct (getFilePath _ _ name) as [p|e]; [|reflexivity].
  destruct (List.hd false (faults w)); [apply same_env_pop|].
  destruct (fs w !! p); apply same_env_pop.
Qed.

Lemma scanFile_now (p : string) (w : World) :
  now (snd (scanFile p w)) = now w.
Proof.
  rewrite scanFile_eq, initScanner_eq.
  assert (H : forall w1, now w1 = now w ->
            now (snd (match clam_scanFile p w1 with
                      | (Ok (isInfected, viruses, ms), w2) =>
                          (Ok {| ClamScanResult.isInfected := isInfected;
                                 ClamScanResult.viruses := viruses;
                                 ClamScanResult.scannedFiles := 1;
                                 ClamScanResult.scanDurationMs := ms;
                                 ClamScanResult.error := None |}, w2)
                      | (Throw error, w2) =>
                          if includes (message_of error) "ECONNREFUSED"
                          then (Throw ScannerUnavailableError,
                                set_clamScanner false w2)
                          else (Throw (ScannerError "Failed to scan file"),
                                w2)
                      end)) = now w).
  { intros w1 H1. unfold clam_scanFile. cbn [clamd set_scans].
    destruct (clamd w1) as [|[inf vs ms|m] rest]; cbn; try assumption.
    destruct (includes m "ECONNREFUSED"); assumption. }
  destruct (clamScanner w); [now apply H|].
  destruct (List.hd false (faults w)); [reflexivity | now apply H].
Qed.

(** The [try] block of the worker, when it throws, has added no result
    row and left no transaction open. *)
Lemma processScanJob_body_Throw (job : BullJob) (w w1 : World) (e : Exn) :
  txn w = None ->
  (updateJobStatus (ScanJobPayload.jobId (bj_data job)) PROCESSING None ;;;
   fileExists <- fileExists (basename (ScanJobPayload.filePath (bj_data job))) ;;
   if negb fileExists then
     throw (JsError ("File not found: "
                     +:+ ScanJobPayload.filePath (bj_data job)))
   else
     initScanner ;;;
     scanResult <- scanFile (ScanJobPayload.filePath (bj_data job)) ;;
     completeJobWithResult (ScanJobPayload.jobId (bj_data job))
       {| Completion.result :=
            match ClamScanResult.error scanResult with
            | Some _ => ERROR
            | None =>
                if ClamScanResult.isInfected scanResult
                then INFECTED else CLEAN
            end;
          Completion.isInfected := ClamScanResult.isInfected scanResult;
          Completion.threatName :=
            List.head (ClamScanResult.viruses scanResult);
          Completion.scanDurationMs :=
            ClamScanResult.scanDurationMs scanResult |}) w
  = (Throw e, w1) ->
  txn w1 = None /\ scan_results (db w1) = scan_results (db w) /\
  now w1 = now w.
Proof.
  intros Hw Hrun.
  apply bind_cases in Hrun as [(e' & Hupd & _) | (j & w2 & Hupd & Hrest)].
  { destruct (updateJobStatus_Throw _ _ _ _ _ _ Hupd) as (_ & Hd & Ht & Hn).
    repeat split; congruence. }
  pose proof (updateJobStatus_txn (ScanJobPayload.jobId (bj_data job))
                PROCESSING None w) as Ht2.
  destruct (updateJobStatus_frame (ScanJobPayload.jobId (bj_data job))
              PROCESSING None w) as ((Hn2 & _) & Hr2 & _).
  rewrite Hupd in Ht2, Hn2, Hr2. cbn [snd] in Ht2, Hn2, Hr2.
  unfold same_results in Hr2.
  apply bind_cases in Hrest as [(e' & Hfe & _) | (fe & w3 & Hfe & Hrest)].
  { pose proof (fileExists_eq
                  (basename (ScanJobPayload.filePath (bj_data job))) w2) as E.
    rewrite Hfe in E. destruct (getFilePath _ _ _); [|discriminate].
    destruct (List.hd false _); [discriminate|].
    destruct (fs w2 !! _); discriminate. }
  destruct (preserves_run _ _ _ _ (fileExists_same_store _) Hfe) as [Hd3 Ht3].
  pose proof (fileExists_same_env
                (basename (ScanJobPayload.filePath (bj_data job))) w2)
    as (Hn3 & _).
  rewrite Hfe in Hn3. cbn [snd] in Hn3.
  destruct (negb fe).
  { injection Hrest as _ <-. repeat split; congruence. }
  apply bind_cases in Hrest as [(e' & Hinit & _) | (u & w4 & Hinit & Hrest)].
  { destruct (preserves_run _ _ _ _ initScanner_same_store Hinit)
      as [Hd4 Ht4].
    pose proof (initScanner_eq w3) as E. rewrite Hinit in E.
    assert (Hn4 : now w1 = now w3).
    { destruct (clamScanner w3); [discriminate|].
      destruct (List.hd false (faults w3)); [|discriminate].
      now injection E as _ ->. }
    repeat split; congruence. }
  destruct (preserves_run _ _ _ _ initScanner_same_store Hinit) as [Hd4 Ht4].
  assert (Hn4 : now w4 = now w3).
  { pose proof (initScanner_eq w3) as E. rewrite Hinit in E.
    destruct (clamScanner w3); [now injection E as _ ->|].
    destruct (List.hd false (faults w3)); [discriminate|].
    now injection E as _ ->. }
  apply bind_cases in Hrest as [(e' & Hscan & _) | (sr & w5 & Hscan & Hrest)].
  { destruct (preserves_run _ _ _ _ (scanFile_same_store _) Hscan)
      as [Hd5 Ht5].
    pose proof (scanFile_now (ScanJobPayload.filePath (bj_data job)) w4)
      as Hn5.
    rewrite Hscan in Hn5. cbn [snd] in Hn5. repeat split; congruence. }
  destruct (preserves_run _ _ _ _ (scanFile_same_store _) Hscan) as [Hd5 Ht5].
  pose proof (scanFile_now (ScanJobPayload.filePath (bj_data job)) w4) as Hn5.
  rewrite Hscan in Hn5. cbn [snd] in Hn5.
  assert (Ht5' : txn w5 = None) by congruence.
  match type of Hrest with
  | completeJobWithResult ?i ?c _ = _ =>
      destruct (completeJobWithResult_spec i c w5 Ht5')
        as (Ht6 & (Hn6 & _) & [(e6 & _ & Hd6) | (Hok & _)]);
        rewrite Hrest in *; cbn [fst snd] in *; [|discriminate]
  end.
  repeat split; congruence.
Qed.

(** X27.  When a run of the worker throws, no result row was added and no
    transaction is left open.  Either the job's row is now [failed], with
    the message of the thrown error as its [error_message] and the time of
    the run as [completed_at]; or the bookkeeping update itself failed,
    and the error thrown is its [DatabaseError] or "Job not found"
    error. *)
Theorem worker_failure_is_recorded (job : BullJob) (w w' : World)
    (e : Exn) :
  txn w = None -> processScanJob job w = (Throw e, w') ->
  let jobId := ScanJobPayload.jobId (bj_data job) in
  txn w' = None /\
  scan_results (db w') = scan_results (db w) /\
  ((exists row, jobs (db w') !! jobId = Some row /\
                JobRow.status row = FAILED /\
                JobRow.error_message row = Some (message_of e) /\
                JobRow.completed_at row = Some (now w)) \/
   e = AppError "Database query failed" 500 DATABASE_ERROR \/
   e = AppError ("Job not found: " +:+ jobId) 404 JOB_NOT_FOUND).
Proof.
  intros Hw Hrun. cbv zeta. unfold processScanJob in Hrun.
  apply try_catch_cases in Hrun as [(a & _ & Ha) | (e0 & w1 & Hbody & Hh)];
    [discriminate|].
  destruct (processScanJob_body_Throw job w w1 e0 Hw Hbody)
    as (Ht1 & Hr1 & Hn1).
  apply bind_cases in Hh as [(e' & Hupd & He) | (j & w2 & Hupd & Hthrow)].
  - injection He as <-.
    destruct (updateJobStatus_Throw _ _ _ _ _ _ Hupd)
      as (Hcase & Hd & Ht & _).
    split; [congruence|]. split; [congruence|]. right. exact Hcase.
  - injection Hthrow as -> <-.
    destruct (updateJobStatus_Ok _ _ _ _ _ _ Hupd) as (old & Hold & _ & -> & _).
    split; [exact Ht1|]. split; [exact Hr1|]. left.
    eexists. split; [cbn [db set_db jobs set_jobs]; apply lookup_insert_eq|].
    destruct (updated_row_fields (now w1) old FAILED (Some (message_of e)))
      as (Es & _ & _ & Ec & _ & Ee). cbv zeta in Es, Ec, Ee.
    unfold updated_row in Es, Ec, Ee. rewrite <- Hn1.
    split; [exact Es|]. split; [exact Ee | exact Ec].
Qed.

Lemma worker_failure_is_recorded_witness :
  scan_results
    (db (snd (processScanJob sample_entry sample_unavailable_world)))
  = scan_results (db sample_unavailable_world).
Proof.
  refine (proj1 (proj2 (worker_failure_is_recorded sample_entry
                          sample_unavailable_world
                          (snd (processScanJob sample_entry
                                  sample_unavailable_world))
                          ScannerUnavailableError _ _)));
    vm_compute; reflexivity.
Defined.

(* ===================================================================== *)
(** * 55. Health probes                                                  *)
(* ===================================================================== *)




